(** * morse-learn: the adaptive letter-introduction engine

    A shallow embedding of the game-space controller
    ([src/scripts/game-space.js]), of the two progress-percentage helpers
    (the title state and [src/api-service/server.js]) and of the speed
    practice state ([src/scripts/practice-state.js]), followed by the
    properties established about them.  Further on come the course
    metrics and the random settings of the title state, the functions
    of the API service ([src/api-service/server.js]) and the Morse board
    ([src/scripts/morse-board.js]), with properties of their own.

    Numbers.  The scores of the game are small integers, and the
    embedding computes with integers.  The two percentage functions are
    given a second time on IEEE doubles, the numbers of JavaScript, to
    show where the two arithmetics part.

    Conventions.  A letter is a JavaScript string, so it is a [string]
    here; a word of the corpus is a [string] as well and is indexed
    character by character, each character being read back as a
    one-character string.  Scores are integers, or [NaN] once the code has
    done arithmetic on a key that was not there.  An object used as a
    dictionary is a [gmap]; reading a key that is absent gives [None],
    which stands for [undefined]. *)

From Stdlib Require Import ZArith Lia Ascii QArith Qround Floats Uint63.
From Stdlib Require String.
From stdpp Require Import base option list gmap strings fin_maps.

Local Open Scope Z_scope.

(** ** JavaScript values, as far as the scores need them *)

Module Js.

Inductive num := Num (z : Z) | NaN.

#[global] Instance num_eq_dec : EqDecision num.
Proof. solve_decision. Defined.

(** Truthiness of [d[k]]: [undefined], [0] and [NaN] are falsy. *)
Definition truthy (v : option num) : bool :=
  match v with
  | Some (Num z) => negb (z =? 0)
  | _ => false
  end.

(** [d[k] < t] and [d[k] >= t]: any comparison with [undefined] or [NaN]
    is false. *)
Definition lt (v : option num) (t : Z) : bool :=
  match v with
  | Some (Num z) => z <? t
  | _ => false
  end.

Definition gt (v : option num) (t : Z) : bool :=
  match v with
  | Some (Num z) => t <? z
  | _ => false
  end.

Definition ge (v : option num) (t : Z) : bool :=
  match v with
  | Some (Num z) => t <=? z
  | _ => false
  end.

(** [d[k] + delta]: [undefined + 1] is [NaN]. *)
Definition plus (v : option num) (delta : Z) : num :=
  match v with
  | Some (Num z) => Num (z + delta)
  | _ => NaN
  end.

(** [Number(v) || 0] on a score. *)
Definition numberOr0 (v : num) : Z :=
  match v with
  | Num z => z
  | NaN => 0
  end.

(** The characters of a string, each as a one-character string
    ([w[i]] for [i] below [w.length]). *)
Definition chars (w : string) : list string :=
  (fun c => String c EmptyString) <$> String.list_ascii_of_string w.

(** The score lies in the closed interval [[lo, hi]]. *)
Definition within (lo hi : Z) (v : option num) : Prop :=
  exists z, v = Some (Num z) /\ lo <= z <= hi.

End Js.

(** ** The game space

    The model keeps what the progression engine reads and writes: the
    pool, the words and the cursor, the two counters, the gate, the
    scores, the analytics counters kept in [localStorage], the timers set
    by [checkAddLetters], and the calls made to the collaborators.  The
    parent state, its course and its header are taken to be there, as
    [create] leaves them.  Drawing, tweening and the playing of sounds
    change none of this and are taken not to throw;
    [parent.saveProgress], whose source is not at hand, is a call that
    is logged. *)

Module GameSpace.

(** [config.app]: the file is not part of the sources at hand, so its two
    constants are parameters of the model. *)
Record Config := {
  LEARNED_THRESHOLD : Z;
  CONSECUTIVE_CORRECT : Z
}.

(** [parent.course]: the fall-back course objects built in [app.js] carry
    [lettersToLearn] but no [words]. *)
Record Course := {
  lettersToLearn : list string;
  words : option (list string)
}.

Record Word := {
  myLetters : list string;
  currentLetterIndex : nat
}.

(** One entry of [analyticsData]. *)
Record Counts := {
  wrong : Z;
  correct : Z
}.

Inductive CountKey := KCorrect | KWrong.

(** What the game space asks of its collaborators, in call order.  The
    score dictionary is one object shared with the parent and handed to
    the header, so each call is logged with the dictionary as it stands
    at the moment of the call. *)
Inductive Effect :=
| SaveProgress (d : gmap string Js.num)      (* parent.saveProgress() *)
| SaveLetters (d : gmap string Js.num)       (* header.updateProgressLights -> saveLetters *)
| Congratulations (d : gmap string Js.num)   (* game.state.start('congratulations', ..) *)
| PlayMorse (letter : option string)
| PlayLetterSoundAlike (letter : option string).

Record State := {
  currentLettersInPlay : list string;
  currentWords : list Word;
  currentWordIndex : nat;
  mistakeCount : Z;
  consecutiveCorrect : Z;
  inputReady : bool;
  letterScoreDict : gmap string Js.num;
  analyticsData : option (gmap string Counts);  (* localStorage.analyticsData *)
  pendingAddLetters : nat;                      (* checkAddLetters timers not yet fired *)
  effects : list Effect                         (* oldest first *)
}.

Definition set_currentLettersInPlay (v : list string) (s : State) : State :=
  {| currentLettersInPlay := v; currentWords := currentWords s;
     currentWordIndex := currentWordIndex s; mistakeCount := mistakeCount s;
     consecutiveCorrect := consecutiveCorrect s; inputReady := inputReady s;
     letterScoreDict := letterScoreDict s; analyticsData := analyticsData s;
     pendingAddLetters := pendingAddLetters s; effects := effects s |}.

Definition set_currentWords (v : list Word) (s : State) : State :=
  {| currentLettersInPlay := currentLettersInPlay s; currentWords := v;
     currentWordIndex := currentWordIndex s; mistakeCount := mistakeCount s;
     consecutiveCorrect := consecutiveCorrect s; inputReady := inputReady s;
     letterScoreDict := letterScoreDict s; analyticsData := analyticsData s;
     pendingAddLetters := pendingAddLetters s; effects := effects s |}.

Definition set_currentWordIndex (v : nat) (s : State) : State :=
  {| currentLettersInPlay := currentLettersInPlay s; currentWords := currentWords s;
     currentWordIndex := v; mistakeCount := mistakeCount s;
     consecutiveCorrect := consecutiveCorrect s; inputReady := inputReady s;
     letterScoreDict := letterScoreDict s; analyticsData := analyticsData s;
     pendingAddLetters := pendingAddLetters s; effects := effects s |}.

Definition set_mistakeCount (v : Z) (s : State) : State :=
  {| currentLettersInPlay := currentLettersInPlay s; currentWords := currentWords s;
     currentWordIndex := currentWordIndex s; mistakeCount := v;
     consecutiveCorrect := consecutiveCorrect s; inputReady := inputReady s;
     letterScoreDict := letterScoreDict s; analyticsData := analyticsData s;
     pendingAddLetters := pendingAddLetters s; effects := effects s |}.

Definition set_consecutiveCorrect (v : Z) (s : State) : State :=
  {| currentLettersInPlay := currentLettersInPlay s; currentWords := currentWords s;
     currentWordIndex := currentWordIndex s; mistakeCount := mistakeCount s;
     consecutiveCorrect := v; inputReady := inputReady s;
     letterScoreDict := letterScoreDict s; analyticsData := analyticsData s;
     pendingAddLetters := pendingAddLetters s; effects := effects s |}.

Definition set_inputReady (v : bool) (s : State) : State :=
  {| currentLettersInPlay := currentLettersInPlay s; currentWords := currentWords s;
     currentWordIndex := currentWordIndex s; mistakeCount := mistakeCount s;
     consecutiveCorrect := consecutiveCorrect s; inputReady := v;
     letterScoreDict := letterScoreDict s; analyticsData := analyticsData s;
     pendingAddLetters := pendingAddLetters s; effects := effects s |}.

Definition set_letterScoreDict (v : gmap string Js.num) (s : State) : State :=
  {| currentLettersInPlay := currentLettersInPlay s; currentWords := currentWords s;
     currentWordIndex := currentWordIndex s; mistakeCount := mistakeCount s;
     consecutiveCorrect := consecutiveCorrect s; inputReady := inputReady s;
     letterScoreDict := v; analyticsData := analyticsData s;
     pendingAddLetters := pendingAddLetters s; effects := effects s |}.

Definition set_analyticsData (v : option (gmap string Counts)) (s : State) : State :=
  {| currentLettersInPlay := currentLettersInPlay s; currentWords := currentWords s;
     currentWordIndex := currentWordIndex s; mistakeCount := mistakeCount s;
     consecutiveCorrect := consecutiveCorrect s; inputReady := inputReady s;
     letterScoreDict := letterScoreDict s; analyticsData := v;
     pendingAddLetters := pendingAddLetters s; effects := effects s |}.

Definition set_pendingAddLetters (v : nat) (s : State) : State :=
  {| currentLettersInPlay := currentLettersInPlay s; currentWords := currentWords s;
     currentWordIndex := currentWordIndex s; mistakeCount := mistakeCount s;
     consecutiveCorrect := consecutiveCorrect s; inputReady := inputReady s;
     letterScoreDict := letterScoreDict s; analyticsData := analyticsData s;
     pendingAddLetters := v; effects := effects s |}.

(** Append one collaborator call to the log. *)
Definition emit (e : Effect) (s : State) : State :=
  {| currentLettersInPlay := currentLettersInPlay s; currentWords := currentWords s;
     currentWordIndex := currentWordIndex s; mistakeCount := mistakeCount s;
     consecutiveCorrect := consecutiveCorrect s; inputReady := inputReady s;
     letterScoreDict := letterScoreDict s; analyticsData := analyticsData s;
     pendingAddLetters := pendingAddLetters s; effects := effects s ++ [e] |}.

(** *** findAWord *)

Definition defaultWords : list string :=
  [ "cat"; "dog"; "hat"; "bat"; "rat"; "sat"; "mat"; "fat";
    "run"; "sun"; "fun"; "bun"; "gun"; "pun";
    "red"; "bed"; "fed"; "led"; "wed"; "ted";
    "big"; "dig"; "fig"; "pig"; "wig"; "zig";
    "box"; "fox"; "lox"; "sox"; "tox"; "vox" ].

(** The list handed to [_.shuffle]. *)
Definition corpus (course : Course) : list string :=
  match words course with
  | Some ws => ws
  | None => defaultWords
  end.

(** [newestLetter]: the last letter in play, ['a'] when none is. *)
Definition newestLetter (pool : list string) : string :=
  match last pool with
  | Some l => l
  | None => "a"
  end.

(** The pool as [findAWord] leaves it: fewer than three letters in play
    are replaced by the first three of the course.  (The other branch,
    ['a', 'b', 'c'], is for a course without [lettersToLearn].) *)
Definition reseed (course : Course) (pool : list string) : list string :=
  if (length pool <? 3)%nat then take 3 (lettersToLearn course) else pool.

(** The inner loop: every character of the word is in the pool. *)
Definition onlyTheseLetters (pool : list string) (w : string) : bool :=
  forallb (fun l => bool_decide (l ∈ pool)) (Js.chars w).

(** The guard of the inner [if]: the score of the newest letter is
    truthy and below the threshold. *)
Definition newestNotLearned (cfg : Config) (d : gmap string Js.num)
    (newest : string) : bool :=
  Js.truthy (d !! newest) && Js.lt (d !! newest) (LEARNED_THRESHOLD cfg).

(** The outer loop over the shuffled corpus; [None] is [myWord] left
    undefined. *)
Fixpoint scan (cfg : Config) (d : gmap string Js.num) (pool : list string)
    (newest : string) (shuffled : list string) : option string :=
  match shuffled with
  | [] => None
  | w :: rest =>
      if onlyTheseLetters pool w then
        if newestNotLearned cfg d newest then
          if bool_decide (newest ∈ Js.chars w) then Some w
          else scan cfg d pool newest rest
        else Some w
      else scan cfg d pool newest rest
  end.

(** [if (!myWord) myWord = 'cat']: the empty string is falsy too. *)
Definition orDefault (myWord : option string) : string :=
  match myWord with
  | Some w => if bool_decide (w = "") then "cat" else w
  | None => "cat"
  end.

(** [findAWord], given the outcome [shuffled] of [_.shuffle(words)].  It
    returns the word and leaves the reseeded pool in the state. *)
Definition findAWord (cfg : Config) (course : Course) (shuffled : list string)
    (s : State) : string * State :=
  let newest := newestLetter (currentLettersInPlay s) in
  let pool := reseed course (currentLettersInPlay s) in
  let myWord := scan cfg (letterScoreDict s) pool newest shuffled in
  (orDefault myWord, set_currentLettersInPlay pool s).

(** *** loadLetters *)

(** [loadLetters], started from the empty pool that [create] sets up.
    [keys] is [Object.keys(letterScoreDict)], whose order a [gmap] does
    not keep. *)
Definition loadLetters (cfg : Config) (course : Course) (keys : list string)
    (d : gmap string Js.num) : list string :=
  let learned :=
    filter (fun key => Is_true (Js.ge (d !! key) (LEARNED_THRESHOLD cfg))) keys in
  if (length learned <? 3)%nat then
    foldl (fun pool letter =>
             if bool_decide (letter ∈ pool) then pool else pool ++ [letter])
          learned (take 3 (lettersToLearn course))
  else learned.

(** *** checkAddLetters *)

(** [_.intersection(a, b)]: the values of [a] that occur in [b], each
    once, in the order of their first occurrence in [a]. *)
Fixpoint intersectionFrom (seen a b : list string) : list string :=
  match a with
  | [] => []
  | x :: rest =>
      if bool_decide (x ∈ b) && negb (bool_decide (x ∈ seen))
      then x :: intersectionFrom (x :: seen) rest b
      else intersectionFrom seen rest b
  end.

Definition intersection (a b : list string) : list string :=
  intersectionFrom [] a b.

(** [while (newLength > length) newLength--]. *)
Fixpoint decreaseTo (len newLength : nat) : nat :=
  match newLength with
  | O => O
  | S n => if (len <? S n)%nat then decreaseTo len n else S n
  end.

(** The body of the timer that [checkAddLetters] sets. *)
Definition addLettersTimeout (cfg : Config) (course : Course) (s : State) : State :=
  let arrayIntersection :=
    intersection (currentLettersInPlay s) (lettersToLearn course) in
  let newArray :=
    (fun l => Js.ge (letterScoreDict s !! l) (LEARNED_THRESHOLD cfg))
      <$> arrayIntersection in
  let lastLetter := last newArray in
  if default false lastLetter
     && (CONSECUTIVE_CORRECT cfg <=? consecutiveCorrect s) then
    let oldLength := length (currentLettersInPlay s) in
    let newLength := S oldLength in
    let newLength := decreaseTo (length (lettersToLearn course)) newLength in
    set_currentLettersInPlay (take newLength (lettersToLearn course))
      (set_consecutiveCorrect 0 s)
  else s.

(** [checkAddLetters] itself only arms the timer. *)
Definition checkAddLetters (s : State) : State :=
  set_pendingAddLetters (S (pendingAddLetters s)) s.

(** The timer fires: one pending callback runs. *)
Definition fireAddLetters (cfg : Config) (course : Course) (s : State) : State :=
  match pendingAddLetters s with
  | O => s
  | S n => addLettersTimeout cfg course (set_pendingAddLetters n s)
  end.

(** *** makeWordObject, addAWord *)

(** [word.create(true, myWord)] with [myLength = myWord.length]. *)
Definition newWord (myWord : string) : Word :=
  {| myLetters := Js.chars myWord; currentLetterIndex := 0 |}.

Definition makeWordObject (cfg : Config) (course : Course)
    (shuffled : list string) (s : State) : State :=
  let '(myWord, s) := findAWord cfg course shuffled s in
  let word := newWord myWord in
  let s := checkAddLetters s in
  set_currentWords (currentWords s ++ [word]) s.

(** [addAWord]: the new word is also laid out on screen, which changes
    nothing that is modelled. *)
Definition addAWord (cfg : Config) (course : Course)
    (shuffled : list string) (s : State) : State :=
  makeWordObject cfg course shuffled s.

(** *** checkAllLettersLearned *)

(** [Object.keys(d)], in some order. *)
Definition keys (d : gmap string Js.num) : list string := (map_to_list d).*1.

Definition learnedLetters (cfg : Config) (d : gmap string Js.num) : nat :=
  length (filter (fun key => Is_true (Js.ge (d !! key) (LEARNED_THRESHOLD cfg)))
                 (keys d)).

Definition checkAllLettersLearned (cfg : Config) (course : Course)
    (s : State) : bool * State :=
  let totalLetters := length (lettersToLearn course) in
  if bool_decide (learnedLetters cfg (letterScoreDict s) = totalLetters) then
    let s := emit (SaveProgress (letterScoreDict s)) s in
    let s := emit (Congratulations (letterScoreDict s)) s in
    (true, s)
  else (false, s).

(** *** playHints *)

(** The calls [playHints] makes, in order.  [%] is the remainder of
    JavaScript, which truncates: [Z.rem]. *)
Definition playHints (letter : option string) (attempts : Z) : list Effect :=
  if Z.rem attempts 4 =? 0 then [PlayMorse letter; PlayLetterSoundAlike letter]
  else if Z.rem attempts 4 =? 1 then []
  else if Z.rem attempts 4 =? 2 then [PlayMorse letter]
  else if Z.rem attempts 4 =? 3 then [PlayLetterSoundAlike letter]
  else [].

(** *** Exceptions and state

    [checkMatch] runs inside [try { .. } catch { .. } finally { .. }]:
    a computation either returns a value or throws, and in both cases
    it leaves a state behind. *)

Inductive Outcome (A : Type) :=
| Ok (a : A) (s : State)
| Threw (s : State).
Arguments Ok {A} a s.
Arguments Threw {A} s.

Definition M (A : Type) : Type := State -> Outcome A.

#[export] Instance M_ret : MRet M := fun A a s => Ok a s.
#[export] Instance M_bind : MBind M := fun A B k c s =>
  match c s with
  | Ok a s' => k a s'
  | Threw s' => Threw s'
  end.

Definition throw {A} : M A := fun s => Threw s.
Definition gets {A} (f : State -> A) : M A := fun s => Ok (f s) s.
Definition modify (f : State -> State) : M unit := fun s => Ok tt (f s).

(** A call of a method that cannot throw and returns a value. *)
Definition call {A} (f : State -> A * State) : M A := fun s =>
  let '(a, s') := f s in Ok a s'.

Definition stateOf {A} (o : Outcome A) : State :=
  match o with
  | Ok _ s => s
  | Threw s => s
  end.

(** *** Analytics counters ([incrementAnalyticsCount]) *)

Definition EMPTY_ANALYTICS : gmap string Counts :=
  list_to_map
    ((fun l => (l, {| wrong := 0; correct := 0 |})) <$>
       [ "e"; "t"; "a"; "i"; "m"; "s"; "o"; "h"; "n"; "c"; "r"; "d"; "u";
         "k"; "l"; "f"; "b"; "p"; "g"; "j"; "v"; "q"; "w"; "x"; "y"; "z" ]).

(** [undefined] used as a property name reads the property
    ["undefined"]. *)
Definition propKey (k : option string) : string := default "undefined" k.

Definition bump (key : CountKey) (c : Counts) : Counts :=
  match key with
  | KCorrect => {| wrong := wrong c; correct := correct c + 1 |}
  | KWrong => {| wrong := wrong c + 1; correct := correct c |}
  end.

(** With nothing stored yet the defaults are stored first; reading the
    counter of a letter that has no entry throws.  (The defaults object
    is then updated in place, which nothing observes: the stored item is
    never removed again.) *)
Definition incrementAnalyticsCount (key : CountKey) (letter : option string)
    : M unit := fun s =>
  let '(data, s) :=
    match analyticsData s with
    | None => (EMPTY_ANALYTICS, set_analyticsData (Some EMPTY_ANALYTICS) s)
    | Some data => (data, s)
    end in
  match data !! propKey letter with
  | None => Threw s
  | Some c =>
      Ok tt (set_analyticsData (Some (<[propKey letter := bump key c]> data)) s)
  end.

Definition incrementCorrectCount := incrementAnalyticsCount KCorrect.
Definition incrementWrongCount := incrementAnalyticsCount KWrong.

(** *** checkMatch *)

(** [d[letter] += delta]. *)
Definition addTo (letter : option string) (delta : Z)
    (d : gmap string Js.num) : gmap string Js.num :=
  <[propKey letter := Js.plus (d !! propKey letter) delta]> d.

(** [if (d[letter] > T + 2) d[letter] = T + 2]. *)
Definition clampAbove (cfg : Config) (letter : option string)
    (d : gmap string Js.num) : gmap string Js.num :=
  if Js.gt (d !! propKey letter) (LEARNED_THRESHOLD cfg + 2)
  then <[propKey letter := Js.Num (LEARNED_THRESHOLD cfg + 2)]> d
  else d.

(** [if (d[letter] < -T - 2) d[letter] = -T - 2]. *)
Definition clampBelow (cfg : Config) (letter : option string)
    (d : gmap string Js.num) : gmap string Js.num :=
  if Js.lt (d !! propKey letter) (- LEARNED_THRESHOLD cfg - 2)
  then <[propKey letter := Js.Num (- LEARNED_THRESHOLD cfg - 2)]> d
  else d.

(** [word.myLetters[word.currentLetterIndex]]. *)
Definition letterOf (w : Word) : option string :=
  myLetters w !! currentLetterIndex w.

Definition withLetterIndex (n : nat) (w : Word) : Word :=
  {| myLetters := myLetters w; currentLetterIndex := n |}.

(** [this.currentWords[i]] followed by a property read, which throws on
    [undefined]. *)
Definition wordAt (i : nat) : M Word := fun s =>
  match currentWords s !! i with
  | Some w => Ok w s
  | None => Threw s
  end.

(** [header.updateProgressLights(d, ..)], which begins with
    [saveLetters(d)]. *)
Definition updateProgressLights : M unit :=
  modify (fun s => emit (SaveLetters (letterScoreDict s)) s).

(** The word under the cursor and its current letter: the first two
    statements of the [try] block.  The word is an object of
    [currentWords]; the local variable [word] is kept as its index. *)
Definition expected : M (nat * option string) :=
  i ← gets currentWordIndex;
  word ← wordAt i;
  mret (i, letterOf word).

(** Correct letter, up to [await this.playCorrect()]. *)
Definition gotCorrect (cfg : Config) (i : nat) (letter : option string) : M unit :=
  incrementCorrectCount letter;;
  modify (set_mistakeCount 0);;
  modify (fun s => set_consecutiveCorrect (consecutiveCorrect s + 1) s);;
  modify (fun s =>
    set_currentWords
      (alter (fun w => withLetterIndex (S (currentLetterIndex w)) w) i
             (currentWords s)) s);;
  modify (fun s => set_letterScoreDict (addTo letter 1 (letterScoreDict s)) s);;
  modify (fun s => emit (SaveProgress (letterScoreDict s)) s);;
  modify (fun s => set_letterScoreDict (clampAbove cfg letter (letterScoreDict s)) s).

(** Correct letter, from [// next] to the test of
    [checkAllLettersLearned()].  Returns [None] when the congratulations
    screen was started, else the new word and letter. *)
Definition advance (cfg : Config) (course : Course) (shuffled : list string)
    (i : nat) : M (option (nat * option string)) :=
  word ← wordAt i;
  (if bool_decide (length (myLetters word) ≤ currentLetterIndex word)%nat then
     modify (fun s => set_currentWordIndex (S (currentWordIndex s)) s);;
     modify (fun s =>
       set_currentWords (alter (withLetterIndex 0) i (currentWords s)) s);;
     s ← gets id;
     if Z.of_nat (length (currentWords s)) - 2 <? Z.of_nat (currentWordIndex s)
     then modify (addAWord cfg course shuffled)
     else mret tt
   else mret tt);;
  j ← gets currentWordIndex;
  word ← wordAt j;
  let letter := letterOf word in
  modify (set_inputReady true);;
  updateProgressLights;;
  allLearned ← call (checkAllLettersLearned cfg course);
  if allLearned : bool then mret None else mret (Some (j, letter)).

(** Correct letter, after [await this.playLetter(letter)]: the hint for
    the new letter, [attempts] being left at its default. *)
Definition hintNext (cfg : Config) (j : nat) (letter : option string) : M unit :=
  s ← gets id;
  if Js.lt (letterScoreDict s !! propKey letter) (LEARNED_THRESHOLD cfg) then
    word ← wordAt j;
    modify (fun s => foldl (fun s e => emit e s) s (playHints (letterOf word) 0))
  else mret tt.

(** Wrong letter, up to [await this.playWrong()]. *)
Definition gotWrong (letter : option string) : M unit :=
  incrementWrongCount letter;;
  modify (fun s => set_mistakeCount (mistakeCount s + 1) s);;
  modify (set_consecutiveCorrect 0);;
  modify (fun s => set_letterScoreDict (addTo letter (-1) (letterScoreDict s)) s).

(** Wrong letter, from [updateProgressLights] to the reopening of the
    gate. *)
Definition retry (cfg : Config) (letter : option string) : M unit :=
  updateProgressLights;;
  modify (fun s => set_letterScoreDict (clampBelow cfg letter (letterScoreDict s)) s);;
  modify (set_inputReady true).

(** Wrong letter, the closing [playHints(word.getCurrentLetter(),
    this.mistakeCount)]. *)
Definition hintAgain (i : nat) : M unit :=
  word ← wordAt i;
  modify (fun s =>
    foldl (fun s e => emit e s) s (playHints (letterOf word) (mistakeCount s))).

(** The [try] block, run without interruption. *)
Definition checkMatchBody (cfg : Config) (course : Course) (typedLetter : string)
    (shuffled : list string) : M unit :=
  '(i, letter) ← expected;
  if bool_decide (letter = Some typedLetter) then
    gotCorrect cfg i letter;;
    next ← advance cfg course shuffled i;
    match next with
    | None => mret tt
    | Some (j, letter) => hintNext cfg j letter
    end
  else
    gotWrong letter;;
    retry cfg letter;;
    hintAgain i.

(** [checkMatch(typedLetter)], with [shuffled] the outcome of the
    shuffle in case a word has to be added.  The [catch] only logs; the
    [finally] reopens the gate. *)
Definition checkMatch (cfg : Config) (course : Course) (typedLetter : string)
    (shuffled : list string) (s : State) : State :=
  if negb (inputReady s) then s
  else
    set_inputReady true
      (stateOf (checkMatchBody cfg course typedLetter shuffled
                  (set_inputReady false s))).

(** *** Calls that overlap

    [checkMatch] is an [async] function: at an [await] on a timer it is
    suspended and other events run.  A suspended call is kept as the
    point at which it waits together with its local variables.  The
    awaits that are kept are those on a real delay: [playCorrect] and
    [playWrong] (only with speech assistance on, the gate still closed),
    and [playLetter] (the gate open again).  What follows the last
    delay of a call, its [finally] included, runs as one piece. *)

Inductive Task :=
| AtPlayCorrect (i : nat)                         (* await this.playCorrect() *)
| AtPlayWrong (i : nat) (letter : option string)  (* await this.playWrong() *)
| AtPlayLetter (j : nat) (letter : option string) (* correct path, await this.playLetter(letter) *)
| AtRetryHints (i : nat).                         (* wrong path, await this.playLetter(letter) *)

(** The call waits with the gate closed by itself: it is being
    evaluated. *)
Definition inEvaluation (t : Task) : bool :=
  match t with
  | AtPlayCorrect _ | AtPlayWrong _ _ => true
  | AtPlayLetter _ _ | AtRetryHints _ => false
  end.

(** Run one piece of the [try] block: an exception ends the call through
    [catch] and [finally]. *)
Definition piece {A} (c : M A) (k : A -> State -> State * option Task)
    (s : State) : State * option Task :=
  match c s with
  | Ok a s' => k a s'
  | Threw s' => (set_inputReady true s', None)
  end.

Definition suspend (t : Task) : State -> State * option Task :=
  fun s => (s, Some t).

Definition finish : State -> State * option Task :=
  fun s => (set_inputReady true s, None).

Definition afterPlayCorrect (cfg : Config) (course : Course)
    (shuffled : list string) (i : nat) : State -> State * option Task :=
  piece (advance cfg course shuffled i) (fun next =>
    match next with
    | None => finish
    | Some (j, letter) => suspend (AtPlayLetter j letter)
    end).

Definition afterPlayWrong (cfg : Config) (i : nat) (letter : option string)
    : State -> State * option Task :=
  piece (retry cfg letter) (fun _ => suspend (AtRetryHints i)).

(** A submission arrives. *)
Definition submit (speech : bool) (cfg : Config) (course : Course)
    (typedLetter : string) (shuffled : list string) (s : State)
    : State * option Task :=
  if negb (inputReady s) then (s, None)
  else
    piece expected (fun '(i, letter) =>
      if bool_decide (letter = Some typedLetter) then
        piece (gotCorrect cfg i letter) (fun _ =>
          if speech then suspend (AtPlayCorrect i)
          else afterPlayCorrect cfg course shuffled i)
      else
        piece (gotWrong letter) (fun _ =>
          if speech then suspend (AtPlayWrong i letter)
          else afterPlayWrong cfg i letter))
    (set_inputReady false s).

(** The delay a call waits on is over. *)
Definition resume (cfg : Config) (course : Course) (shuffled : list string)
    (t : Task) : State -> State * option Task :=
  match t with
  | AtPlayCorrect i => afterPlayCorrect cfg course shuffled i
  | AtPlayWrong i letter => afterPlayWrong cfg i letter
  | AtPlayLetter j letter => piece (hintNext cfg j letter) (fun _ => finish)
  | AtRetryHints i => piece (hintAgain i) (fun _ => finish)
  end.

Record Session := {
  store : State;
  calls : list Task          (* the suspended calls, oldest first *)
}.

Inductive Event :=
| Submit (typedLetter : string) (shuffled : list string)
| Resume (k : nat) (shuffled : list string)   (* the delay of call [k] is over *)
| Timer.                                      (* a checkAddLetters timer fires *)

Definition step (speech : bool) (cfg : Config) (course : Course)
    (e : Event) (x : Session) : Session :=
  match e with
  | Submit typedLetter shuffled =>
      let '(s, t) := submit speech cfg course typedLetter shuffled (store x) in
      {| store := s; calls := calls x ++ option_list t |}
  | Resume k shuffled =>
      match calls x !! k with
      | None => x
      | Some t =>
          let '(s, t') := resume cfg course shuffled t (store x) in
          {| store := s;
             calls := take k (calls x) ++ option_list t' ++ drop (S k) (calls x) |}
      end
  | Timer =>
      {| store := fireAddLetters cfg course (store x); calls := calls x |}
  end.

Definition run (speech : bool) (cfg : Config) (course : Course)
    (es : list Event) (x : Session) : Session :=
  foldl (fun x e => step speech cfg course e x) x es.

(** The number of calls being evaluated. *)
Definition evaluating (x : Session) : nat :=
  length (List.filter inEvaluation (calls x)).

(** A call run on its own: each of its delays ends before anything else
    happens.  A call waits at most twice. *)
Fixpoint alone (cfg : Config) (course : Course) (shuffled : list string)
    (delays : nat) (r : State * option Task) : State :=
  match r with
  | (s, None) => s
  | (s, Some t) =>
      match delays with
      | O => s
      | S n => alone cfg course shuffled n (resume cfg course shuffled t s)
      end
  end.

(** *** Turns one after the other

    When no call overlaps another, the events are whole turns and
    timers. *)
Inductive Turn :=
| Typed (typedLetter : string) (shuffled : list string)
| GrowTimer.

Definition turn (cfg : Config) (course : Course) (t : Turn) (s : State) : State :=
  match t with
  | Typed typedLetter shuffled => checkMatch cfg course typedLetter shuffled s
  | GrowTimer => fireAddLetters cfg course s
  end.

Definition turns (cfg : Config) (course : Course) (ts : list Turn) (s : State)
    : State :=
  foldl (fun s t => turn cfg course t s) s ts.

End GameSpace.

(** ** The two progress percentages

    Both functions divide two numbers and take [Math.floor] of the
    quotient; on integer scores that is [Z.div], which rounds down. *)

Module Progress.

(** [Object.keys(progress || {})] and [Object.values(progress || {})]
    enumerate the entries in one and the same order. *)
Definition entries (progress : option (gmap string Js.num))
    : list (string * Js.num) :=
  map_to_list (default ∅ progress).

(** [.reduce((accumulator, currentValue) =>
      accumulator + (Number(currentValue) || 0), 0)]. *)
Definition reduceScores (values : list Js.num) : Z :=
  foldl (fun accumulator currentValue =>
           accumulator + Js.numberOr0 currentValue) 0 values.

(** The client side, defined next to the title state.  [None] for
    [learnedThreshold] is the argument left out, whose default is 2. *)
Definition calculateCourseProgressPercent
    (progress : option (gmap string Js.num)) (learnedThreshold : option Z) : Z :=
  let learnedThreshold := default 2 learnedThreshold in
  let letters := (entries progress).*1 in
  if bool_decide (length letters = 0%nat) then 0
  else
    let totalScore := reduceScores (entries progress).*2 in
    let maxScore := Z.of_nat (length letters) * learnedThreshold in
    if maxScore =? 0 then 0
    else
      let normalizedPercent := Z.max 0 totalScore * 100 / maxScore in
      Z.min 100 normalizedPercent.

(** The server side ([server.js]). *)
Definition calculateProgressPercent (progress : option (gmap string Js.num)) : Z :=
  let howManyCorrectAnswersToLearn := 2 in
  let noOfLettersInTheAlphabet := length (entries progress).*1 in
  if bool_decide (noOfLettersInTheAlphabet = 0%nat) then 0
  else
    let totalLetterAnswersCorrect := reduceScores (entries progress).*2 in
    let hundredPercent :=
      Z.of_nat noOfLettersInTheAlphabet * howManyCorrectAnswersToLearn in
    let rawPercent := Z.max 0 totalLetterAnswersCorrect * 100 / hundredPercent in
    Z.min 100 rawPercent.

(** The percentage as the specification words it: 0 for an empty map,
    otherwise min(100, floor(max(0, sum of scores) * 100 /
    (number of letters * 2))). *)
Definition sumOfScores (m : gmap string Js.num) : Z :=
  map_fold (fun _ v acc => match v with Js.Num z => z + acc | Js.NaN => acc end) 0 m.

Definition specifiedPercent (m : gmap string Js.num) : Z :=
  if bool_decide (m = ∅) then 0
  else Z.min 100 (Z.max 0 (sumOfScores m) * 100 / (Z.of_nat (size m) * 2)).

(** The maps on which the integers above are the arithmetic of the
    source: at most 2^20 entries, each an integer of absolute value at
    most 2^20 = 1048576 or not a number at all.  The sum of such scores
    and its hundredfold are integers below 2^53, which doubles add and
    multiply without rounding, and the floor of a quotient of two such
    integers is the floor of the rounded quotient. *)
Definition smallScore (v : Js.num) : bool :=
  match v with
  | Js.Num z => (- 2 ^ 20 <=? z) && (z <=? 2 ^ 20)
  | Js.NaN => true
  end.

Definition exactScores (m : gmap string Js.num) : Prop :=
  Z.of_nat (size m) <= 2 ^ 20 /\ map_Forall (fun _ v => smallScore v = true) m.

End Progress.

(** ** The two progress percentages on doubles

    The same two functions once more, on the numbers of JavaScript
    (IEEE 754 binary64, the kernel's [float]).  [values] is
    [Object.values(progress || {})] with [Number] applied to each
    value. *)

Module Double.

(** [x !== x]. *)
Definition isNaN (x : float) : bool := negb (PrimFloat.eqb x x).

(** [x || 0] on a number: [0], [-0] and [NaN] are falsy. *)
Definition numberOr0 (x : float) : float :=
  if PrimFloat.eqb x 0%float || isNaN x then 0%float else x.

(** [Math.max(0, x)]. *)
Definition max0 (x : float) : float :=
  if isNaN x then x else if PrimFloat.ltb 0%float x then x else 0%float.

(** [Math.min(100, y)]. *)
Definition min100 (y : float) : float :=
  if isNaN y then y else if PrimFloat.ltb 100%float y then 100%float else y.

(** [Math.floor(x)].  From 2^52 on a double is an integer; below, adding
    and taking away 2^52 rounds to an integer, which is the floor or the
    integer above it. *)
Definition two52 : float := 4503599627370496%float.

Definition floor (x : float) : float :=
  if isNaN x then x
  else if PrimFloat.leb two52 (PrimFloat.abs x) then x
  else if PrimFloat.eqb x 0%float then x
  else
    let r :=
      if PrimFloat.ltb 0%float x
      then PrimFloat.sub (PrimFloat.add x two52) two52
      else PrimFloat.add (PrimFloat.sub x two52) two52 in
    if PrimFloat.ltb x r then PrimFloat.sub r 1%float else r.

(** A length as a number. *)
Definition ofNat (n : nat) : float :=
  PrimFloat.of_uint63 (Uint63.of_Z (Z.of_nat n)).

Definition reduceScores (values : list float) : float :=
  foldl (fun accumulator currentValue =>
           PrimFloat.add accumulator (numberOr0 currentValue)) 0%float values.

Definition calculateCourseProgressPercent (values : list float)
    (learnedThreshold : option float) : float :=
  let learnedThreshold := default 2%float learnedThreshold in
  let letters := length values in
  if bool_decide (letters = 0%nat) then 0%float
  else
    let totalScore := reduceScores values in
    let maxScore := PrimFloat.mul (ofNat letters) learnedThreshold in
    if PrimFloat.eqb maxScore 0%float || isNaN maxScore then 0%float
    else
      let normalizedPercent :=
        PrimFloat.div (PrimFloat.mul (max0 totalScore) 100%float) maxScore in
      min100 (floor normalizedPercent).

Definition calculateProgressPercent (values : list float) : float :=
  let howManyCorrectAnswersToLearn := 2%float in
  let noOfLettersInTheAlphabet := length values in
  if bool_decide (noOfLettersInTheAlphabet = 0%nat) then 0%float
  else
    let totalLetterAnswersCorrect := reduceScores values in
    let hundredPercent :=
      PrimFloat.mul (ofNat noOfLettersInTheAlphabet) howManyCorrectAnswersToLearn in
    let rawPercent :=
      PrimFloat.div (PrimFloat.mul (max0 totalLetterAnswersCorrect) 100%float)
                    hundredPercent in
    min100 (floor rawPercent).

End Double.

(** ** The speed practice state *)

Module PracticeState.

Definition PRACTICE_PHRASES : list string :=
  [ "read the code"; "send a signal"; "learn morse fast";
    "practice every day"; "tap and listen"; "count to ten";
    "keep it simple"; "short clear message"; "hear dots and dashes";
    "train with focus"; "write what you hear"; "steady typing pace";
    "copy this phrase"; "say it and send"; "use the morse board" ].

Definition between (lo hi : nat) (c : ascii) : bool :=
  (lo <=? nat_of_ascii c)%nat && (nat_of_ascii c <=? hi)%nat.

(** [toLowerCase] on one character of a phrase ([A] is 65, [a] is 97). *)
Definition toLowerCase (c : ascii) : ascii :=
  if between 65 90 c then ascii_of_nat (nat_of_ascii c + 32) else c.

(** The class [[a-z0-9]]. *)
Definition isLetterOrDigit (c : ascii) : bool :=
  between 97 122 c || between 48 57 c.

(** [(phrase.toLowerCase().match(/[a-z0-9]/g) || []).join('')], as the
    list of its characters. *)
Definition normalizePhrase (phrase : string) : list ascii :=
  List.filter isLetterOrDigit (toLowerCase <$> String.list_ascii_of_string phrase).

(** What the state shows and plays, in call order; [RenderPhrase] keeps
    the three fields that [renderPhrase()] reads. *)
Inductive Effect :=
| FlagError (expected : ascii)
| PlaySound (name : string)
| RenderPhrase (phraseIndex charIndex : nat) (errors : Z)
| PhraseComplete
| SessionComplete (errors : Z).

Record State := {
  sessionPhrases : list string;
  currentPhraseIndex : nat;
  currentCharIndex : nat;
  totalErrors : Z;
  sessionComplete : bool;
  have_audio : bool;               (* this.game.have_audio *)
  effects : list Effect            (* oldest first *)
}.

Definition getCurrentPhrase (s : State) : option string :=
  sessionPhrases s !! currentPhraseIndex s.

(** [normalizePhrase(this.getCurrentPhrase() || '')]. *)
Definition getCurrentTarget (s : State) : list ascii :=
  normalizePhrase (default "" (getCurrentPhrase s)).

Definition emit (e : Effect) (s : State) : State :=
  {| sessionPhrases := sessionPhrases s;
     currentPhraseIndex := currentPhraseIndex s;
     currentCharIndex := currentCharIndex s;
     totalErrors := totalErrors s;
     sessionComplete := sessionComplete s;
     have_audio := have_audio s;
     effects := effects s ++ [e] |}.

Definition renderPhrase (s : State) : State :=
  emit (RenderPhrase (currentPhraseIndex s) (currentCharIndex s) (totalErrors s)) s.

Definition finishSession (s : State) : State :=
  emit (SessionComplete (totalErrors s))
    {| sessionPhrases := sessionPhrases s;
       currentPhraseIndex := currentPhraseIndex s;
       currentCharIndex := currentCharIndex s;
       totalErrors := totalErrors s;
       sessionComplete := true;
       have_audio := have_audio s;
       effects := effects s |}.

Definition advancePhrase (s : State) : State :=
  let s :=
    {| sessionPhrases := sessionPhrases s;
       currentPhraseIndex := S (currentPhraseIndex s);
       currentCharIndex := 0;
       totalErrors := totalErrors s;
       sessionComplete := sessionComplete s;
       have_audio := have_audio s;
       effects := effects s |} in
  if (length (sessionPhrases s) <=? currentPhraseIndex s)%nat
  then finishSession s
  else emit PhraseComplete s.

(** The middle of [handleInput]: the verdict on the letter, with its
    sound. *)
Definition judge (letter : string) (expected : ascii) (s : State) : State :=
  let correct := bool_decide (letter = String expected EmptyString) in
  if negb correct then
    let s :=
      {| sessionPhrases := sessionPhrases s;
         currentPhraseIndex := currentPhraseIndex s;
         currentCharIndex := currentCharIndex s;
         totalErrors := totalErrors s + 1;
         sessionComplete := sessionComplete s;
         have_audio := have_audio s;
         effects := effects s |} in
    let s := emit (FlagError expected) s in
    if have_audio s then emit (PlaySound "wrong") s else s
  else if have_audio s then emit (PlaySound "correct") s
  else s.

(** [this.currentCharIndex += 1; this.renderPhrase()]. *)
Definition moveOn (s : State) : State :=
  renderPhrase
    {| sessionPhrases := sessionPhrases s;
       currentPhraseIndex := currentPhraseIndex s;
       currentCharIndex := S (currentCharIndex s);
       totalErrors := totalErrors s;
       sessionComplete := sessionComplete s;
       have_audio := have_audio s;
       effects := effects s |}.

Definition handleInput (letter : string) (s : State) : State :=
  if sessionComplete s then s
  else
    let target := getCurrentTarget s in
    if bool_decide (target = []) then s
    else
      match target !! currentCharIndex s with
      | None => s                         (* currentCharIndex >= target.length *)
      | Some expected =>
          let s := judge letter expected s in
          let s := moveOn s in
          if (length target <=? currentCharIndex s)%nat
          then advancePhrase s
          else s
      end.

(** An input gets past the three guards of [handleInput]. *)
Definition accepted (s : State) : Prop :=
  sessionComplete s = false /\
  (currentCharIndex s < length (getCurrentTarget s))%nat.

End PracticeState.

(** ** The course metrics of the title state

    [buildCourseMetric], defined next to [calculateCourseProgressPercent]
    and used by [sendProgress]. *)

Module Metrics.
Import Progress.

(** [buildCourseMetric(progress, learnedThreshold = 2)]. *)
Record CourseMetric := {
  progress_percent : Z;
  completed : bool;
  item_count : nat
}.

Definition buildCourseMetric (progress : option (gmap string Js.num))
    (learnedThreshold : option Z) : CourseMetric :=
  let progressPercent := calculateCourseProgressPercent progress learnedThreshold in
  {| progress_percent := progressPercent;
     completed := 100 <=? progressPercent;
     item_count := length (entries progress).*1 |}.

End Metrics.

(** ** The API service

    The parts of [src/api-service/server.js] that are functions of their
    arguments: the password check of the export routes, the
    normalization of the course metrics of a payload, the snapshots kept
    per user, the pages of the export and a text field of its CSV form.
    A number of a payload is a rational, or not a finite number (this
    covers a missing key, [null], a string, [NaN] and the infinities,
    which [Number.isFinite] all refuses). *)

Module Server.
Import Progress.

(** *** requireDataExportPassword *)

(** A value of [req.query]: missing, a string, or the array or object
    that the query parser builds for [password[]=..] and the like. *)
Inductive QueryValue :=
| QMissing
| QString (s : string)
| QNested.

Inductive Verdict :=
| NotConfigured        (* status 500 *)
| Denied               (* status 401 *)
| Next.                (* next() *)

(** [a || b] on the two places a password is read from: the empty string
    is falsy, an array or object is not. *)
Definition providedPassword (query : QueryValue) (header : option string)
    : QueryValue :=
  match query with
  | QMissing | QString "" =>
      match header with
      | Some h => QString h
      | None => QMissing
      end
  | _ => query
  end.

Definition requireDataExportPassword (requiredPassword : option string)
    (query : QueryValue) (header : option string) : Verdict :=
  match requiredPassword with
  | None | Some "" => NotConfigured
  | Some required =>
      match providedPassword query header with
      | QMissing | QString "" => Denied
      | QNested => Denied                       (* an object is never [===] a string *)
      | QString provided =>
          if bool_decide (provided = required) then Next else Denied
      end
  end.

(** *** Normalizing the metrics of a payload *)

(** A field as [Number.isFinite] sees it: a finite number, or anything
    else (missing, [null], a string, [NaN], an infinity). *)
Inductive Field :=
| Finite (q : Q)
| NotFinite.

(** [Math.min(100, Math.max(0, Math.floor(x)))]. *)
Definition clampPercent (x : Q) : Z := Z.min 100 (Z.max 0 (Qfloor x)).

(** A metric object of the payload, as far as it is read; [None] is a
    value that is falsy. *)
Record Metric := { progress_percent : Field }.

Record CourseMetrics := {
  alphabet : option Metric;
  numbers : option Metric;
  keyboard : option Metric
}.

(** [progress_percent] is a number or [null]. *)
Record Normalized := {
  percent : option Z;
  completed : bool
}.

Definition normalizeSingleCourseMetric (metric : option Metric) : Normalized :=
  match metric with
  | Some {| progress_percent := Finite x |} =>
      let progressPercent := clampPercent x in
      {| percent := Some progressPercent; completed := 100 <=? progressPercent |}
  | _ => {| percent := None; completed := false |}
  end.

Record NormalizedCourseMetrics := {
  n_alphabet : Normalized;
  n_numbers : Normalized;
  n_keyboard : Normalized
}.

Definition normalizeCourseMetrics (courseMetrics : option CourseMetrics)
    (alphabetProgressDump : option (gmap string Js.num)) : NormalizedCourseMetrics :=
  let alphabetFromPayload := courseMetrics ≫= alphabet in
  let alphabetProgress :=
    match alphabetFromPayload with
    | Some {| progress_percent := Finite x |} => clampPercent x
    | _ => calculateProgressPercent alphabetProgressDump
    end in
  {| n_alphabet := {| percent := Some alphabetProgress;
                      completed := 100 <=? alphabetProgress |};
     n_numbers := normalizeSingleCourseMetric (courseMetrics ≫= numbers);
     n_keyboard := normalizeSingleCourseMetric (courseMetrics ≫= keyboard) |}.

Definition getNumericProgress (metric : option Metric) : option Z :=
  match metric with
  | Some {| progress_percent := Finite x |} => Some (clampPercent x)
  | _ => None
  end.

(** *** dedupeLatestSnapshots *)

Record Snapshot := {
  user_identifier : string;
  row_progress_percent : Js.num;          (* a number, [NaN] standing for [null] *)
  progress_detail : option string
}.

(** The loop, with [seenUsers] as it stands. *)
Fixpoint dedupeFrom (seenUsers : gset string) (rows : list Snapshot)
    : list Snapshot :=
  match rows with
  | [] => []
  | row :: rows =>
      if bool_decide (user_identifier row ∈ seenUsers) then dedupeFrom seenUsers rows
      else row :: dedupeFrom ({[user_identifier row]} ∪ seenUsers) rows
  end.

Definition dedupeLatestSnapshots (rows : list Snapshot) : list Snapshot :=
  dedupeFrom ∅ rows.

(** *** The paginated export

    The table is the list of its rows in the order of the query
    ([ORDER BY date_created DESC]); [LIMIT ? OFFSET ?] with a negative
    number is an error of the database, which the handler answers with
    status 500. *)

Definition select {A} (table : list A) (limit offset : Z) : option (list A) :=
  if (limit <? 0) || (offset <? 0) then None
  else Some (take (Z.to_nat limit) (drop (Z.to_nat offset) table)).

(** [parseInt(v) || dflt], on the outcome of [parseInt]. *)
Definition orDefault (v : Js.num) (dflt : Z) : Z :=
  match v with
  | Js.Num z => if z =? 0 then dflt else z
  | Js.NaN => dflt
  end.

Record Pagination := {
  current_page : Z;
  total_pages : Z;
  has_next : bool;
  has_previous : bool;
  next_page : option Z;
  previous_page : option Z
}.

Inductive Response (A : Type) :=
| BadRequest                      (* status 400 *)
| ServerError                     (* status 500 *)
| Page (total_records : nat) (pagination : Pagination) (data : list A).
Arguments BadRequest {A}.
Arguments ServerError {A}.
Arguments Page {A} total_records pagination data.

(** [Math.ceil(a / b)] for a count [a] and [b] other than 0. *)
Definition ceilDiv (a b : Z) : Z := - ((- a) / b).

(** The handler of [GET /data-dump], past the password check; [pageParam]
    and [limitParam] are [parseInt(req.query.page)] and
    [parseInt(req.query.limit)]. *)
Definition dataDump {A} (table : list A) (pageParam limitParam : Js.num)
    : Response A :=
  let page := orDefault pageParam 1 in
  let limit := orDefault limitParam 1000 in
  let offset := (page - 1) * limit in
  if 10000 <? limit then BadRequest
  else
    let totalRecords := length table in
    let totalPages := ceilDiv (Z.of_nat totalRecords) limit in
    match select table limit offset with
    | None => ServerError
    | Some rows =>
        Page totalRecords
          {| current_page := page;
             total_pages := totalPages;
             has_next := page <? totalPages;
             has_previous := 1 <? page;
             next_page := if page <? totalPages then Some (page + 1) else None;
             previous_page := if 1 <? page then Some (page - 1) else None |}
          rows
    end.

(** *** A field of the CSV export

    A text column is written between double quotes, every double quote
    of the value being replaced by two (the [replace] with the [g] flag
    in the row template of [GET /data-dump/csv]). *)

Definition quote : ascii := ascii_of_nat 34.

Definition doubleQuotes (s : list ascii) : list ascii :=
  s ≫= fun c => if bool_decide (c = quote) then [quote; quote] else [c].

Definition csvField (s : list ascii) : list ascii :=
  [quote] ++ doubleQuotes s ++ [quote].

End Server.

(** ** The Morse board

    The board keeps the sequence being typed in the value of its output
    field and hands a committed sequence, with the letter the dictionary
    gives for it, to [config.onCommit].  The model keeps the settings that
    the handlers read, the value of the output field, the three timer
    handles, the state of the one-switch key, the timers that are
    pending, and the calls of [onCommit].  The dictionary
    is the one of [morse-dictionary.js], a parameter here.  Sounds, colours and the progress bar change none of this.
    Timers are numbered from 1, so that a handle that is set is truthy. *)

Module MorseBoard.

Record Config := {
  autoCommit : bool;
  debounce : Z;
  dashKeyMap : list Z;
  dotKeyMap : list Z;
  commitKeyMap : list Z;
  deleteKeyMap : list Z;
  notification : bool;
  notificationStyle : string;
  oneSwitchMode : bool;
  oneSwitchKeyMap : list Z;
  oneSwitchTimeout : Z
}.

(** The options handed to the constructor: a key that is not given is
    [None]. *)
Record Options := {
  o_autoCommit : option bool;
  o_debounce : option Z;
  o_dashKeyMap : option (list Z);
  o_dotKeyMap : option (list Z);
  o_commitKeyMap : option (list Z);
  o_deleteKeyMap : option (list Z);
  o_notification : option bool;
  o_notificationStyle : option string;
  o_oneSwitchMode : option bool;
  o_oneSwitchKeyMap : option (list Z);
  o_oneSwitchTimeout : option Z
}.

Definition mergeSettings (options : Options) : Config :=
  {| autoCommit := default true (o_autoCommit options);
     debounce := default 1000 (o_debounce options);
     dashKeyMap := default [189; 173; 75; 13] (o_dashKeyMap options);
     dotKeyMap := default [190; 74] (o_dotKeyMap options);
     commitKeyMap := default [32] (o_commitKeyMap options);
     deleteKeyMap := default [8; 46; 73] (o_deleteKeyMap options);
     notification := default true (o_notification options);
     notificationStyle := default "overlay" (o_notificationStyle options);
     oneSwitchMode := default false (o_oneSwitchMode options);
     oneSwitchKeyMap := default [88] (o_oneSwitchKeyMap options);
     oneSwitchTimeout := default 500 (o_oneSwitchTimeout options) |}.

(** The options that [GameSpace.create] passes, [oneSwitchMode] being the
    preference read from [localStorage]. *)
Definition gameOptions (oneSwitchMode : bool) : Options :=
  {| o_autoCommit := None;
     o_debounce := Some 2000;
     o_dashKeyMap := None;
     o_dotKeyMap := None;
     o_commitKeyMap := None;
     o_deleteKeyMap := None;
     o_notification := None;
     o_notificationStyle := Some "output";
     o_oneSwitchMode := Some oneSwitchMode;
     o_oneSwitchKeyMap := Some [88];
     o_oneSwitchTimeout := Some 500 |}.

(** [e.detail] of a commit event. *)
Record Detail := {
  symbol : string;
  letter : option string
}.

Inductive Timer :=
| Debounce                      (* set by debounce() *)
| ShowNotification (text : string)
                                (* set by showNotification: show the letter or the mark *)
| HideNotification.             (* set when the notification is shown: empty the output *)

#[global] Instance Timer_eq_dec : EqDecision Timer.
Proof. solve_decision. Defined.

Record State := {
  config : Config;
  output : string;                        (* this.output.value *)
  timeout : option nat;                   (* this.timeout *)
  outputStyleTimeout : option nat;
  outputStyleHideTimeout : option nat;
  oneSwitchKeyPressed : bool;
  switchPressStartTime : Z;
  pending : list (nat * Timer);           (* timers set, not fired, not cleared *)
  nextTimer : nat;
  commits : list Detail                   (* calls of config.onCommit, oldest first *)
}.

(** The board as [create] leaves it, [options] being the options after
    the constructor has written the saved one-switch preference into
    them. *)
Definition create (options : Options) : State :=
  {| config := mergeSettings options;
     output := "";
     timeout := None;
     outputStyleTimeout := None;
     outputStyleHideTimeout := None;
     oneSwitchKeyPressed := false;
     switchPressStartTime := 0;
     pending := [];
     nextTimer := 1;
     commits := [] |}.

Definition set_output (v : string) (s : State) : State :=
  {| config := config s; output := v; timeout := timeout s;
     outputStyleTimeout := outputStyleTimeout s;
     outputStyleHideTimeout := outputStyleHideTimeout s;
     oneSwitchKeyPressed := oneSwitchKeyPressed s;
     switchPressStartTime := switchPressStartTime s;
     pending := pending s; nextTimer := nextTimer s; commits := commits s |}.

Definition set_pending (v : list (nat * Timer)) (s : State) : State :=
  {| config := config s; output := output s; timeout := timeout s;
     outputStyleTimeout := outputStyleTimeout s;
     outputStyleHideTimeout := outputStyleHideTimeout s;
     oneSwitchKeyPressed := oneSwitchKeyPressed s;
     switchPressStartTime := switchPressStartTime s;
     pending := v; nextTimer := nextTimer s; commits := commits s |}.

Definition set_handles (t st sh : option nat) (s : State) : State :=
  {| config := config s; output := output s; timeout := t;
     outputStyleTimeout := st;
     outputStyleHideTimeout := sh;
     oneSwitchKeyPressed := oneSwitchKeyPressed s;
     switchPressStartTime := switchPressStartTime s;
     pending := pending s; nextTimer := nextTimer s; commits := commits s |}.

Definition set_switch (pressed : bool) (start : Z) (s : State) : State :=
  {| config := config s; output := output s; timeout := timeout s;
     outputStyleTimeout := outputStyleTimeout s;
     outputStyleHideTimeout := outputStyleHideTimeout s;
     oneSwitchKeyPressed := pressed;
     switchPressStartTime := start;
     pending := pending s; nextTimer := nextTimer s; commits := commits s |}.

(** [setTimeout]: the new timer is pending and its number is returned. *)
Definition setTimeout (t : Timer) (s : State) : nat * State :=
  (nextTimer s,
   {| config := config s; output := output s; timeout := timeout s;
      outputStyleTimeout := outputStyleTimeout s;
      outputStyleHideTimeout := outputStyleHideTimeout s;
      oneSwitchKeyPressed := oneSwitchKeyPressed s;
      switchPressStartTime := switchPressStartTime s;
      pending := pending s ++ [(nextTimer s, t)];
      nextTimer := S (nextTimer s); commits := commits s |}).

(** [clearTimeout(handle)]: nothing happens for [undefined], [null] or a
    timer that is not pending. *)
Definition clearTimeout (handle : option nat) (s : State) : State :=
  match handle with
  | None => s
  | Some id => set_pending (filter (fun t => t.1 <> id) (pending s)) s
  end.

(** The mark shown for a sequence that the dictionary does not know, as
    the text of the source has it. *)
Definition wrongMark : string := "âˆ…".

Section Board.
Variable morseDictionary : gmap string string.

(** [showNotification(letter, wrong)]: with the style ["output"] a timer
    is set that will show the text; the overlay of the other styles is
    not part of the model. *)
Definition showNotification (text : string) (s : State) : State :=
  if bool_decide (notificationStyle (config s) = "output") then
    let '(id, s) := setTimeout (ShowNotification text) s in
    set_handles (timeout s) (Some id) (outputStyleHideTimeout s) s
  else s.

(** [commit(e)], the listener of the commit event. *)
Definition commit (detail : Detail) (s : State) : State :=
  let s :=
    if notification (config s) then
      match letter detail with
      | Some l => if bool_decide (l = "") then showNotification wrongMark s
                  else showNotification l s
      | None => showNotification wrongMark s
      end
    else s in
  let s := set_output "" s in
  {| config := config s; output := output s; timeout := timeout s;
     outputStyleTimeout := outputStyleTimeout s;
     outputStyleHideTimeout := outputStyleHideTimeout s;
     oneSwitchKeyPressed := oneSwitchKeyPressed s;
     switchPressStartTime := switchPressStartTime s;
     pending := pending s; nextTimer := nextTimer s;
     commits := commits s ++ [detail] |}.

(** What [commitCurrentSequence] and the debounce timer have in common:
    the value of the output, if there is one, is dispatched. *)
Definition dispatchOutput (s : State) : State :=
  if bool_decide (output s = "") then s
  else
    let eventDetail :=
      {| symbol := output s; letter := morseDictionary !! output s |} in
    if autoCommit (config s) then commit eventDetail s else s.

Definition commitCurrentSequence (s : State) : State :=
  dispatchOutput (clearTimeout (timeout s) s).

(** [value.slice(0, -1)]. *)
Definition dropLast (v : string) : string :=
  String.substring 0 (String.length v - 1) v.

Definition deleteLastSymbol (s : State) : State :=
  if bool_decide (output s = "") then s
  else set_output (dropLast (output s)) s.

(** [debounce()]. *)
Definition startDebounce (s : State) : State :=
  let s := clearTimeout (timeout s) s in
  let '(id, s) := setTimeout Debounce s in
  set_handles (Some id) (outputStyleTimeout s) (outputStyleHideTimeout s) s.

Inductive Button := Dot | Dash.

Definition symbolOf (b : Button) : string :=
  match b with
  | Dot => "."
  | Dash => "-"
  end.

(** [onClick(e)]; the target of the click is one of the two buttons, or
    ([None]) an element inside one of them, whose [id] is neither. *)
Definition onClick (target : option Button) (s : State) : State :=
  let s :=
    if bool_decide (notificationStyle (config s) = "output") then
      match outputStyleTimeout s with
      | Some _ =>
          let s := clearTimeout (outputStyleTimeout s) s in
          let s := clearTimeout (outputStyleHideTimeout s) s in
          let s := set_handles (timeout s) None None s in
          set_output "" s
      | None => s
      end
    else s in
  let s :=
    match target with
    | Some b => set_output (output s +:+ symbolOf b) s
    | None => s
    end in
  startDebounce s.

(** [keyMap.indexOf(code) > -1]. *)
Definition mapped (keyMap : list Z) (code : Z) : bool :=
  bool_decide (code ∈ keyMap).

(** [onKeydown(e)]: [editable] says that the target is an input, a
    textarea or editable content; [now] is [Date.now()]. *)
Definition onKeydown (code : Z) (editable : bool) (now : Z) (s : State) : State :=
  if editable then s
  else if oneSwitchMode (config s) && mapped (oneSwitchKeyMap (config s)) code then
    if oneSwitchKeyPressed s then s else set_switch true now s
  else if mapped (dotKeyMap (config s)) code then onClick (Some Dot) s
  else if mapped (dashKeyMap (config s)) code then onClick (Some Dash) s
  else if mapped (commitKeyMap (config s)) code then commitCurrentSequence s
  else if mapped (deleteKeyMap (config s)) code then deleteLastSymbol s
  else s.

(** [onKeyup(e)]. *)
Definition onKeyup (code : Z) (now : Z) (s : State) : State :=
  if oneSwitchMode (config s) && mapped (oneSwitchKeyMap (config s)) code then
    if oneSwitchKeyPressed s then
      let pressDuration := now - switchPressStartTime s in
      let s :=
        if pressDuration <? oneSwitchTimeout (config s)
        then onClick (Some Dot) s else onClick (Some Dash) s in
      set_switch false (switchPressStartTime s) s
    else s
  else s.

(** A pending timer fires. *)
Definition fire (id : nat) (s : State) : State :=
  match list_find (fun t => t.1 = id) (pending s) with
  | None => s
  | Some (_, (_, t)) =>
      let s := set_pending (filter (fun t => t.1 <> id) (pending s)) s in
      match t with
      | Debounce =>
          let s := dispatchOutput s in
          clearTimeout (timeout s) s
      | ShowNotification text =>
          let s := set_output text s in
          let '(hide, s) := setTimeout HideNotification s in
          set_handles (timeout s) (outputStyleTimeout s) (Some hide) s
      | HideNotification => set_output "" s
      end
  end.

(** [toggleOneSwitchMode(enable)]: the key-up listener is there exactly
    when the mode is on, as it is after [create]. *)
Definition toggleOneSwitchMode (enable : bool) (s : State) : State :=
  {| config :=
       {| autoCommit := autoCommit (config s);
          debounce := debounce (config s);
          dashKeyMap := dashKeyMap (config s);
          dotKeyMap := dotKeyMap (config s);
          commitKeyMap := commitKeyMap (config s);
          deleteKeyMap := deleteKeyMap (config s);
          notification := notification (config s);
          notificationStyle := notificationStyle (config s);
          oneSwitchMode := enable;
          oneSwitchKeyMap := oneSwitchKeyMap (config s);
          oneSwitchTimeout := oneSwitchTimeout (config s) |};
     output := output s; timeout := timeout s;
     outputStyleTimeout := outputStyleTimeout s;
     outputStyleHideTimeout := outputStyleHideTimeout s;
     oneSwitchKeyPressed := oneSwitchKeyPressed s;
     switchPressStartTime := switchPressStartTime s;
     pending := pending s; nextTimer := nextTimer s; commits := commits s |}.

Inductive Event :=
| Click (target : option Button)
| KeyDown (code : Z) (editable : bool) (now : Z)
| KeyUp (code : Z) (now : Z)
| Fire (id : nat)
| Toggle (enable : bool).

Definition step (e : Event) (s : State) : State :=
  match e with
  | Click target => onClick target s
  | KeyDown code editable now => onKeydown code editable now s
  | KeyUp code now => onKeyup code now s
  | Fire id => fire id s
  | Toggle enable => toggleOneSwitchMode enable s
  end.

Definition run (es : list Event) (s : State) : State :=
  foldl (fun s e => step e s) s es.

End Board.

End MorseBoard.

(** ** The settings drawn at random

    The consent dialog of the title state can draw the three settings at
    random; the three arguments are the three calls of [randomBoolean],
    in the order of the source. *)

Module TitleState.

Record Settings := {
  audio : bool;
  speechAssistive : bool;
  visualCues : bool
}.

Definition randomiseSettings (audio speechAssistive visualCues : bool) : Settings :=
  let speechAssistive := if bool_decide (audio = false) then false else speechAssistive in
  let audio :=
    if bool_decide (audio = false) && bool_decide (speechAssistive = false)
       && bool_decide (visualCues = false)
    then true else audio in
  {| audio := audio; speechAssistive := speechAssistive; visualCues := visualCues |}.

End TitleState.

(** * The vocabulary of the properties *)

Section Vocabulary.
Import GameSpace.

(** The condition of growth: the last letter of the intersection of the
    pool with the course letters has a score of at least the threshold,
    and the streak has reached [CONSECUTIVE_CORRECT]. *)
Definition growthDue (cfg : Config) (course : Course) (s : State) : Prop :=
  (exists l z,
      last (intersection (currentLettersInPlay s) (lettersToLearn course)) = Some l /\
      letterScoreDict s !! l = Some (Js.Num z) /\
      LEARNED_THRESHOLD cfg <= z) /\
  CONSECUTIVE_CORRECT cfg <= consecutiveCorrect s.

(** Every letter of [pool] is still in [pool'], which has at most one
    letter more: the least that "extended by exactly one symbol, or left
    as it is by the clamp" asks for. *)
Definition extendsPool (pool pool' : list string) : Prop :=
  (forall l, l ∈ pool -> l ∈ pool') /\
  (exists x, forall l, l ∈ pool' -> l ∈ pool \/ l = x).

(** The keys of the dictionary are the course letters, each once: the
    state in which the title state sets the dictionary up. *)
Definition keysAreCourse (course : Course) (d : gmap string Js.num) : Prop :=
  NoDup (lettersToLearn course) /\
  forall l, l ∈ lettersToLearn course <-> is_Some (d !! l).

(** The score lies within [-(T + 2)] and [T + 2]. *)
Definition bounded (cfg : Config) (v : option Js.num) : Prop :=
  Js.within (- (LEARNED_THRESHOLD cfg + 2)) (LEARNED_THRESHOLD cfg + 2) v.

(** A call that has taken one off a score and has not clamped it yet:
    it waits for the wrong-sound. *)
Definition awaitsClamp (k : string) (t : Task) : bool :=
  match t with
  | AtPlayWrong _ letter => bool_decide (propKey letter = k)
  | _ => false
  end.

Definition pendingClamps (k : string) (cs : list Task) : nat :=
  length (List.filter (awaitsClamp k) cs).

(** The score is at most [T + 2], and below [-(T + 2)] by no more than
    [p]. *)
Definition boundedUpTo (cfg : Config) (p : nat) (v : option Js.num) : Prop :=
  Js.within (- (LEARNED_THRESHOLD cfg + 2) - Z.of_nat p) (LEARNED_THRESHOLD cfg + 2) v.

(** Every state is related to the state the computation leaves, whether
    it returns or throws. *)
Definition respects {A} (R : relation State) (c : M A) : Prop :=
  forall s, R s (stateOf (c s)).

(** The scores are left as they are. *)
Definition sameScores : relation State :=
  fun s s' => letterScoreDict s' = letterScoreDict s.

(** Calls are added to the log, all of them of one kind. *)
Definition logGrows (P : Effect -> Prop) : relation State :=
  fun s s' => exists rest, effects s' = effects s ++ rest /\ Forall P rest.

(** An audio cue of [playHints]. *)
Definition isCue (e : Effect) : Prop :=
  match e with
  | PlayMorse _ | PlayLetterSoundAlike _ => True
  | _ => False
  end.

(** The tiers as the specification names them, and [next]: the tier is
    the mistake count modulo 4. *)
Inductive HintTier := Full | NoHint | MorseOnly | MnemonicOnly.

Definition next (mistakeCount : Z) : HintTier :=
  if bool_decide (mistakeCount mod 4 = 0) then Full
  else if bool_decide (mistakeCount mod 4 = 1) then NoHint
  else if bool_decide (mistakeCount mod 4 = 2) then MorseOnly
  else MnemonicOnly.

(** What is played in a tier: the Morse replay, the mnemonic audio. *)
Definition cues (tier : HintTier) (letter : option string) : list Effect :=
  match tier with
  | Full => [PlayMorse letter; PlayLetterSoundAlike letter]
  | NoHint => []
  | MorseOnly => [PlayMorse letter]
  | MnemonicOnly => [PlayLetterSoundAlike letter]
  end.

End Vocabulary.

(** The state of the practice after [letters] have been put in, one after
    the other. *)
Definition typeAll (letters : list string) (s : PracticeState.State)
    : PracticeState.State :=
  foldl (fun s letter => PracticeState.handleInput letter s) s letters.

(** The number of letters that differ from the character expected at
    their place. *)
Fixpoint mismatches (letters : list string) (expected : list ascii) : Z :=
  match letters, expected with
  | letter :: letters, c :: expected =>
      (if bool_decide (letter = String c EmptyString) then 0 else 1)
      + mismatches letters expected
  | _, _ => 0
  end.

(** ** The vocabulary of the further properties *)

Section TurnVocabulary.
Import GameSpace.
Variables (cfg : Config) (course : Course).

(** The analytics counters as [incrementAnalyticsCount] reads them. *)
Definition counters (s : State) : gmap string Counts :=
  default EMPTY_ANALYTICS (analyticsData s).

(** What [advance] does to the cursor. *)
Definition moved (shuffled : list string) (s : State) (w : Word) (s' : State) : Prop :=
  let i := currentWordIndex s in
  if bool_decide (length (myLetters w) ≤ currentLetterIndex w)%nat then
    let added := Z.of_nat (length (currentWords s)) - 2 <? Z.of_nat (S i) in
    currentWordIndex s' = S i /\
    currentWords s' =
      alter (withLetterIndex 0) i (currentWords s) ++
      (if added then [newWord (findAWord cfg course shuffled s).1] else []) /\
    currentLettersInPlay s' =
      (if added then reseed course (currentLettersInPlay s) else currentLettersInPlay s) /\
    pendingAddLetters s' =
      (if added then S (pendingAddLetters s) else pendingAddLetters s)
  else
    currentWordIndex s' = i /\
    currentWords s' = currentWords s /\
    currentLettersInPlay s' = currentLettersInPlay s /\
    pendingAddLetters s' = pendingAddLetters s.

(** The cursor is on a letter, and the words after it are fresh. *)
Definition cursorOk (s : State) : Prop :=
  (exists w, currentWords s !! currentWordIndex s = Some w /\
             (currentLetterIndex w < length (myLetters w))%nat) /\
  forall k w, (currentWordIndex s < k)%nat -> currentWords s !! k = Some w ->
              currentLetterIndex w = 0%nat /\ myLetters w <> [].

End TurnVocabulary.

(** The targets of the phrases of a session, one after the other. *)
Definition sessionTargets (s : PracticeState.State) : list (list ascii) :=
  PracticeState.normalizePhrase <$> PracticeState.sessionPhrases s.

Section ServerVocabulary.
Import Server.

(** A normalized metric: a percentage between 0 and 100 with [completed]
    saying that it is 100, or no percentage and [completed] false. *)
Definition wellFormed (r : Normalized) : Prop :=
  match percent r with
  | Some p => 0 <= p <= 100 /\ (completed r = true <-> p = 100)
  | None => completed r = false
  end.

(** A normalized metric as it is read back from the JSON it was stored
    in: a number is a finite number, [null] is not. *)
Definition stored (r : Normalized) : option Metric :=
  Some {| progress_percent :=
            match percent r with
            | Some p => Finite (inject_Z p)
            | None => NotFinite
            end |}.

(** The [courseMetrics] that [sendProgress] builds from the three saved
    dictionaries, as the server parses them: the percentages are
    numbers. *)
Definition sentMetric (m : Metrics.CourseMetric) : option Metric :=
  Some {| progress_percent := Finite (inject_Z (Metrics.progress_percent m)) |}.

Definition sentCourseMetrics (alphabetProgress numbersProgress keyboardProgress
    : option (gmap string Js.num)) : option CourseMetrics :=
  Some {| alphabet := sentMetric (Metrics.buildCourseMetric alphabetProgress None);
          numbers := sentMetric (Metrics.buildCourseMetric numbersProgress None);
          keyboard := sentMetric (Metrics.buildCourseMetric keyboardProgress None) |}.

(** The rows of page [p]. *)
Definition pageRows {A} (table : list A) (limit p : Z) : list A :=
  match dataDump table (Js.Num p) (Js.Num limit) with
  | Page _ _ data => data
  | _ => []
  end.

End ServerVocabulary.

(** The timers of the board are in order: no number is pending twice, a
    pending number has been handed out, and a pending debounce timer is
    the one [this.timeout] names. *)
Definition tidy (s : MorseBoard.State) : Prop :=
  NoDup (MorseBoard.pending s).*1 /\
  (forall id t, (id, t) ∈ MorseBoard.pending s -> (id < MorseBoard.nextTimer s)%nat) /\
  (forall id, (id, MorseBoard.Debounce) ∈ MorseBoard.pending s ->
              MorseBoard.timeout s = Some id).

(** The debounce timers that are pending. *)
Definition debouncing (s : MorseBoard.State) : list nat :=
  (filter (fun t => t.2 = MorseBoard.Debounce) (MorseBoard.pending s)).*1.

(** The text of a sequence of symbols. *)
Definition typed (buttons : list MorseBoard.Button) : string :=
  foldl (fun v b => v +:+ MorseBoard.symbolOf b) "" buttons.

(** No notification is shown or about to be shown in the output. *)
Definition quiet (s : MorseBoard.State) : Prop :=
  MorseBoard.notificationStyle (MorseBoard.config s) = "output" -> MorseBoard.outputStyleTimeout s = None.

(** What a click finds in the output: a notification is wiped first. *)
Definition entered (s : MorseBoard.State) : string :=
  if bool_decide (MorseBoard.notificationStyle (MorseBoard.config s) = "output") then
    match MorseBoard.outputStyleTimeout s with
    | Some _ => ""
    | None => MorseBoard.output s
    end
  else MorseBoard.output s.

(** ** Concrete sessions used below *)

Module Sample.
Import GameSpace.

(** [LEARNED_THRESHOLD = 2] and [CONSECUTIVE_CORRECT = 3]. *)
Definition cfg : Config :=
  {| LEARNED_THRESHOLD := 2; CONSECUTIVE_CORRECT := 3 |}.

Definition scores (l : list (string * Z)) : gmap string Js.num :=
  list_to_map (prod_map id Js.Num <$> l).

(** A session at rest: nothing typed yet, the gate open. *)
Definition session (pool : list string) (ws : list string)
    (d : gmap string Js.num) : State :=
  {| currentLettersInPlay := pool;
     currentWords := newWord <$> ws;
     currentWordIndex := 0;
     mistakeCount := 0;
     consecutiveCorrect := 0;
     inputReady := true;
     letterScoreDict := d;
     analyticsData := None;
     pendingAddLetters := 0;
     effects := [] |}.

(** Pool {a, b, c}, corpus ["ab", "cab"], every score 0. *)
Definition abcCourse : Course :=
  {| lettersToLearn := ["a"; "b"; "c"; "d"]; words := Some ["ab"; "cab"] |}.

Definition abcStart : State :=
  session ["a"; "b"; "c"] ["ab"; "cab"; "ab"]
    (scores [("a", 0); ("b", 0); ("c", 0); ("d", 0)]).

(** The course that [app.js] falls back on: the alphabet, and no words of
    its own. *)
Definition fallbackCourse : Course :=
  {| lettersToLearn :=
       [ "a"; "b"; "c"; "d"; "e"; "f"; "g"; "h"; "i"; "j"; "k"; "l"; "m";
         "n"; "o"; "p"; "q"; "r"; "s"; "t"; "u"; "v"; "w"; "x"; "y"; "z" ];
     words := None |}.

End Sample.

(** ** Further concrete cases used below *)

Module Cases.
Import GameSpace.

(** A course of digits, every score 0: the default analytics counters
    have no entry for a digit. *)
Definition numbersCourse : Course :=
  {| lettersToLearn := ["1"; "2"; "3"; "4"]; words := Some ["12"; "312"] |}.

Definition numbersStart : State :=
  Sample.session ["1"; "2"; "3"] ["12"; "312"; "12"]
    (Sample.scores [("1", 0); ("2", 0); ("3", 0); ("4", 0)]).

(** Every letter of the course learned. *)
Definition learnedScores : gmap string Js.num :=
  Sample.scores [("a", 2); ("b", 3); ("c", 2); ("d", 4)].

Definition learned : State :=
  Sample.session ["a"; "b"; "c"; "d"] ["ab"; "cab"; "ab"] learnedScores.

(** A practice session of two phrases, nothing typed yet. *)
Definition practice : PracticeState.State :=
  {| PracticeState.sessionPhrases := ["so it is"; "go on"];
     PracticeState.currentPhraseIndex := 0;
     PracticeState.currentCharIndex := 0;
     PracticeState.totalErrors := 0;
     PracticeState.sessionComplete := false;
     PracticeState.have_audio := true;
     PracticeState.effects := [] |}.

(** The board of the game, one-switch mode off and on, and two entries
    of the dictionary. *)
Definition board : MorseBoard.State :=
  MorseBoard.create (MorseBoard.gameOptions false).

Definition oneSwitchBoard : MorseBoard.State :=
  MorseBoard.create (MorseBoard.gameOptions true).

Definition dictionary : gmap string string :=
  list_to_map [(".-", "a"); ("-...", "b")].

End Cases.

(** * Properties *)

(** A closed decidable statement, settled by evaluation. *)
Ltac by_evaluation := apply (bool_decide_unpack _); vm_compute; exact I.

(** ** findAWord *)

Section FindAWord.
Import GameSpace.
Variables (cfg : Config) (course : Course).

Lemma onlyTheseLetters_spec pool w :
  onlyTheseLetters pool w = true <-> forall l, l ∈ Js.chars w -> l ∈ pool.
Proof.
  unfold onlyTheseLetters. rewrite forallb_forall. split.
  - intros H l Hl. apply list_elem_of_In, H in Hl.
    by apply bool_decide_eq_true in Hl.
  - intros H l Hl. apply bool_decide_eq_true, H. by apply list_elem_of_In.
Qed.

(** What the loop guarantees of the word it stops at. *)
Lemma scan_Some d pool newest shuffled w :
  scan cfg d pool newest shuffled = Some w ->
  w ∈ shuffled /\ onlyTheseLetters pool w = true /\
  (newestNotLearned cfg d newest = true -> newest ∈ Js.chars w).
Proof.
  induction shuffled as [|x rest IH]; simpl; [done|].
  destruct (onlyTheseLetters pool x) eqn:Hx.
  - destruct (newestNotLearned cfg d newest) eqn:Hn.
    + case_bool_decide as Hc.
      * intros [= <-]. split; [left|done].
      * intros H. destruct (IH H) as (? & ? & ?). split; [by right|done].
    + intros [= <-]. split; [left|]. split; [done|]. intros; discriminate.
  - intros H. destruct (IH H) as (? & ? & ?). split; [by right|done].
Qed.

(** With the preference on, the loop stops when a word of the pool holds
    the newest letter. *)
Lemma scan_finds d pool newest shuffled w :
  newestNotLearned cfg d newest = true ->
  w ∈ shuffled -> onlyTheseLetters pool w = true -> newest ∈ Js.chars w ->
  is_Some (scan cfg d pool newest shuffled).
Proof.
  intros Hn Hin Hw Hc. induction Hin as [w rest|w x rest Hin IH]; simpl.
  - rewrite Hw, Hn. rewrite bool_decide_eq_true_2 by done. by eexists.
  - specialize (IH Hw Hc).
    destruct (onlyTheseLetters pool x); [|exact IH].
    rewrite Hn. case_bool_decide; [by eexists|exact IH].
Qed.

Lemma chars_nonempty w l : l ∈ Js.chars w -> w <> "".
Proof. intros H ->. by apply elem_of_nil in H. Qed.

(** The preference for the newest letter, where the code applies it: the
    score of the newest letter is a number other than 0 below the
    threshold. *)
Lemma findAWord_prefers_newest shuffled s w :
  let newest := newestLetter (currentLettersInPlay s) in
  let pool := reseed course (currentLettersInPlay s) in
  newestNotLearned cfg (letterScoreDict s) newest = true ->
  w ∈ shuffled -> (forall l, l ∈ Js.chars w -> l ∈ pool) ->
  newest ∈ Js.chars w ->
  newest ∈ Js.chars (findAWord cfg course shuffled s).1.
Proof.
  intros newest pool Hn Hin Hpool Hc. unfold findAWord. simpl.
  fold newest pool.
  destruct (scan_finds (letterScoreDict s) pool newest shuffled w) as [w' Hw'];
    [done|done|by apply onlyTheseLetters_spec|done|].
  rewrite Hw'. apply scan_Some in Hw' as (_ & _ & Hw').
  specialize (Hw' Hn). simpl. case_bool_decide as He; [|done].
  by apply chars_nonempty in Hw'.
Qed.

(** C2, as the code has it: the word returned is the default word
    ["cat"], or a word of the corpus all of whose letters are in the pool
    that [findAWord] leaves in play. *)
Theorem findAWord_pool_or_default shuffled s :
  shuffled ≡ₚ corpus course ->
  let '(w, s') := findAWord cfg course shuffled s in
  w = "cat" \/
  (w ∈ corpus course /\ forall l, l ∈ Js.chars w -> l ∈ currentLettersInPlay s').
Proof.
  intros Hperm. unfold findAWord. simpl.
  destruct (scan _ _ _ _ _) as [w|] eqn:Hscan; simpl; [|by left].
  case_bool_decide; [by left|]. right.
  apply scan_Some in Hscan as (Hin & Hpool & _). split.
  - by rewrite <- Hperm.
  - by apply onlyTheseLetters_spec.
Qed.

End FindAWord.

(** C2 on the two-word corpus, shuffled to "cab", "ab". *)
Lemma findAWord_pool_or_default_witness :
  ["cab"; "ab"] ≡ₚ GameSpace.corpus Sample.abcCourse /\
  let '(w, s') :=
    GameSpace.findAWord Sample.cfg Sample.abcCourse ["cab"; "ab"] Sample.abcStart in
  w = "cat" \/
  (w ∈ GameSpace.corpus Sample.abcCourse /\
   forall l, l ∈ Js.chars w -> l ∈ GameSpace.currentLettersInPlay s').
Proof.
  assert (Hp : ["cab"; "ab"] ≡ₚ GameSpace.corpus Sample.abcCourse)
    by apply Permutation_swap.
  split; [exact Hp|].
  exact (findAWord_pool_or_default Sample.cfg Sample.abcCourse
           ["cab"; "ab"] Sample.abcStart Hp).
Defined.

(** C1 at its own example: pool {a, b, c}, corpus ["ab", "cab"], every
    score 0.  The score of the newest letter "c" is 0, which the guard
    [letterScoreDict[newestLetter] && ..] takes for absent; when the
    shuffle leaves "ab" first, "ab" is returned although "cab" is in the
    corpus, is made of pool letters and holds "c". *)
Theorem findAWord_zero_score_skips_newest :
  let s := Sample.abcStart in
  let shuffled := ["ab"; "cab"] in
  shuffled ≡ₚ GameSpace.corpus Sample.abcCourse /\
  GameSpace.newestLetter (GameSpace.currentLettersInPlay s) = "c" /\
  GameSpace.letterScoreDict s !! "c" = Some (Js.Num 0) /\
  0 < GameSpace.LEARNED_THRESHOLD Sample.cfg /\
  GameSpace.onlyTheseLetters (GameSpace.currentLettersInPlay s) "cab" = true /\
  "c" ∈ Js.chars "cab" /\
  (GameSpace.findAWord Sample.cfg Sample.abcCourse shuffled s).1 = "ab" /\
  "c" ∉ Js.chars "ab".
Proof.
  simpl. split_and!; try done; by_evaluation.
Qed.

(** C2 as stated fails.  On the course that [app.js] falls back on, the
    pool is seeded with a, b, c and the corpus is the list of default
    words, none of which is made of these three letters: the default
    word "cat" is returned, and "t" is not in the pool. *)
Lemma findAWord_default_outside_pool :
  ~ (forall cfg course shuffled s,
       shuffled ≡ₚ GameSpace.corpus course ->
       forall l, l ∈ Js.chars (GameSpace.findAWord cfg course shuffled s).1 ->
                 l ∈ GameSpace.currentLettersInPlay
                       (GameSpace.findAWord cfg course shuffled s).2).
Proof.
  intros H.
  set (s := Sample.session [] [] ∅).
  specialize (H Sample.cfg Sample.fallbackCourse GameSpace.defaultWords s
                (reflexivity _) "t").
  assert (E1 : (GameSpace.findAWord Sample.cfg Sample.fallbackCourse
                  GameSpace.defaultWords s).1 = "cat")
    by (vm_compute; reflexivity).
  assert (E2 : GameSpace.currentLettersInPlay
                 (GameSpace.findAWord Sample.cfg Sample.fallbackCourse
                    GameSpace.defaultWords s).2 = ["a"; "b"; "c"])
    by (vm_compute; reflexivity).
  rewrite E1, E2 in H.
  assert (Hn : "t" ∉ ["a"; "b"; "c"]) by by_evaluation.
  apply Hn, H. by_evaluation.
Qed.

(** ** checkAddLetters *)

Section CheckAddLetters.
Import GameSpace.
Variables (cfg : Config) (course : Course).

Lemma decreaseTo_min len n : decreaseTo len n = Nat.min n len.
Proof.
  induction n as [|n IH]; cbn [decreaseTo]; [done|].
  destruct (Nat.ltb_spec len (S n)); [rewrite IH|]; lia.
Qed.

Lemma ge_true v t : Js.ge v t = true <-> exists z, v = Some (Js.Num z) /\ t <= z.
Proof.
  destruct v as [[z|]|]; simpl.
  - rewrite Z.leb_le. split; [by exists z|]. by intros (? & [= <-] & ?).
  - split; [done|]. by intros (? & [=] & ?).
  - split; [done|]. by intros (? & [=] & ?).
Qed.

Lemma growthDue_test s :
  growthDue cfg course s <->
  default false
    (last ((fun l => Js.ge (letterScoreDict s !! l) (LEARNED_THRESHOLD cfg))
             <$> intersection (currentLettersInPlay s) (lettersToLearn course)))
  && (CONSECUTIVE_CORRECT cfg <=? consecutiveCorrect s) = true.
Proof.
  unfold growthDue. rewrite fmap_last, andb_true_iff, Z.leb_le.
  destruct (last (intersection _ _)) as [l|]; simpl.
  - rewrite ge_true. split.
    + intros [(l' & z & [= <-] & ? & ?) ?]; eauto.
    + intros [(z & ? & ?) ?]; eauto 10.
  - split; [by intros [(? & ? & [=] & _) _]|by intros [[=] _]].
Qed.

(** C3, as the code has it.  When growth is due the pool becomes the
    first [min (n + 1) (course length)] course letters, [n] being the
    size of the pool, and the streak is reset; for a pool that is the
    first [n] course letters that is the pool with the next course
    letter appended, or the pool itself once it is the whole course.
    When growth is not due nothing changes. *)
Theorem addLettersTimeout_grows s :
  let pool := currentLettersInPlay s in
  let letters := lettersToLearn course in
  let s' := addLettersTimeout cfg course s in
  (growthDue cfg course s ->
     currentLettersInPlay s' =
       take (Nat.min (S (length pool)) (length letters)) letters /\
     consecutiveCorrect s' = 0 /\
     (length (currentLettersInPlay s') <= length letters)%nat /\
     (forall rest, letters = pool ++ rest ->
                   currentLettersInPlay s' = pool ++ take 1 rest)) /\
  (~ growthDue cfg course s -> s' = s).
Proof.
  intros pool letters s'. subst s'. unfold addLettersTimeout.
  pose proof (growthDue_test s) as Htest.
  destruct (default false _ && _) eqn:Hc.
  - split; [|intros Hn; by destruct Hn; apply Htest].
    intros _. unfold set_currentLettersInPlay, set_consecutiveCorrect.
    cbn [currentLettersInPlay consecutiveCorrect].
    rewrite decreaseTo_min. fold pool letters.
    split_and!; [done|done|rewrite length_take; lia|].
    intros rest Hrest. rewrite Hrest, length_app.
    destruct rest as [|x rest]; cbn [length].
    + rewrite app_nil_r, Nat.add_0_r.
      rewrite Nat.min_r by lia. rewrite take_ge by lia.
      cbn [take]. by rewrite app_nil_r.
    + replace (Nat.min (S (length pool)) (length pool + S (length rest)))
        with (length pool + 1)%nat by lia.
      by rewrite take_app_add.
  - split; [|done]. intros Hg. apply Htest in Hg. discriminate.
Qed.

End CheckAddLetters.

(** C3 as stated fails.  Course e, t, a, i, m with e, a and m learned and t
    and i not: [loadLetters] puts e, a, m in play; growth is due, and the
    pool becomes e, t, a, i, which has lost m and gained both t and i. *)
Lemma addLettersTimeout_not_extension :
  ~ (forall cfg course s,
       growthDue cfg course s ->
       extendsPool (GameSpace.currentLettersInPlay s)
         (GameSpace.currentLettersInPlay (GameSpace.addLettersTimeout cfg course s))).
Proof.
  intros H.
  set (course := {| GameSpace.lettersToLearn := ["e"; "t"; "a"; "i"; "m"];
                    GameSpace.words := None |}).
  set (d := Sample.scores [("e", 2); ("t", 0); ("a", 2); ("i", 0); ("m", 2)]).
  set (pool := GameSpace.loadLetters Sample.cfg course ["e"; "t"; "a"; "i"; "m"] d).
  set (s := GameSpace.set_consecutiveCorrect 3 (Sample.session pool [] d)).
  assert (Hpool : pool = ["e"; "a"; "m"]) by (vm_compute; reflexivity).
  destruct (H Sample.cfg course s) as [Hsub _].
  - apply growthDue_test. vm_compute. reflexivity.
  - assert (E : GameSpace.currentLettersInPlay
                  (GameSpace.addLettersTimeout Sample.cfg course s)
                = ["e"; "t"; "a"; "i"]) by (vm_compute; reflexivity).
    rewrite E in Hsub. specialize (Hsub "m").
    assert (Hn : "m" ∉ ["e"; "t"; "a"; "i"]) by by_evaluation.
    apply Hn, Hsub. simpl. rewrite Hpool. by_evaluation.
Qed.

(** C3 on a pool that is the first three course letters: the fourth is
    appended and the streak is reset. *)
Lemma addLettersTimeout_grows_witness :
  let s := GameSpace.set_consecutiveCorrect 3
             (Sample.session ["a"; "b"; "c"] []
                (Sample.scores [("a", 2); ("b", 2); ("c", 2); ("d", 0)])) in
  growthDue Sample.cfg Sample.abcCourse s /\
  GameSpace.currentLettersInPlay
    (GameSpace.addLettersTimeout Sample.cfg Sample.abcCourse s)
    = ["a"; "b"; "c"] ++ ["d"] /\
  GameSpace.consecutiveCorrect
    (GameSpace.addLettersTimeout Sample.cfg Sample.abcCourse s) = 0.
Proof.
  intros s.
  assert (Hg : growthDue Sample.cfg Sample.abcCourse s)
    by (apply growthDue_test; vm_compute; reflexivity).
  destruct (addLettersTimeout_grows Sample.cfg Sample.abcCourse s)
    as [Hgrow _].
  destruct (Hgrow Hg) as (_ & Hstreak & _ & Hext).
  split; [exact Hg|]. split; [|exact Hstreak].
  exact (Hext ["d"] eq_refl).
Defined.

(** ** checkAllLettersLearned *)

Section CheckAllLettersLearned.
Import GameSpace.
Variables (cfg : Config) (course : Course).

Lemma filter_all_length {A} (P : A -> Prop) `{!forall x, Decision (P x)}
    (l : list A) :
  length (filter P l) = length l <-> Forall P l.
Proof.
  induction l as [|x l IH].
  - split; [constructor|done].
  - rewrite filter_cons. pose proof (length_filter P l) as Hle.
    destruct (decide (P x)) as [Hx|Hx]; simpl.
    + rewrite Forall_cons. split.
      * intros [= Hlen]. split; [done|by apply IH].
      * intros [_ Hall]. f_equal. by apply IH.
    + split; [lia|]. intros Hall. by apply Forall_cons in Hall as [? _].
Qed.

Lemma keys_course d : keysAreCourse course d -> keys d ≡ₚ lettersToLearn course.
Proof.
  intros [Hnd Hkeys]. apply NoDup_Permutation.
  - apply NoDup_fst_map_to_list.
  - done.
  - intros l. rewrite Hkeys. unfold keys. rewrite list_elem_of_fmap. split.
    + intros ([k v] & -> & Hin). apply elem_of_map_to_list in Hin. by exists v.
    + intros [v Hv]. exists (l, v). split; [done|]. by apply elem_of_map_to_list.
Qed.

(** On a dictionary whose keys are the course letters the test is the
    one the comment in the code announces: all letters learned. *)
Lemma checkAllLettersLearned_all s :
  keysAreCourse course (letterScoreDict s) ->
  (checkAllLettersLearned cfg course s).1 = true <->
  forall l, l ∈ lettersToLearn course ->
    exists z, letterScoreDict s !! l = Some (Js.Num z) /\ LEARNED_THRESHOLD cfg <= z.
Proof.
  intros Hk. pose proof (keys_course _ Hk) as Hperm.
  unfold checkAllLettersLearned, learnedLetters.
  rewrite <- (Permutation_length Hperm).
  case_bool_decide as Hlen; simpl.
  - split; [intros _|done]. apply filter_all_length in Hlen.
    intros l Hl. rewrite <- Hperm in Hl.
    rewrite Forall_forall in Hlen. apply Hlen in Hl.
    apply ge_true. by apply Is_true_true.
  - split; [done|]. intros Hall. destruct Hlen. apply filter_all_length.
    apply Forall_forall. intros l Hl. rewrite Hperm in Hl.
    apply Is_true_true, ge_true. by apply Hall.
Qed.

End CheckAllLettersLearned.

(** C4 on dictionaries whose key set is not the course's.  The code counts
    the learned keys of the dictionary and compares the count with the
    number of course letters.  Course a, b: with scores a 2, b 0 and a key x
    of score 2 left by another course, two keys are learned, so the test
    is true and the congratulations screen starts although b is not
    learned; with a 2, b 2, x 2 three are, so it is false although both
    course letters are learned. *)
Theorem checkAllLettersLearned_counts_other_keys :
  let course := {| GameSpace.lettersToLearn := ["a"; "b"];
                   GameSpace.words := None |} in
  let s1 := Sample.session ["a"; "b"] []
              (Sample.scores [("a", 2); ("b", 0); ("x", 2)]) in
  let s2 := Sample.session ["a"; "b"] []
              (Sample.scores [("a", 2); ("b", 2); ("x", 2)]) in
  ((GameSpace.checkAllLettersLearned Sample.cfg course s1).1 = true /\
   GameSpace.letterScoreDict s1 !! "b" = Some (Js.Num 0) /\
   Js.ge (GameSpace.letterScoreDict s1 !! "b")
         (GameSpace.LEARNED_THRESHOLD Sample.cfg) = false /\
   exists d, GameSpace.Congratulations d
             ∈ GameSpace.effects (GameSpace.checkAllLettersLearned Sample.cfg course s1).2) /\
  ((GameSpace.checkAllLettersLearned Sample.cfg course s2).1 = false /\
   forall l, l ∈ GameSpace.lettersToLearn course ->
     Js.ge (GameSpace.letterScoreDict s2 !! l)
           (GameSpace.LEARNED_THRESHOLD Sample.cfg) = true).
Proof.
  cbv zeta. split_and!; try (vm_compute; reflexivity).
  - eexists. vm_compute. apply list_elem_of_further, list_elem_of_here.
  - intros l Hl. apply elem_of_cons in Hl as [->|Hl]; [vm_compute; reflexivity|].
    apply elem_of_cons in Hl as [->|Hl]; [vm_compute; reflexivity|].
    by apply elem_of_nil in Hl.
Qed.

(** ** How a computation changes the state

    [checkMatch] is a sequence of small steps.  A relation between the
    state before and the state after that is reflexive and transitive,
    and that every step respects, is respected by the sequence, whether it
    runs to its end or throws on the way. *)

Section Respects.
Import GameSpace.
Context (R : relation State) `{!PreOrder R}.

Lemma respects_ret {A} (a : A) : respects R (mret a).
Proof. intros s. simpl. reflexivity. Qed.

Lemma respects_throw {A} : respects R (@throw A).
Proof. intros s. simpl. reflexivity. Qed.

Lemma respects_gets {A} (f : State -> A) : respects R (gets f).
Proof. intros s. simpl. reflexivity. Qed.

Lemma respects_wordAt i : respects R (wordAt i).
Proof. intros s. unfold wordAt. destruct (_ !! _); simpl; reflexivity. Qed.

Lemma respects_modify f : (forall s, R s (f s)) -> respects R (modify f).
Proof. intros H s. apply H. Qed.

Lemma respects_call {A} (f : State -> A * State) :
  (forall s, R s (f s).2) -> respects R (call f).
Proof. intros H s. unfold call. specialize (H s). by destruct (f s). Qed.

Lemma respects_bind {A B} (c : M A) (k : A -> M B) :
  respects R c -> (forall a, respects R (k a)) -> respects R (c ≫= k).
Proof.
  intros Hc Hk s. unfold mbind, M_bind. specialize (Hc s).
  destruct (c s) as [a s'|s']; simpl in *; [|done].
  etrans; [exact Hc|apply Hk].
Qed.

Lemma respects_if {A} (b : bool) (c1 c2 : M A) :
  respects R c1 -> respects R c2 -> respects R (if b then c1 else c2).
Proof. by destruct b. Qed.

(** The state left by a sequence, from the states left by its parts. *)
Lemma stateOf_bind {A B} (c : M A) (k : A -> M B) s :
  stateOf ((c ≫= k) s) =
  match c s with
  | Ok a s' => stateOf (k a s')
  | Threw s' => s'
  end.
Proof. unfold mbind, M_bind. by destruct (c s). Qed.

End Respects.

(** Break a computation down to its steps. *)
Ltac respects_steps :=
  repeat first
    [ apply respects_bind; [tc_solve| |intros ?]
    | apply respects_ret; tc_solve
    | apply respects_throw; tc_solve
    | apply respects_gets; tc_solve
    | apply respects_wordAt; tc_solve
    | apply respects_if
    | match goal with
      | |- respects _ (match ?x with _ => _ end) => destruct x
      | |- respects _ (let '(_, _) := ?x in _) => destruct x
      end ].

(** ** checkMatch: what one call does to the scores and to the log *)

Section CheckMatch.
Import GameSpace.
Variables (cfg : Config) (course : Course).

#[local] Instance sameScores_preorder : PreOrder sameScores.
Proof.
  split; [by intros s|]. intros s1 s2 s3 H12 H23. unfold sameScores in *. congruence.
Qed.

#[local] Instance logGrows_preorder P : PreOrder (logGrows P).
Proof.
  split.
  - intros s. exists []. by rewrite app_nil_r.
  - intros s1 s2 s3 (r1 & E1 & F1) (r2 & E2 & F2). exists (r1 ++ r2).
    rewrite E2, E1, app_assoc. split; [done|by apply Forall_app].
Qed.

Lemma logGrows_same P s s' : effects s' = effects s -> logGrows P s s'.
Proof. intros E. exists []. by rewrite app_nil_r. Qed.

Lemma logGrows_emit (P : Effect -> Prop) e s : P e -> logGrows P s (emit e s).
Proof. intros He. exists [e]. split; [done|by constructor]. Qed.

Lemma emit_all_effects l s :
  effects (foldl (fun s e => emit e s) s l) = effects s ++ l.
Proof.
  revert s. induction l as [|e l IH]; intros s; simpl; [by rewrite app_nil_r|].
  rewrite IH. simpl. by rewrite <- app_assoc.
Qed.

Lemma emit_all_scores l s :
  letterScoreDict (foldl (fun s e => emit e s) s l) = letterScoreDict s.
Proof. revert s. induction l as [|e l IH]; intros s; simpl; [done|by rewrite IH]. Qed.

Lemma playHints_cues letter attempts : Forall isCue (playHints letter attempts).
Proof. unfold playHints. repeat case_match; repeat constructor. Qed.

(** *** The parts of the call *)

Lemma addAWord_frame shuffled s :
  letterScoreDict (addAWord cfg course shuffled s) = letterScoreDict s /\
  effects (addAWord cfg course shuffled s) = effects s.
Proof. done. Qed.

Lemma checkAllLettersLearned_scores s :
  letterScoreDict (checkAllLettersLearned cfg course s).2 = letterScoreDict s.
Proof. unfold checkAllLettersLearned. by case_bool_decide. Qed.

Lemma checkAllLettersLearned_log s :
  logGrows (fun _ => True) s (checkAllLettersLearned cfg course s).2.
Proof.
  unfold checkAllLettersLearned. case_bool_decide; simpl; [|reflexivity].
  eexists [_; _]. simpl. rewrite <- app_assoc. split; [done|by repeat constructor].
Qed.

Lemma expected_run s :
  (exists i letter, expected s = Ok (i, letter) s) \/ expected s = Threw s.
Proof.
  unfold expected, mbind, M_bind, gets, wordAt. simpl.
  destruct (currentWords s !! currentWordIndex s); eauto.
Qed.

Lemma incrementAnalyticsCount_frame key letter s :
  letterScoreDict (stateOf (incrementAnalyticsCount key letter s)) = letterScoreDict s /\
  effects (stateOf (incrementAnalyticsCount key letter s)) = effects s.
Proof.
  unfold incrementAnalyticsCount.
  destruct (analyticsData s); repeat case_match; done.
Qed.

Lemma gotCorrect_run i letter s :
  match gotCorrect cfg i letter s with
  | Ok _ s' =>
      letterScoreDict s' =
        clampAbove cfg letter (addTo letter 1 (letterScoreDict s)) /\
      effects s' = effects s ++ [SaveProgress (addTo letter 1 (letterScoreDict s))]
  | Threw s' =>
      letterScoreDict s' = letterScoreDict s /\ effects s' = effects s
  end.
Proof.
  unfold gotCorrect, incrementCorrectCount, mbind, M_bind, modify.
  pose proof (incrementAnalyticsCount_frame KCorrect letter s) as [Hd He].
  destruct (incrementAnalyticsCount KCorrect letter s) as [[] s1|s1];
    simpl in *; by rewrite ?Hd, ?He.
Qed.

Lemma gotWrong_run letter s :
  match gotWrong letter s with
  | Ok _ s' =>
      letterScoreDict s' = addTo letter (-1) (letterScoreDict s) /\
      effects s' = effects s
  | Threw s' =>
      letterScoreDict s' = letterScoreDict s /\ effects s' = effects s
  end.
Proof.
  unfold gotWrong, incrementWrongCount, mbind, M_bind, modify.
  pose proof (incrementAnalyticsCount_frame KWrong letter s) as [Hd He].
  destruct (incrementAnalyticsCount KWrong letter s) as [[] s1|s1];
    simpl in *; by rewrite ?Hd, ?He.
Qed.

Lemma retry_run letter s :
  exists s', retry cfg letter s = Ok tt s' /\
    letterScoreDict s' = clampBelow cfg letter (letterScoreDict s) /\
    effects s' = effects s ++ [SaveLetters (letterScoreDict s)].
Proof. eexists. split; [reflexivity|done]. Qed.

Lemma advance_scores shuffled i : respects sameScores (advance cfg course shuffled i).
Proof.
  unfold advance, updateProgressLights. respects_steps;
    try (apply respects_modify; by intros ?).
  apply respects_call. intros ?. apply checkAllLettersLearned_scores.
Qed.

Lemma advance_log shuffled i :
  respects (logGrows (fun _ => True)) (advance cfg course shuffled i).
Proof.
  unfold advance, updateProgressLights. respects_steps;
    try (apply respects_modify; intros ?; by apply logGrows_same).
  - apply respects_modify. intros ?. by apply logGrows_emit.
  - apply respects_call. intros ?. apply checkAllLettersLearned_log.
Qed.

Lemma hintNext_scores j letter : respects sameScores (hintNext cfg j letter).
Proof.
  unfold hintNext. respects_steps.
  apply respects_modify. intros ?. apply emit_all_scores.
Qed.

Lemma hintNext_log j letter :
  respects (logGrows (fun _ => True)) (hintNext cfg j letter).
Proof.
  unfold hintNext. respects_steps.
  apply respects_modify. intros ?. eexists. split; [apply emit_all_effects|].
  apply Forall_true. done.
Qed.

Lemma hintAgain_scores i : respects sameScores (hintAgain i).
Proof.
  unfold hintAgain. respects_steps.
  apply respects_modify. intros ?. apply emit_all_scores.
Qed.

Lemma hintAgain_log i : respects (logGrows isCue) (hintAgain i).
Proof.
  unfold hintAgain. respects_steps.
  apply respects_modify. intros ?. eexists. split; [apply emit_all_effects|].
  apply playHints_cues.
Qed.

(** *** The call as a whole *)

Lemma after_correct_scores shuffled i :
  respects sameScores
    (next ← advance cfg course shuffled i;
     match next with
     | None => mret tt
     | Some (j, letter) => hintNext cfg j letter
     end).
Proof.
  apply respects_bind; [tc_solve|apply advance_scores|].
  intros [[j letter]|]; [apply hintNext_scores|apply respects_ret; tc_solve].
Qed.

Lemma after_correct_log shuffled i :
  respects (logGrows (fun _ => True))
    (next ← advance cfg course shuffled i;
     match next with
     | None => mret tt
     | Some (j, letter) => hintNext cfg j letter
     end).
Proof.
  apply respects_bind; [tc_solve|apply advance_log|].
  intros [[j letter]|]; [apply hintNext_log|apply respects_ret; tc_solve].
Qed.

(** The ways a call can go: it is dropped at the gate or throws before
    a score is touched; or the letter is right; or it is wrong. *)
Lemma checkMatch_cases typedLetter shuffled s :
  let s' := checkMatch cfg course typedLetter shuffled s in
  let d := letterScoreDict s in
  (letterScoreDict s' = d /\ effects s' = effects s) \/
  (exists rest,
      letterScoreDict s' =
        clampAbove cfg (Some typedLetter) (addTo (Some typedLetter) 1 d) /\
      effects s' =
        effects s ++ SaveProgress (addTo (Some typedLetter) 1 d) :: rest) \/
  (exists letter rest,
      letter <> Some typedLetter /\
      letterScoreDict s' = clampBelow cfg letter (addTo letter (-1) d) /\
      effects s' = effects s ++ SaveLetters (addTo letter (-1) d) :: rest /\
      Forall isCue rest).
Proof.
  intros s' d. subst s' d. unfold checkMatch.
  destruct (inputReady s); simpl; [|by left].
  set (s0 := set_inputReady false s).
  assert (Hd0 : letterScoreDict s0 = letterScoreDict s) by done.
  assert (He0 : effects s0 = effects s) by done.
  clearbody s0. rewrite <- Hd0, <- He0. clear Hd0 He0 s.
  unfold checkMatchBody. rewrite stateOf_bind.
  destruct (expected_run s0) as [(i & letter & ->)| ->]; [|by left].
  case_bool_decide as Hl.
  - subst letter. rewrite stateOf_bind.
    pose proof (gotCorrect_run i (Some typedLetter) s0) as Hrun.
    destruct (gotCorrect _ _ _ _) as [[] s1|s1]; [|by left].
    destruct Hrun as [Hd He]. right; left.
    pose proof (after_correct_scores shuffled i s1) as Hs.
    destruct (after_correct_log shuffled i s1) as (rest & Hlog & _).
    exists rest. unfold sameScores in Hs. rewrite Hs, Hlog, Hd, He.
    by rewrite <- app_assoc.
  - rewrite stateOf_bind.
    pose proof (gotWrong_run letter s0) as Hrun.
    destruct (gotWrong _ _) as [[] s1|s1]; [|by left].
    destruct Hrun as [Hd He]. right; right.
    rewrite stateOf_bind.
    destruct (retry_run letter s1) as (s2 & -> & Hd2 & He2).
    pose proof (hintAgain_scores i s2) as Hs.
    destruct (hintAgain_log i s2) as (rest & Hlog & Hcues).
    exists letter, rest. unfold sameScores in Hs.
    rewrite Hs, Hlog, Hd2, He2, Hd, He. rewrite <- app_assoc.
    split_and!; done.
Qed.

(** *** The bounds of the scores *)

Lemma clampAbove_bounded letter d k :
  bounded cfg (d !! k) -> bounded cfg (clampAbove cfg letter (addTo letter 1 d) !! k).
Proof.
  intros (z & Hz & Hb). unfold clampAbove, addTo, bounded, Js.within.
  destruct (decide (propKey letter = k)) as [->|Hne].
  - rewrite lookup_insert_eq, Hz. simpl.
    destruct (Z.ltb_spec (LEARNED_THRESHOLD cfg + 2) (z + 1)).
    + rewrite lookup_insert_eq. eexists. split; [done|lia].
    + rewrite lookup_insert_eq. eexists. split; [done|lia].
  - destruct (Js.gt _ _); rewrite !lookup_insert_ne by done; eauto.
Qed.

Lemma clampBelow_bounded letter d k :
  bounded cfg (d !! k) -> bounded cfg (clampBelow cfg letter (addTo letter (-1) d) !! k).
Proof.
  intros (z & Hz & Hb). unfold clampBelow, addTo, bounded, Js.within.
  destruct (decide (propKey letter = k)) as [->|Hne].
  - rewrite lookup_insert_eq, Hz. simpl.
    destruct (Z.ltb_spec (z + -1) (- LEARNED_THRESHOLD cfg - 2)).
    + rewrite lookup_insert_eq. eexists. split; [done|lia].
    + rewrite lookup_insert_eq. eexists. split; [done|lia].
  - destruct (Js.lt _ _); rewrite !lookup_insert_ne by done; eauto.
Qed.

Lemma checkMatch_bounded typedLetter shuffled s k :
  bounded cfg (letterScoreDict s !! k) ->
  bounded cfg (letterScoreDict (checkMatch cfg course typedLetter shuffled s) !! k).
Proof.
  intros Hb.
  destruct (checkMatch_cases typedLetter shuffled s)
    as [[-> _]|[(rest & -> & _)|(letter & rest & _ & -> & _)]].
  - done.
  - by apply clampAbove_bounded.
  - by apply clampBelow_bounded.
Qed.

Lemma fireAddLetters_scores s :
  letterScoreDict (fireAddLetters cfg course s) = letterScoreDict s.
Proof.
  unfold fireAddLetters, addLettersTimeout.
  destruct (pendingAddLetters s); [done|]. by case_match.
Qed.

Lemma turn_bounded t s k :
  bounded cfg (letterScoreDict s !! k) ->
  bounded cfg (letterScoreDict (turn cfg course t s) !! k).
Proof.
  destruct t as [typedLetter shuffled|]; simpl.
  - apply checkMatch_bounded.
  - by rewrite fireAddLetters_scores.
Qed.

(** Calls that run one after the other, each to its end before the
    next event: whatever is typed, right or wrong, and whenever the pool
    timers fire, if the score of every course letter starts within
    [-(T + 2)] and [T + 2], then after each call ([n] of the turns
    being over) the score of every course letter is within these bounds
    again. *)
Theorem scores_stay_bounded ts s :
  (forall l, l ∈ lettersToLearn course -> bounded cfg (letterScoreDict s !! l)) ->
  forall n l, l ∈ lettersToLearn course ->
    bounded cfg (letterScoreDict (turns cfg course (take n ts) s) !! l).
Proof.
  intros Hstart n l Hl. specialize (Hstart l Hl).
  generalize (take n ts). clear ts n. intros ts. revert s Hstart.
  induction ts as [|t ts IH]; intros s Hb; [done|].
  cbn [turns foldl]. apply IH. by apply turn_bounded.
Qed.

End CheckMatch.

(** C5 as stated fails on the incorrect path: the wrong letter "x" moves
    the score of "a" from 0 to -1, and [parent.saveProgress()] is not
    called during the call. *)
Lemma checkMatch_wrong_without_saveProgress :
  ~ (forall cfg course typedLetter shuffled s,
       let s' := GameSpace.checkMatch cfg course typedLetter shuffled s in
       GameSpace.letterScoreDict s' <> GameSpace.letterScoreDict s ->
       exists d' before after,
         GameSpace.effects s' =
           GameSpace.effects s ++ before ++ GameSpace.SaveProgress d' :: after).
Proof.
  intros H.
  destruct (H Sample.cfg Sample.abcCourse "x" [] Sample.abcStart)
    as (d' & before & after & E).
  - intros E. apply (f_equal (fun d => d !! "a")) in E. vm_compute in E. discriminate.
  - assert (Hlog : exists d1,
               GameSpace.effects
                 (GameSpace.checkMatch Sample.cfg Sample.abcCourse "x" []
                    Sample.abcStart)
               = [GameSpace.SaveLetters d1]) by (eexists; vm_compute; reflexivity).
    destruct Hlog as [d1 Hlog]. rewrite Hlog in E.
    change (GameSpace.effects Sample.abcStart) with (@nil GameSpace.Effect) in E.
    destruct before as [|e [|e' before]]; discriminate.
Qed.

(** Six wrong letters in a row, each call run to its end: the score of
    "a" goes down to -4 and stays there. *)
Lemma scores_stay_bounded_witness :
  let ts := replicate 6 (GameSpace.Typed "x" []) in
  (forall l, l ∈ GameSpace.lettersToLearn Sample.abcCourse ->
             bounded Sample.cfg (GameSpace.letterScoreDict Sample.abcStart !! l)) /\
  bounded Sample.cfg
    (GameSpace.letterScoreDict
       (GameSpace.turns Sample.cfg Sample.abcCourse (take 6 ts) Sample.abcStart)
     !! "a") /\
  GameSpace.letterScoreDict
    (GameSpace.turns Sample.cfg Sample.abcCourse (take 6 ts) Sample.abcStart)
  !! "a" = Some (Js.Num (-4)).
Proof.
  intros ts.
  assert (Hstart : forall l, l ∈ GameSpace.lettersToLearn Sample.abcCourse ->
             bounded Sample.cfg (GameSpace.letterScoreDict Sample.abcStart !! l)).
  { intros l Hl. exists 0. split; [|by vm_compute].
    repeat (apply elem_of_cons in Hl as [->|Hl]; [by vm_compute|]).
    by apply elem_of_nil in Hl. }
  split; [exact Hstart|]. split.
  - apply (scores_stay_bounded Sample.cfg Sample.abcCourse ts Sample.abcStart
             Hstart 6 "a").
    by_evaluation.
  - vm_compute. reflexivity.
Defined.

(** ** The input gate *)

Section Gate.
Import GameSpace.
Variables (cfg : Config) (course : Course).

(** The function [checkMatch] above is the call run on its own, with
    speech assistance on or off. *)
Lemma checkMatch_alone speech typedLetter shuffled s :
  checkMatch cfg course typedLetter shuffled s =
  alone cfg course shuffled 2 (submit speech cfg course typedLetter shuffled s).
Proof.
  unfold checkMatch, submit. destruct (inputReady s); cbn [negb]; [|done].
  generalize (set_inputReady false s). clear s. intros s.
  unfold checkMatchBody, piece, mbind, M_bind.
  destruct (expected s) as [[i letter] s1|s1]; [|done].
  case_bool_decide.
  - destruct (gotCorrect cfg i letter s1) as [[] s2|s2]; [|done].
    assert (Hrest : forall n,
      set_inputReady true
        (stateOf
           (match advance cfg course shuffled i s2 with
            | Ok next s3 =>
                match next with
                | Some (j, letter0) => hintNext cfg j letter0
                | None => mret ()
                end s3
            | Threw s3 => Threw s3
            end))
      = alone cfg course shuffled (S n) (afterPlayCorrect cfg course shuffled i s2)).
    { intros n. unfold afterPlayCorrect, piece, finish, suspend.
      destruct (advance cfg course shuffled i s2) as [[[j letter0]|] s3|s3];
        [|done|done].
      cbn [alone resume]. unfold piece, finish.
      by destruct (hintNext cfg j letter0 s3), n. }
    destruct speech; [exact (Hrest 0%nat)|exact (Hrest 1%nat)].
  - destruct (gotWrong letter s1) as [[] s2|s2]; [|done].
    assert (Hrest : forall n,
      set_inputReady true
        (stateOf
           (match retry cfg letter s2 with
            | Ok _ s3 => hintAgain i s3
            | Threw s3 => Threw s3
            end))
      = alone cfg course shuffled (S n) (afterPlayWrong cfg i letter s2)).
    { intros n. unfold afterPlayWrong, piece, suspend.
      destruct (retry_run cfg letter s2) as (s3 & -> & _).
      cbn [alone resume]. unfold piece, finish.
      by destruct (hintAgain i s3), n. }
    destruct speech; [exact (Hrest 0%nat)|exact (Hrest 1%nat)].
Qed.

(** The gate, closed: [checkMatch] returns at once, and the state, all of
    it, is what it was. *)
Lemma checkMatch_gate_closed typedLetter shuffled s :
  inputReady s = false ->
  checkMatch cfg course typedLetter shuffled s = s.
Proof. intros Hgate. unfold checkMatch. by rewrite Hgate. Qed.

(** The same among overlapping calls: a submission that finds the gate
    closed changes neither the state nor the calls under way. *)
Lemma submit_gate_closed speech typedLetter shuffled x :
  inputReady (store x) = false ->
  step speech cfg course (Submit typedLetter shuffled) x = x.
Proof.
  intros Hgate. destruct x as [s cs]. simpl in *.
  unfold submit. rewrite Hgate. simpl. by rewrite app_nil_r.
Qed.


Lemma evaluating_none x :
  evaluating x = 0%nat <-> Forall (fun t => inEvaluation t = false) (calls x).
Proof.
  unfold evaluating. induction (calls x) as [|t cs IH]; simpl.
  - split; [constructor|done].
  - rewrite Forall_cons. destruct (inEvaluation t); simpl.
    + split; [done|]. by intros [? _].
    + rewrite IH. split; [by intros ?; split|by intros [_ ?]].
Qed.

(** A call that is resumed does not close the gate again. *)
Lemma resume_not_evaluating shuffled t s t' :
  (resume cfg course shuffled t s).2 = Some t' -> inEvaluation t' = false.
Proof.
  destruct t; simpl;
    unfold afterPlayCorrect, afterPlayWrong, piece, finish, suspend;
    repeat case_match; simpl; by intros [= <-].
Qed.

(** Without speech assistance a submission is evaluated without a
    delay. *)
Lemma submit_not_evaluating typedLetter shuffled s t :
  (submit false cfg course typedLetter shuffled s).2 = Some t ->
  inEvaluation t = false.
Proof.
  unfold submit, afterPlayCorrect, afterPlayWrong, piece, finish, suspend.
  repeat case_match; simpl; by intros [= <-].
Qed.

Lemma step_not_evaluating e x :
  Forall (fun t => inEvaluation t = false) (calls x) ->
  Forall (fun t => inEvaluation t = false) (calls (step false cfg course e x)).
Proof.
  intros Hx. destruct e as [typedLetter shuffled|k shuffled|]; simpl; [| |done].
  - pose proof (submit_not_evaluating typedLetter shuffled (store x)) as Ht.
    destruct (submit _ _ _ _ _ _) as [s [t|]]; simpl in *.
    + apply Forall_app. split; [done|]. constructor; [by apply Ht|constructor].
    + by rewrite app_nil_r.
  - destruct (calls x !! k) as [t|] eqn:Hk; [|done].
    pose proof (resume_not_evaluating shuffled t (store x)) as Ht.
    destruct (resume _ _ _ _ _) as [s [t'|]]; simpl in *.
    + apply Forall_app. split; [by apply Forall_take|].
      constructor; [by apply Ht|by apply Forall_drop].
    + apply Forall_app. split; [by apply Forall_take|by apply Forall_drop].
Qed.

(** Where calls cannot overlap: with speech assistance off no
    call ever waits with the gate closed, so no two are evaluated at a
    time. *)
Lemma no_overlap_without_speech es x :
  evaluating x = 0%nat -> evaluating (run false cfg course es x) = 0%nat.
Proof.
  rewrite !evaluating_none. revert x.
  induction es as [|e es IH]; intros x Hx; [done|].
  simpl. by apply IH, step_not_evaluating.
Qed.

(** *** The bounds of the scores among overlapping calls *)

Lemma boundedUpTo_0 v : boundedUpTo cfg 0 v <-> bounded cfg v.
Proof. unfold boundedUpTo, bounded. by rewrite Z.sub_0_r. Qed.

Lemma boundedUpTo_correct p letter d k :
  boundedUpTo cfg p (d !! k) ->
  boundedUpTo cfg p (clampAbove cfg letter (addTo letter 1 d) !! k).
Proof.
  intros (z & Hz & Hb). unfold clampAbove, addTo, boundedUpTo, Js.within.
  destruct (decide (propKey letter = k)) as [->|Hne].
  - rewrite lookup_insert_eq, Hz. simpl.
    destruct (Z.ltb_spec (LEARNED_THRESHOLD cfg + 2) (z + 1)).
    + rewrite lookup_insert_eq. eexists. split; [done|lia].
    + rewrite lookup_insert_eq. eexists. split; [done|lia].
  - destruct (Js.gt _ _); rewrite !lookup_insert_ne by done; eauto.
Qed.

Lemma boundedUpTo_wrong p i letter d k :
  boundedUpTo cfg p (d !! k) ->
  boundedUpTo cfg (p + pendingClamps k [AtPlayWrong i letter])
    (addTo letter (-1) d !! k).
Proof.
  intros (z & Hz & Hb). unfold addTo, boundedUpTo, Js.within, pendingClamps.
  cbn [List.filter awaitsClamp].
  case_bool_decide as Hk; cbn [length].
  - subst k. rewrite lookup_insert_eq, Hz. simpl. eexists. split; [done|lia].
  - rewrite lookup_insert_ne by done. exists z. split; [done|lia].
Qed.

Lemma boundedUpTo_clamp p i letter d k :
  0 <= LEARNED_THRESHOLD cfg + 2 ->
  boundedUpTo cfg (p + pendingClamps k [AtPlayWrong i letter]) (d !! k) ->
  boundedUpTo cfg p (clampBelow cfg letter d !! k).
Proof.
  intros HT (z & Hz & Hb). revert Hb.
  unfold clampBelow, boundedUpTo, Js.within, pendingClamps.
  cbn [List.filter awaitsClamp].
  case_bool_decide as Hk; cbn [length]; intros Hb.
  - subst k. rewrite Hz. simpl.
    destruct (Z.ltb_spec z (- LEARNED_THRESHOLD cfg - 2)).
    + rewrite lookup_insert_eq. eexists. split; [done|lia].
    + exists z. split; [done|lia].
  - destruct (Js.lt _ _); rewrite ?lookup_insert_ne by done;
      exists z; (split; [done|lia]).
Qed.

Lemma boundedUpTo_wrong_clamped p letter d k :
  0 <= LEARNED_THRESHOLD cfg + 2 ->
  boundedUpTo cfg p (d !! k) ->
  boundedUpTo cfg p (clampBelow cfg letter (addTo letter (-1) d) !! k).
Proof.
  intros HT Hb. apply (boundedUpTo_clamp p 0%nat letter); [done|].
  by apply boundedUpTo_wrong.
Qed.

Lemma pendingClamps_app k cs1 cs2 :
  pendingClamps k (cs1 ++ cs2) = (pendingClamps k cs1 + pendingClamps k cs2)%nat.
Proof. unfold pendingClamps. by rewrite List.filter_app, length_app. Qed.

Lemma pendingClamps_none k (t : option Task) :
  from_option (awaitsClamp k) false t = false ->
  pendingClamps k (option_list t) = 0%nat.
Proof. destruct t as [t|]; [|done]. unfold pendingClamps. simpl. by intros ->. Qed.

Lemma pendingClamps_at_rest k x :
  evaluating x = 0%nat -> pendingClamps k (calls x) = 0%nat.
Proof.
  rewrite evaluating_none. unfold pendingClamps.
  induction 1 as [|t cs Ht _ IH]; [done|].
  cbn [List.filter]. by destruct t.
Qed.

(** What a submission does to the scores, and whether the call it leaves
    still has a score to clamp. *)
Lemma submit_scores speech typedLetter shuffled s :
  let r := submit speech cfg course typedLetter shuffled s in
  let d := letterScoreDict s in
  (letterScoreDict r.1 = d /\ forall k, from_option (awaitsClamp k) false r.2 = false) \/
  (letterScoreDict r.1 =
     clampAbove cfg (Some typedLetter) (addTo (Some typedLetter) 1 d) /\
   forall k, from_option (awaitsClamp k) false r.2 = false) \/
  (exists i letter,
     letterScoreDict r.1 = addTo letter (-1) d /\ r.2 = Some (AtPlayWrong i letter)) \/
  (exists letter,
     letterScoreDict r.1 = clampBelow cfg letter (addTo letter (-1) d) /\
     forall k, from_option (awaitsClamp k) false r.2 = false).
Proof.
  intros r d. subst r d. unfold submit.
  destruct (inputReady s); cbn [negb]; [|left; by split].
  set (s0 := set_inputReady false s).
  assert (Hd0 : letterScoreDict s0 = letterScoreDict s) by done.
  clearbody s0. rewrite <- Hd0. clear Hd0 s.
  unfold piece, afterPlayCorrect, afterPlayWrong, piece, suspend, finish.
  destruct (expected_run s0) as [(i & letter & ->)| ->]; [|left; by split].
  case_bool_decide as Hl.
  - subst letter.
    pose proof (gotCorrect_run cfg i (Some typedLetter) s0) as Hrun.
    destruct (gotCorrect _ _ _ _) as [[] s1|s1];
      [|left; split; [apply Hrun|done]].
    destruct Hrun as [Hd _]. right; left. rewrite <- Hd.
    destruct speech; [by split|].
    pose proof (advance_scores cfg course shuffled i s1) as Hs.
    unfold sameScores in Hs.
    destruct (advance _ _ _ _ _) as [[[j l]|] s2|s2]; by split.
  - pose proof (gotWrong_run letter s0) as Hrun.
    destruct (gotWrong _ _) as [[] s1|s1];
      [|left; split; [apply Hrun|done]].
    destruct Hrun as [Hd _].
    destruct speech.
    + right; right; left. by exists i, letter.
    + right; right; right. exists letter.
      destruct (retry_run cfg letter s1) as (s2 & -> & Hd2 & _).
      split; [|done]. simpl. by rewrite Hd2, Hd.
Qed.

(** What the end of a delay does to the scores. *)
Lemma resume_scores shuffled t s :
  let r := resume cfg course shuffled t s in
  (forall k, from_option (awaitsClamp k) false r.2 = false) /\
  match t with
  | AtPlayWrong i letter =>
      letterScoreDict r.1 = clampBelow cfg letter (letterScoreDict s)
  | _ => letterScoreDict r.1 = letterScoreDict s
  end.
Proof.
  destruct t as [i|i letter|j letter|i]; cbn [resume].
  - unfold afterPlayCorrect, piece.
    pose proof (advance_scores cfg course shuffled i s) as Hs.
    unfold sameScores in Hs.
    destruct (advance _ _ _ _ _) as [[[j l]|] s2|s2]; by split.
  - unfold afterPlayWrong, piece.
    destruct (retry_run cfg letter s) as (s2 & -> & Hd2 & _). by split.
  - unfold piece, finish.
    pose proof (hintNext_scores cfg j letter s) as Hs. unfold sameScores in Hs.
    destruct (hintNext _ _ _ _); by split.
  - unfold piece, finish.
    pose proof (hintAgain_scores i s) as Hs. unfold sameScores in Hs.
    destruct (hintAgain _ _); by split.
Qed.

(** Each event keeps every score at most [T + 2], and below [-(T + 2)]
    by no more than the number of calls that still have it to clamp. *)
Lemma step_boundedUpTo speech e x k :
  0 <= LEARNED_THRESHOLD cfg + 2 ->
  boundedUpTo cfg (pendingClamps k (calls x)) (letterScoreDict (store x) !! k) ->
  boundedUpTo cfg (pendingClamps k (calls (step speech cfg course e x)))
    (letterScoreDict (store (step speech cfg course e x)) !! k).
Proof.
  intros HT Hx. destruct e as [typedLetter shuffled|n shuffled|]; cbn [step].
  - pose proof (submit_scores speech typedLetter shuffled (store x)) as Hsub.
    destruct (submit _ _ _ _ _ _) as [s t]. cbn [store calls fst snd] in *.
    rewrite pendingClamps_app.
    destruct Hsub as [[-> Ht]|[[-> Ht]|[(i & letter & -> & ->)|(letter & -> & Ht)]]].
    + rewrite pendingClamps_none by done. by rewrite Nat.add_0_r.
    + rewrite pendingClamps_none by done. rewrite Nat.add_0_r.
      by apply boundedUpTo_correct.
    + by apply boundedUpTo_wrong.
    + rewrite pendingClamps_none by done. rewrite Nat.add_0_r.
      by apply boundedUpTo_wrong_clamped.
  - destruct (calls x !! n) as [t|] eqn:Hn; [|done].
    pose proof (resume_scores shuffled t (store x)) as [Ht' Hd].
    destruct (resume _ _ _ _ _) as [s t']. cbn [store calls fst snd] in *.
    rewrite <- (take_drop_middle _ _ _ Hn) in Hx.
    rewrite pendingClamps_app in Hx.
    change (t :: drop (S n) (calls x)) with ([t] ++ drop (S n) (calls x)) in Hx.
    rewrite pendingClamps_app in Hx.
    rewrite !pendingClamps_app, pendingClamps_none by done. cbn [Nat.add].
    destruct t as [i|i letter|j letter|i]; rewrite Hd.
    + by rewrite Nat.add_0_l in Hx.
    + apply (boundedUpTo_clamp _ i letter); [done|].
      replace (pendingClamps k (take n (calls x)) + pendingClamps k (drop (S n) (calls x))
               + pendingClamps k [AtPlayWrong i letter])%nat
        with (pendingClamps k (take n (calls x))
              + (pendingClamps k [AtPlayWrong i letter]
                 + pendingClamps k (drop (S n) (calls x))))%nat by lia.
      exact Hx.
    + by rewrite Nat.add_0_l in Hx.
    + by rewrite Nat.add_0_l in Hx.
  - cbn [store calls]. by rewrite fireAddLetters_scores.
Qed.

(** The bounds among overlapping calls: from a session in which no call
    is under way, whenever no call is being evaluated the score of a
    letter that started within the bounds is within the bounds. *)
Lemma scores_bounded_at_rest speech es s k :
  bounded cfg (letterScoreDict s !! k) ->
  let x := run speech cfg course es {| store := s; calls := [] |} in
  evaluating x = 0%nat ->
  bounded cfg (letterScoreDict (store x) !! k).
Proof.
  intros Hb x Hrest.
  assert (HT : 0 <= LEARNED_THRESHOLD cfg + 2).
  { destruct Hb as (z & _ & Hz). lia. }
  assert (Hinv : boundedUpTo cfg (pendingClamps k (calls x))
                   (letterScoreDict (store x) !! k)).
  { subst x. clear Hrest.
    assert (H0 : boundedUpTo cfg (pendingClamps k (calls {| store := s; calls := [] |}))
                   (letterScoreDict (store {| store := s; calls := [] |}) !! k))
      by by apply boundedUpTo_0.
    revert H0. generalize {| store := s; calls := [] |}.
    induction es as [|e es IH]; intros x0 H0; [done|].
    cbn [run foldl]. apply IH. by apply step_boundedUpTo. }
  apply boundedUpTo_0.
  by rewrite (pendingClamps_at_rest k x Hrest) in Hinv.
Qed.

End Gate.

(** C8 with speech assistance on.  The word under the cursor is "cab"
    and its letters are learned, so no hint follows a correct letter.
    "c" is submitted: its call waits for the correct-sound with the gate
    closed, then opens the gate and waits for the name of the next letter
    to be spoken.  "a" is submitted, finds the gate open, closes it and
    waits for the correct-sound: it is being evaluated.  The first call
    is resumed and ends, and its [finally] sets [inputReady] to true.
    "b" is submitted, finds the gate open and is evaluated as well: it
    moves the cursor and the score of "b" while the call for "a" is
    still being evaluated. *)
Theorem overlapping_evaluations :
  let x0 :=
    {| GameSpace.store :=
         Sample.session ["a"; "b"; "c"] ["cab"; "ab"; "cab"]
           (Sample.scores [("a", 2); ("b", 2); ("c", 2); ("d", 0)]);
       GameSpace.calls := [] |} in
  let go := fun es => GameSpace.run true Sample.cfg Sample.abcCourse es x0 in
  let c := GameSpace.Submit "c" [] in
  let a := GameSpace.Submit "a" [] in
  let b := GameSpace.Submit "b" [] in
  let delayOver := GameSpace.Resume 0 [] in
  (GameSpace.calls (go [c]) = [GameSpace.AtPlayCorrect 0] /\
   GameSpace.inputReady (GameSpace.store (go [c])) = false) /\
  (GameSpace.calls (go [c; delayOver]) = [GameSpace.AtPlayLetter 0 (Some "a")] /\
   GameSpace.inputReady (GameSpace.store (go [c; delayOver])) = true) /\
  (GameSpace.calls (go [c; delayOver; a])
     = [GameSpace.AtPlayLetter 0 (Some "a"); GameSpace.AtPlayCorrect 0] /\
   GameSpace.inputReady (GameSpace.store (go [c; delayOver; a])) = false) /\
  (GameSpace.calls (go [c; delayOver; a; delayOver]) = [GameSpace.AtPlayCorrect 0] /\
   GameSpace.inputReady (GameSpace.store (go [c; delayOver; a; delayOver])) = true /\
   GameSpace.letterScoreDict
     (GameSpace.store (go [c; delayOver; a; delayOver])) !! "b"
     = Some (Js.Num 2)) /\
  (GameSpace.evaluating (go [c; delayOver; a; delayOver; b]) = 2%nat /\
   GameSpace.letterScoreDict
     (GameSpace.store (go [c; delayOver; a; delayOver; b])) !! "b"
     = Some (Js.Num 3)).
Proof. cbv zeta. split_and!; vm_compute; reflexivity. Qed.

(** C6 with speech assistance on.  Four wrong letters, each call left
    to end, take the score of "a" from 0 to -4, the lower bound.  A
    fifth wrong letter is submitted: its call takes the score to -5 and
    waits for the wrong-sound; when that delay is over it clamps the
    score to -4, opens the gate and waits for its hints.  A sixth wrong
    letter finds the gate open, takes the score to -5 and waits for the
    wrong-sound.  Now the fifth call is resumed and ends: a call has
    completed, and the score of "a" is -5, below the bound.  Its
    [finally] has opened the gate, so a seventh wrong letter is
    evaluated too and takes the score to -6. *)
Theorem scores_leave_bounds_among_calls :
  let x0 := {| GameSpace.store := Sample.abcStart; GameSpace.calls := [] |} in
  let wrong := GameSpace.Submit "x" [] in
  let delayOver := GameSpace.Resume 0 [] in
  let toTheBound := concat (replicate 4 [wrong; delayOver; delayOver]) in
  let go := fun es =>
    GameSpace.run true Sample.cfg Sample.abcCourse (toTheBound ++ es) x0 in
  let scoreOfA := fun x =>
    GameSpace.letterScoreDict (GameSpace.store x) !! "a" in
  (forall l, l ∈ GameSpace.lettersToLearn Sample.abcCourse ->
             bounded Sample.cfg (GameSpace.letterScoreDict Sample.abcStart !! l)) /\
  (GameSpace.calls (go []) = [] /\ scoreOfA (go []) = Some (Js.Num (-4))) /\
  (GameSpace.calls (go [wrong]) = [GameSpace.AtPlayWrong 0 (Some "a")] /\
   scoreOfA (go [wrong]) = Some (Js.Num (-5))) /\
  (GameSpace.calls (go [wrong; delayOver]) = [GameSpace.AtRetryHints 0] /\
   scoreOfA (go [wrong; delayOver]) = Some (Js.Num (-4))) /\
  (GameSpace.calls (go [wrong; delayOver; wrong])
     = [GameSpace.AtRetryHints 0; GameSpace.AtPlayWrong 0 (Some "a")] /\
   scoreOfA (go [wrong; delayOver; wrong]) = Some (Js.Num (-5))) /\
  (GameSpace.calls (go [wrong; delayOver; wrong; delayOver])
     = [GameSpace.AtPlayWrong 0 (Some "a")] /\
   GameSpace.inputReady (GameSpace.store (go [wrong; delayOver; wrong; delayOver])) = true /\
   scoreOfA (go [wrong; delayOver; wrong; delayOver]) = Some (Js.Num (-5)) /\
   ~ bounded Sample.cfg (scoreOfA (go [wrong; delayOver; wrong; delayOver]))) /\
  scoreOfA (go [wrong; delayOver; wrong; delayOver; wrong]) = Some (Js.Num (-6)).
Proof.
  cbv zeta. split.
  { intros l Hl. exists 0. split; [|by vm_compute].
    repeat (apply elem_of_cons in Hl as [->|Hl]; [by vm_compute|]).
    by apply elem_of_nil in Hl. }
  split_and!; try (vm_compute; reflexivity).
  intros (z & Hz & Hlow & _).
  assert (Hscore : GameSpace.letterScoreDict
                     (GameSpace.store
                        (GameSpace.run true Sample.cfg Sample.abcCourse
                           (concat (replicate 4
                              [GameSpace.Submit "x" []; GameSpace.Resume 0 [];
                               GameSpace.Resume 0 []]) ++
                            [GameSpace.Submit "x" []; GameSpace.Resume 0 [];
                             GameSpace.Submit "x" []; GameSpace.Resume 0 []])
                           {| GameSpace.store := Sample.abcStart;
                              GameSpace.calls := [] |})) !! "a"
                   = Some (Js.Num (-5))) by (vm_compute; reflexivity).
  rewrite Hscore in Hz. injection Hz as <-. vm_compute in Hlow. by apply Hlow.
Qed.

(** ** playHints *)

Section Hints.
Import GameSpace.

Lemma playHints_rem letter m :
  0 <= m -> playHints letter m = cues (next m) letter.
Proof.
  intros Hm. unfold playHints, next. rewrite Z.rem_mod_nonneg by lia.
  pose proof (Z.mod_pos_bound m 4 ltac:(lia)) as Hb.
  destruct (Z.eqb_spec (m mod 4) 0) as [E0|E0];
    [by rewrite bool_decide_eq_true_2|rewrite (bool_decide_eq_false_2 _ E0)].
  destruct (Z.eqb_spec (m mod 4) 1) as [E1|E1];
    [by rewrite bool_decide_eq_true_2|rewrite (bool_decide_eq_false_2 _ E1)].
  destruct (Z.eqb_spec (m mod 4) 2) as [E2|E2];
    [by rewrite bool_decide_eq_true_2|rewrite (bool_decide_eq_false_2 _ E2)].
  destruct (Z.eqb_spec (m mod 4) 3) as [E3|E3]; [done|lia].
Qed.

(** C7.  For a mistake count that is not negative, what [playHints] plays
    is the tier of the count modulo 4: both cues for 0, none for 1, the
    Morse replay for 2, the mnemonic for 3; so two counts with the same
    remainder get the same hint, and the counts 0, 1 and 5 get the full
    hint, none and none. *)
Theorem playHints_tier letter m :
  0 <= m ->
  playHints letter m = cues (next m) letter /\
  (m mod 4 = 0 -> playHints letter m = [PlayMorse letter; PlayLetterSoundAlike letter]) /\
  (m mod 4 = 1 -> playHints letter m = []) /\
  (m mod 4 = 2 -> playHints letter m = [PlayMorse letter]) /\
  (m mod 4 = 3 -> playHints letter m = [PlayLetterSoundAlike letter]) /\
  (forall m', 0 <= m' -> m mod 4 = m' mod 4 -> playHints letter m = playHints letter m') /\
  next 0 = Full /\ next 1 = NoHint /\ next 5 = NoHint.
Proof.
  intros Hm. rewrite (playHints_rem letter m Hm). split_and!; try done.
  - intros H. unfold next. by rewrite H.
  - intros H. unfold next. by rewrite H.
  - intros H. unfold next. by rewrite H.
  - intros H. unfold next. by rewrite H.
  - intros m' Hm' H. rewrite (playHints_rem letter m' Hm'). unfold next. by rewrite H.
Qed.

End Hints.

(** C7 at the fifth mistake in a row: no hint. *)
Lemma playHints_tier_witness :
  0 <= 5 /\ GameSpace.playHints (Some "a") 5 = [].
Proof.
  split; [lia|].
  destruct (playHints_tier (Some "a") 5 ltac:(lia)) as (_ & _ & H1 & _).
  exact (H1 eq_refl).
Defined.

(** ** The two progress percentages agree *)

Section Percent.
Import Progress.

Lemma foldl_sum {A} (g : A -> Z) (l : list A) (a : Z) :
  foldl (fun acc v => acc + g v) a l = a + foldr (fun v acc => g v + acc) 0 l.
Proof.
  revert a. induction l as [|v l IH]; intros a; simpl; [lia|].
  rewrite IH. lia.
Qed.

Lemma reduceScores_sum (m : gmap string Js.num) :
  reduceScores (map_to_list m).*2 = sumOfScores m.
Proof.
  unfold reduceScores, sumOfScores. rewrite foldl_sum, map_fold_foldr.
  rewrite Z.add_0_l.
  induction (map_to_list m) as [|[k v] l IH]; [done|].
  cbn [fmap list_fmap foldr snd uncurry]. rewrite <- IH. by destruct v.
Qed.

Lemma entries_length (m : gmap string Js.num) :
  length (map_to_list m).*1 = size m.
Proof. by rewrite length_fmap, length_map_to_list. Qed.


End Percent.



(** ** handleInput *)

Section Practice.
Import PracticeState.

Lemma judge_fields letter expected s :
  sessionPhrases (judge letter expected s) = sessionPhrases s /\
  currentPhraseIndex (judge letter expected s) = currentPhraseIndex s /\
  currentCharIndex (judge letter expected s) = currentCharIndex s /\
  sessionComplete (judge letter expected s) = sessionComplete s /\
  totalErrors (judge letter expected s) =
    totalErrors s + (if bool_decide (letter = String expected EmptyString) then 0 else 1).
Proof.
  unfold judge. case_bool_decide; simpl; destruct (have_audio s); simpl;
    split_and!; try done; lia.
Qed.

(** One accepted input. *)
Lemma handleInput_step letter s :
  accepted s ->
  exists expected,
    getCurrentTarget s !! currentCharIndex s = Some expected /\
    let s1 := moveOn (judge letter expected s) in
    handleInput letter s =
      (if (length (getCurrentTarget s) <=? S (currentCharIndex s))%nat
       then advancePhrase s1 else s1) /\
    sessionPhrases s1 = sessionPhrases s /\
    currentPhraseIndex s1 = currentPhraseIndex s /\
    currentCharIndex s1 = S (currentCharIndex s) /\
    sessionComplete s1 = false /\
    totalErrors s1 =
      totalErrors s + (if bool_decide (letter = String expected EmptyString) then 0 else 1) /\
    last (effects s1) =
      Some (RenderPhrase (currentPhraseIndex s) (S (currentCharIndex s)) (totalErrors s1)).
Proof.
  intros [Hgo Hlt].
  destruct (lookup_lt_is_Some_2 _ _ Hlt) as [expected Hexp].
  exists expected. split; [done|]. intros s1.
  destruct (judge_fields letter expected s) as (Hp & Hi & Hc & Hs & He).
  split_and!.
  - unfold handleInput. rewrite Hgo, Hexp.
    rewrite bool_decide_eq_false_2; [|intros E; rewrite E in Hlt; simpl in Hlt; lia].
    fold s1.
    replace (currentCharIndex s1) with (S (currentCharIndex s)); [done|].
    subst s1. simpl. by rewrite Hc.
  - done.
  - done.
  - simpl. by rewrite Hc.
  - simpl. by rewrite Hs.
  - done.
  - subst s1. unfold moveOn, renderPhrase, emit. simpl.
    rewrite last_snoc. by rewrite Hi, Hc.
Qed.

Lemma advancePhrase_fields s :
  sessionPhrases (advancePhrase s) = sessionPhrases s /\
  currentPhraseIndex (advancePhrase s) = S (currentPhraseIndex s) /\
  currentCharIndex (advancePhrase s) = 0%nat /\
  totalErrors (advancePhrase s) = totalErrors s.
Proof. unfold advancePhrase. simpl. by case_match. Qed.

(** The letters still to come, from an accepted state: the phrase stays
    the current one while letters are missing and is completed by the last
    of them. *)
Lemma typeAll_rest letters s :
  accepted s ->
  (length letters <= length (getCurrentTarget s) - currentCharIndex s)%nat ->
  let s' := typeAll letters s in
  let rest := drop (currentCharIndex s) (getCurrentTarget s) in
  totalErrors s' = totalErrors s + mismatches letters rest /\
  ((length letters < length rest)%nat ->
     accepted s' /\
     sessionPhrases s' = sessionPhrases s /\
     currentPhraseIndex s' = currentPhraseIndex s /\
     currentCharIndex s' = (currentCharIndex s + length letters)%nat) /\
  (length letters = length rest ->
     currentPhraseIndex s' = S (currentPhraseIndex s) /\
     currentCharIndex s' = 0%nat).
Proof.
  revert s. induction letters as [|letter letters IH]; intros s Hacc Hlen s' rest.
  - subst s' rest. simpl. rewrite length_drop. destruct Hacc as [Hgo Hlt].
    split_and!; [lia| |lia]. intros _.
    split_and!; [by split|done|done|lia].
  - subst s'. cbn [typeAll foldl]. fold (typeAll letters (handleInput letter s)).
    destruct (handleInput_step letter s Hacc)
      as (expected & Hexp & Hstep & Hp & Hi & Hc & Hs & He & _).
    assert (Hrest : rest = expected :: drop (S (currentCharIndex s)) (getCurrentTarget s)).
    { subst rest. by apply drop_S. }
    simpl in Hlen. destruct Hacc as [Hgo Hlt].
    destruct (Nat.leb_spec (length (getCurrentTarget s)) (S (currentCharIndex s)))
      as [Hlast|Hmore].
    + (* the letter completes the phrase: no letter may follow *)
      destruct letters; [|simpl in Hlen; lia].
      rewrite Hstep. cbn [typeAll foldl].
      destruct (advancePhrase_fields (moveOn (judge letter expected s)))
        as (_ & Hi' & Hc' & He').
      rewrite Hrest. cbn [mismatches length]. rewrite length_drop.
      split_and!; [rewrite He', He; lia|lia|].
      intros _. by rewrite Hi', Hc', Hi.
    + (* letters are still missing *)
      rewrite Hstep.
      set (s1 := moveOn (judge letter expected s)) in *.
      assert (Htarget : getCurrentTarget s1 = getCurrentTarget s).
      { unfold getCurrentTarget, getCurrentPhrase. by rewrite Hp, Hi. }
      assert (Hacc1 : accepted s1).
      { split; [done|]. rewrite Htarget, Hc. lia. }
      destruct (IH s1 Hacc1) as (Herr & Hmid & Hend).
      { rewrite Htarget, Hc. lia. }
      rewrite Htarget, Hc in Herr, Hmid, Hend.
      rewrite Hrest. cbn [mismatches length].
      rewrite length_drop in *.
      split_and!.
      * rewrite Herr, He. lia.
      * intros Hl. destruct Hmid as (Ha & Hp' & Hi' & Hc'); [lia|].
        split_and!; [done|congruence|congruence|lia].
      * intros Hl. destruct Hend as (Hi' & Hc'); [lia|].
        split; [congruence|done].
Qed.

(** C10.  An input that is accepted moves [currentCharIndex] on by one,
    right or wrong: that is the index the phrase is rendered with, and the
    index left in the state unless the phrase is complete, in which case
    the next phrase starts at 0.  A wrong input adds one to
    [totalErrors], a right one nothing.  Hence, from the start of a phrase
    whose normalized target has [n] characters, fewer than [n] inputs
    leave the phrase unfinished and [n] inputs complete it. *)
Theorem handleInput_advances letter s :
  accepted s ->
  let n := length (getCurrentTarget s) in
  let s' := handleInput letter s in
  (exists expected,
      getCurrentTarget s !! currentCharIndex s = Some expected /\
      totalErrors s' =
        totalErrors s + (if bool_decide (letter = String expected EmptyString) then 0 else 1) /\
      RenderPhrase (currentPhraseIndex s) (S (currentCharIndex s)) (totalErrors s')
        ∈ effects s') /\
  ((S (currentCharIndex s) < n)%nat ->
     currentPhraseIndex s' = currentPhraseIndex s /\
     currentCharIndex s' = S (currentCharIndex s)) /\
  (S (currentCharIndex s) = n ->
     currentPhraseIndex s' = S (currentPhraseIndex s) /\
     currentCharIndex s' = 0%nat) /\
  (currentCharIndex s = 0%nat ->
   forall letters,
     let errors := mismatches letters (getCurrentTarget s) in
     ((length letters < n)%nat ->
        currentPhraseIndex (typeAll letters s) = currentPhraseIndex s /\
        currentCharIndex (typeAll letters s) = length letters /\
        totalErrors (typeAll letters s) = totalErrors s + errors) /\
     (length letters = n ->
        currentPhraseIndex (typeAll letters s) = S (currentPhraseIndex s) /\
        currentCharIndex (typeAll letters s) = 0%nat /\
        totalErrors (typeAll letters s) = totalErrors s + errors)).
Proof.
  intros Hacc n s'. subst n.
  destruct (handleInput_step letter s Hacc)
    as (expected & Hexp & Hstep & Hp & Hi & Hc & Hs & He & Hlast).
  set (s1 := moveOn (judge letter expected s)) in *.
  destruct (advancePhrase_fields s1) as (_ & Hi' & Hc' & He').
  assert (Hlog : exists l, effects s' = effects s1 ++ l).
  { subst s'. rewrite Hstep.
    destruct (_ <=? _)%nat; [|exists []; by rewrite app_nil_r].
    unfold advancePhrase. cbn [sessionPhrases currentPhraseIndex].
    destruct (_ <=? _)%nat; simpl; eexists; by rewrite <- ?app_assoc. }
  assert (Herr : totalErrors s' = totalErrors s1).
  { subst s'. rewrite Hstep. by destruct (_ <=? _)%nat. }
  split_and!.
  - exists expected. split_and!; [done|by rewrite Herr|].
    destruct Hlog as [l ->]. rewrite Herr. apply elem_of_app. left.
    apply last_Some in Hlast as [l' ->]. apply elem_of_app. right.
    apply list_elem_of_here.
  - intros Hlt. subst s'. rewrite Hstep.
    destruct (Nat.leb_spec (length (getCurrentTarget s)) (S (currentCharIndex s)));
      [lia|by split].
  - intros Hn. subst s'. rewrite Hstep.
    destruct (Nat.leb_spec (length (getCurrentTarget s)) (S (currentCharIndex s)));
      [|lia].
    by rewrite Hi', Hc', Hi.
  - intros Hzero letters errors.
    assert (Hdrop : drop (currentCharIndex s) (getCurrentTarget s) = getCurrentTarget s)
      by by rewrite Hzero.
    split.
    + intros Hlt. destruct (typeAll_rest letters s Hacc) as (Herrs & Hmid & _).
      { lia. }
      rewrite Hdrop in Herrs, Hmid. destruct Hmid as (_ & _ & Hi2 & Hc2); [done|].
      split_and!; [done|lia|done].
    + intros Hn. destruct (typeAll_rest letters s Hacc) as (Herrs & _ & Hend).
      { lia. }
      rewrite Hdrop in Herrs, Hend. destruct Hend as (Hi2 & Hc2); [done|].
      done.
Qed.

End Practice.

(** C10 on the phrase "count to ten", whose target is "counttoten": ten
    inputs, the last of them wrong, complete it with one error. *)
Lemma handleInput_advances_witness :
  let s :=
    {| PracticeState.sessionPhrases := ["count to ten"; "keep it simple"];
       PracticeState.currentPhraseIndex := 0;
       PracticeState.currentCharIndex := 0;
       PracticeState.totalErrors := 0;
       PracticeState.sessionComplete := false;
       PracticeState.have_audio := true;
       PracticeState.effects := [] |} in
  let letters := ["c"; "o"; "u"; "n"; "t"; "t"; "o"; "t"; "e"; "x"] in
  PracticeState.accepted s /\
  PracticeState.currentPhraseIndex (typeAll letters s) = 1%nat /\
  PracticeState.currentCharIndex (typeAll letters s) = 0%nat /\
  PracticeState.totalErrors (typeAll letters s) = 1.
Proof.
  intros s letters.
  assert (Hacc : PracticeState.accepted s).
  { split; [reflexivity|]. vm_compute. lia. }
  split; [exact Hacc|].
  destruct (handleInput_advances "c" s Hacc) as (_ & _ & _ & Hall).
  destruct (Hall eq_refl letters) as [_ Hn].
  exact (Hn eq_refl).
Defined.

(** * Further properties of the code *)

(** ** loadLetters *)

Section LoadLetters.
Import GameSpace.
Variables (cfg : Config) (course : Course).

Lemma addMissing_elem (pool extra : list string) l :
  l ∈ foldl (fun pool letter =>
               if bool_decide (letter ∈ pool) then pool else pool ++ [letter])
            pool extra
  <-> l ∈ pool \/ l ∈ extra.
Proof.
  revert pool. induction extra as [|x extra IH]; intros pool; simpl.
  - rewrite elem_of_nil. tauto.
  - rewrite IH, elem_of_cons. case_bool_decide as Hx.
    + split; [tauto|]. intros [?|[->|?]]; tauto.
    + rewrite elem_of_app, list_elem_of_singleton. tauto.
Qed.

Lemma addMissing_NoDup (pool extra : list string) :
  NoDup pool ->
  NoDup (foldl (fun pool letter =>
                  if bool_decide (letter ∈ pool) then pool else pool ++ [letter])
               pool extra).
Proof.
  revert pool. induction extra as [|x extra IH]; intros pool Hnd; simpl; [done|].
  apply IH. case_bool_decide as Hx; [done|].
  apply NoDup_app. split_and!; [done| |apply NoDup_singleton].
  intros y Hy ->%list_elem_of_singleton. done.
Qed.

Lemma addMissing_prefix (pool extra : list string) :
  pool `prefix_of`
    foldl (fun pool letter =>
             if bool_decide (letter ∈ pool) then pool else pool ++ [letter])
          pool extra.
Proof.
  revert pool. induction extra as [|x extra IH]; intros pool; simpl; [done|].
  etrans; [|apply IH]. case_bool_decide; [done|]. by apply prefix_app_r.
Qed.

(** X1.  Whatever scores are saved and in whatever order their keys are
    enumerated, the pool that [loadLetters] builds holds no letter
    twice, and a letter is in it exactly when its saved score is a
    number that has reached [LEARNED_THRESHOLD], or when fewer than
    three letters are learned and it is one of the first three letters
    of the course. *)
Theorem loadLetters_pool (ks : list string) (d : gmap string Js.num) :
  ks ≡ₚ keys d ->
  let pool := loadLetters cfg course ks d in
  NoDup pool /\
  (forall l,
     l ∈ pool <->
     (exists z, d !! l = Some (Js.Num z) /\ LEARNED_THRESHOLD cfg <= z) \/
     ((learnedLetters cfg d < 3)%nat /\ l ∈ take 3 (lettersToLearn course))).
Proof.
  intros Hks pool. subst pool. unfold loadLetters, learnedLetters.
  set (P := fun key => Is_true (Js.ge (d !! key) (LEARNED_THRESHOLD cfg))).
  assert (Hlen : length (filter P (keys d)) = length (filter P ks)).
  { apply Permutation_length. by rewrite Hks. }
  rewrite Hlen.
  assert (Hnd : NoDup (filter P ks)).
  { apply NoDup_filter. rewrite Hks. apply NoDup_fst_map_to_list. }
  assert (Hin : forall l, l ∈ filter P ks <->
            exists z, d !! l = Some (Js.Num z) /\ LEARNED_THRESHOLD cfg <= z).
  { intros l. rewrite list_elem_of_filter. unfold P.
    rewrite Is_true_true, ge_true. split; [tauto|].
    intros (z & Hz & Hle). split; [eauto|].
    rewrite Hks. unfold keys. apply list_elem_of_fmap.
    exists (l, Js.Num z). split; [done|]. by apply elem_of_map_to_list. }
  destruct (Nat.ltb_spec (length (filter P ks)) 3) as [Hlt|Hge].
  - split; [by apply addMissing_NoDup|].
    intros l. rewrite addMissing_elem, Hin. tauto.
  - split; [done|]. intros l. rewrite Hin. split; [tauto|].
    intros [?|[? _]]; [done|lia].
Qed.

End LoadLetters.

(** X1 on saved scores with two learned letters: the pool is the learned
    letters and the first three letters of the course. *)
Lemma loadLetters_pool_witness :
  let d := Sample.scores [("a", 2); ("b", 0); ("c", 3); ("d", 0)] in
  let pool := GameSpace.loadLetters Sample.cfg Sample.abcCourse (GameSpace.keys d) d in
  GameSpace.keys d ≡ₚ GameSpace.keys d /\
  NoDup pool /\
  (forall l, l ∈ pool <->
     (exists z, d !! l = Some (Js.Num z) /\ GameSpace.LEARNED_THRESHOLD Sample.cfg <= z) \/
     ((GameSpace.learnedLetters Sample.cfg d < 3)%nat /\
      l ∈ take 3 (GameSpace.lettersToLearn Sample.abcCourse))).
Proof.
  intros d pool. split; [reflexivity|].
  exact (loadLetters_pool Sample.cfg Sample.abcCourse (GameSpace.keys d) d
           (reflexivity _)).
Defined.

(** ** checkMatch, one turn and many *)

Section Turn.
Import GameSpace.
Variables (cfg : Config) (course : Course).

Lemma incrementAnalyticsCount_Some key letter s c :
  counters s !! propKey letter = Some c ->
  incrementAnalyticsCount key letter s =
    Ok tt (set_analyticsData (Some (<[propKey letter := bump key c]> (counters s))) s).
Proof.
  unfold counters, incrementAnalyticsCount. intros Hc.
  destruct (analyticsData s) as [data|] eqn:E; cbn [default from_option id] in Hc; by rewrite Hc.
Qed.

Lemma incrementAnalyticsCount_None key letter s :
  counters s !! propKey letter = None ->
  incrementAnalyticsCount key letter s =
    Threw (set_analyticsData (Some (counters s)) s).
Proof.
  unfold counters, incrementAnalyticsCount. intros Hc.
  destruct (analyticsData s) as [data|] eqn:E; cbn [default from_option id] in *; rewrite Hc; [|done].
  f_equal. destruct s; cbn [analyticsData] in E. by subst.
Qed.

Lemma emit_all_eq l s :
  foldl (fun s e => emit e s) s l =
  {| currentLettersInPlay := currentLettersInPlay s; currentWords := currentWords s;
     currentWordIndex := currentWordIndex s; mistakeCount := mistakeCount s;
     consecutiveCorrect := consecutiveCorrect s; inputReady := inputReady s;
     letterScoreDict := letterScoreDict s; analyticsData := analyticsData s;
     pendingAddLetters := pendingAddLetters s; effects := effects s ++ l |}.
Proof.
  revert s. induction l as [|e l IH]; intros s; cbn [foldl].
  - rewrite app_nil_r. by destruct s.
  - rewrite IH. unfold emit. cbn. by rewrite <- app_assoc.
Qed.

Ltac st :=
  cbn [currentLettersInPlay currentWords currentWordIndex mistakeCount
       consecutiveCorrect inputReady letterScoreDict analyticsData
       pendingAddLetters effects
       set_currentLettersInPlay set_currentWords set_currentWordIndex
       set_mistakeCount set_consecutiveCorrect set_inputReady
       set_letterScoreDict set_analyticsData set_pendingAddLetters emit
       stateOf negb fst snd id].

Lemma checkMatch_wrong_eq typedLetter shuffled s w c :
  inputReady s = true ->
  currentWords s !! currentWordIndex s = Some w ->
  letterOf w <> Some typedLetter ->
  counters s !! propKey (letterOf w) = Some c ->
  let d := addTo (letterOf w) (-1) (letterScoreDict s) in
  checkMatch cfg course typedLetter shuffled s =
  {| currentLettersInPlay := currentLettersInPlay s;
     currentWords := currentWords s;
     currentWordIndex := currentWordIndex s;
     mistakeCount := mistakeCount s + 1;
     consecutiveCorrect := 0;
     inputReady := true;
     letterScoreDict := clampBelow cfg (letterOf w) d;
     analyticsData :=
       Some (<[propKey (letterOf w) := bump KWrong c]> (counters s));
     pendingAddLetters := pendingAddLetters s;
     effects := effects s ++ SaveLetters d
                  :: playHints (letterOf w) (mistakeCount s + 1) |}.
Proof.
  intros Hready Hw Hne Hc d. unfold checkMatch. rewrite Hready. st.
  unfold checkMatchBody, expected, mbind, M_bind, gets, wordAt. st.
  rewrite Hw. unfold mret, M_ret. cbv beta iota. rewrite bool_decide_eq_false_2 by done.
  unfold gotWrong, incrementWrongCount, mbind, M_bind.
  rewrite (incrementAnalyticsCount_Some _ _ _ c) by done.
  unfold modify, retry, updateProgressLights, hintAgain, mbind, M_bind, modify, wordAt.
  st. cbv beta iota. st. rewrite Hw. cbv beta iota. st. rewrite emit_all_eq. st.
  by rewrite <- app_assoc.
Qed.

Lemma checkAllLettersLearned_frame s :
  let s' := (checkAllLettersLearned cfg course s).2 in
  currentLettersInPlay s' = currentLettersInPlay s /\
  currentWords s' = currentWords s /\
  currentWordIndex s' = currentWordIndex s /\
  mistakeCount s' = mistakeCount s /\
  consecutiveCorrect s' = consecutiveCorrect s /\
  inputReady s' = inputReady s /\
  letterScoreDict s' = letterScoreDict s /\
  analyticsData s' = analyticsData s /\
  pendingAddLetters s' = pendingAddLetters s.
Proof. unfold checkAllLettersLearned. by case_bool_decide. Qed.

Lemma hintNext_frame j letter s :
  let s' := stateOf (hintNext cfg j letter s) in
  currentLettersInPlay s' = currentLettersInPlay s /\
  currentWords s' = currentWords s /\
  currentWordIndex s' = currentWordIndex s /\
  mistakeCount s' = mistakeCount s /\
  consecutiveCorrect s' = consecutiveCorrect s /\
  inputReady s' = inputReady s /\
  letterScoreDict s' = letterScoreDict s /\
  analyticsData s' = analyticsData s /\
  pendingAddLetters s' = pendingAddLetters s.
Proof.
  unfold hintNext, mbind, M_bind, gets, wordAt, modify, mret, M_ret. cbv beta iota.
  destruct (Js.lt _ _); [|done].
  destruct (currentWords s !! j); [|done]. st. by rewrite emit_all_eq.
Qed.

Ltac st_in H :=
  cbn [currentLettersInPlay currentWords currentWordIndex mistakeCount
       consecutiveCorrect inputReady letterScoreDict analyticsData
       pendingAddLetters effects
       set_currentLettersInPlay set_currentWords set_currentWordIndex
       set_mistakeCount set_consecutiveCorrect set_inputReady
       set_letterScoreDict set_analyticsData set_pendingAddLetters emit
       stateOf negb fst snd id] in H.

Ltac tail_tac :=
  unfold updateProgressLights, modify, call; cbv beta iota; st;
  match goal with
  | |- context [checkAllLettersLearned ?cfg ?course ?x] =>
      let Hf := fresh "Hf" in
      pose proof (checkAllLettersLearned_frame x) as Hf;
      destruct (checkAllLettersLearned cfg course x) as [[] ?s2];
      cbv zeta in Hf; st_in Hf;
      destruct Hf as (?Hf1 & ?Hf2 & ?Hf3 & ?Hf4 & ?Hf5 & ?Hf6 & ?Hf7 & ?Hf8 & ?Hf9)
  end.

Lemma advance_run shuffled s w :
  currentWords s !! currentWordIndex s = Some w ->
  exists next s',
    advance cfg course shuffled (currentWordIndex s) s = Ok next s' /\
    moved cfg course shuffled s w s' /\
    inputReady s' = true /\
    mistakeCount s' = mistakeCount s /\
    consecutiveCorrect s' = consecutiveCorrect s /\
    letterScoreDict s' = letterScoreDict s /\
    analyticsData s' = analyticsData s /\
    match next with
    | None => True
    | Some (j, letter) =>
        j = currentWordIndex s' /\
        exists word, currentWords s' !! j = Some word /\ letter = letterOf word
    end.
Proof.
  intros Hw. unfold moved.
  unfold advance, mbind, M_bind, wordAt, gets, modify, mret, M_ret.
  rewrite Hw. cbv beta iota.
  assert (Hi : (currentWordIndex s < length (currentWords s))%nat)
    by (apply lookup_lt_is_Some; eauto).
  case_bool_decide as Hend.
  - st. rewrite length_alter.
    destruct (Z.ltb_spec (Z.of_nat (length (currentWords s)) - 2)
                (Z.of_nat (S (currentWordIndex s)))) as [Hadd|Hkeep].
    + unfold addAWord, makeWordObject, findAWord, checkAddLetters. st.
      match goal with |- context [(?l ++ [?x]) !! ?j] =>
        assert (Hj : is_Some ((l ++ [x]) !! j))
      end.
      { apply lookup_lt_is_Some. rewrite length_app, length_alter. simpl. lia. }
      destruct Hj as [word Hj]. rewrite Hj.
      tail_tac; eexists _, _; (split; [reflexivity|]);
        rewrite ?Hf1, ?Hf2, ?Hf3, ?Hf4, ?Hf5, ?Hf6, ?Hf7, ?Hf8, ?Hf9;
        split_and!; try done. eauto.
    + rewrite app_nil_r. cbv beta iota. st.
      assert (Hj : is_Some (alter (withLetterIndex 0) (currentWordIndex s)
                              (currentWords s) !! S (currentWordIndex s))).
      { apply lookup_lt_is_Some. rewrite length_alter. lia. }
      destruct Hj as [word Hj]. rewrite Hj.
      tail_tac; eexists _, _; (split; [reflexivity|]);
        rewrite ?Hf1, ?Hf2, ?Hf3, ?Hf4, ?Hf5, ?Hf6, ?Hf7, ?Hf8, ?Hf9;
        split_and!; try done. eauto.
  - st. rewrite Hw.
    tail_tac; eexists _, _; (split; [reflexivity|]);
      rewrite ?Hf1, ?Hf2, ?Hf3, ?Hf4, ?Hf5, ?Hf6, ?Hf7, ?Hf8, ?Hf9;
      split_and!; try done. eauto.
Qed.

Lemma gate_reopened s : inputReady s = true -> set_inputReady true (set_inputReady false s) = s.
Proof. intros H. destruct s. cbn in *. by subst. Qed.

Lemma checkMatch_no_word typedLetter shuffled s :
  inputReady s = true ->
  currentWords s !! currentWordIndex s = None ->
  checkMatch cfg course typedLetter shuffled s = s.
Proof.
  intros Hready Hw. unfold checkMatch. rewrite Hready. st.
  unfold checkMatchBody, expected, mbind, M_bind, gets, wordAt. st.
  rewrite Hw. st. by apply gate_reopened.
Qed.

Lemma checkMatch_uncounted_eq typedLetter shuffled s w :
  inputReady s = true ->
  currentWords s !! currentWordIndex s = Some w ->
  counters s !! propKey (letterOf w) = None ->
  checkMatch cfg course typedLetter shuffled s =
    set_analyticsData (Some (counters s)) s.
Proof.
  intros Hready Hw Hc. unfold checkMatch. rewrite Hready. st.
  unfold checkMatchBody, expected, mbind, M_bind, gets, wordAt. st.
  rewrite Hw. unfold mret, M_ret. cbv beta iota.
  assert (Hc' : counters (set_inputReady false s) !! propKey (letterOf w) = None) by done.
  case_bool_decide.
  - unfold gotCorrect, incrementCorrectCount, mbind, M_bind.
    rewrite incrementAnalyticsCount_None by done. st.
    destruct s; cbn in *; by subst.
  - unfold gotWrong, incrementWrongCount, mbind, M_bind.
    rewrite incrementAnalyticsCount_None by done. st.
    destruct s; cbn in *; by subst.
Qed.

Lemma expected_eq s w :
  currentWords s !! currentWordIndex s = Some w ->
  expected s = Ok (currentWordIndex s, letterOf w) s.
Proof.
  intros Hw. unfold expected, mbind, M_bind, gets, wordAt. by rewrite Hw.
Qed.

Lemma gotCorrect_eq i letter s c :
  counters s !! propKey letter = Some c ->
  gotCorrect cfg i letter s =
  Ok tt
    {| currentLettersInPlay := currentLettersInPlay s;
       currentWords :=
         alter (fun w => withLetterIndex (S (currentLetterIndex w)) w) i
               (currentWords s);
       currentWordIndex := currentWordIndex s;
       mistakeCount := 0;
       consecutiveCorrect := consecutiveCorrect s + 1;
       inputReady := inputReady s;
       letterScoreDict := clampAbove cfg letter (addTo letter 1 (letterScoreDict s));
       analyticsData := Some (<[propKey letter := bump KCorrect c]> (counters s));
       pendingAddLetters := pendingAddLetters s;
       effects := effects s ++ [SaveProgress (addTo letter 1 (letterScoreDict s))] |}.
Proof.
  intros Hc. unfold gotCorrect, incrementCorrectCount, mbind, M_bind.
  rewrite (incrementAnalyticsCount_Some _ _ _ c) by done.
  unfold modify. st. cbv beta iota. st. done.
Qed.

Lemma checkMatch_right_run typedLetter shuffled s w c :
  inputReady s = true ->
  currentWords s !! currentWordIndex s = Some w ->
  letterOf w = Some typedLetter ->
  counters s !! typedLetter = Some c ->
  let s' := checkMatch cfg course typedLetter shuffled s in
  let d := clampAbove cfg (Some typedLetter)
             (addTo (Some typedLetter) 1 (letterScoreDict s)) in
  let w1 := withLetterIndex (S (currentLetterIndex w)) w in
  exists s1,
    currentLettersInPlay s1 = currentLettersInPlay s /\
    currentWords s1 =
      alter (fun w => withLetterIndex (S (currentLetterIndex w)) w)
            (currentWordIndex s) (currentWords s) /\
    currentWordIndex s1 = currentWordIndex s /\
    letterScoreDict s1 = d /\
    pendingAddLetters s1 = pendingAddLetters s /\
    moved cfg course shuffled s1 w1 s' /\
    inputReady s' = true /\
    mistakeCount s' = 0 /\
    consecutiveCorrect s' = consecutiveCorrect s + 1 /\
    letterScoreDict s' = d /\
    analyticsData s' = Some (<[typedLetter := bump KCorrect c]> (counters s)).
Proof.
  intros Hready Hw Hl Hc s' d w1. subst s'. unfold checkMatch. rewrite Hready. st.
  unfold checkMatchBody. rewrite stateOf_bind.
  rewrite (expected_eq _ w) by done. st.
  rewrite bool_decide_eq_true_2 by done. rewrite stateOf_bind.
  rewrite Hl, (gotCorrect_eq _ _ _ c) by done. st. rewrite stateOf_bind.
  change (propKey (Some typedLetter)) with typedLetter in *. fold d.
  match goal with |- context [advance cfg course shuffled _ ?x] => set (s1 := x) end.
  assert (Hw1 : currentWords s1 !! currentWordIndex s1 = Some w1).
  { subst s1. st. by rewrite list_lookup_alter_eq, Hw. }
  destruct (advance_run shuffled s1 w1 Hw1)
    as (next & s2 & Hrun & Hmoved & Hr & Hm & Hcc & Hd & Ha & Hnext).
  change (currentWordIndex s) with (currentWordIndex s1). rewrite Hrun.
  exists s1. split_and!; try done.
  all: destruct next as [[j letter]|]; st;
    [pose proof (hintNext_frame j letter s2) as Hh; cbv zeta in Hh;
     destruct Hh as (Hh1 & Hh2 & Hh3 & Hh4 & Hh5 & Hh6 & Hh7 & Hh8 & Hh9)|];
    rewrite ?Hh1, ?Hh2, ?Hh3, ?Hh4, ?Hh5, ?Hh6, ?Hh7, ?Hh8, ?Hh9; try done.
  all: unfold moved in *; st; rewrite ?Hh1, ?Hh2, ?Hh3, ?Hh4, ?Hh5, ?Hh6, ?Hh7, ?Hh8, ?Hh9;
    try done.
Qed.

(** C5, as the code has it, of every call that reaches a score: the
    gate is open, there is a word under the cursor and the expected
    letter has its analytics counter (any other call leaves the scores
    as they are).  On the correct path [parent.saveProgress()] is called
    with the score incremented, and the upper clamp comes after it.  On
    the incorrect path [parent.saveProgress()] is not called; the scores
    are stored by [header.updateProgressLights], and unless the
    decremented score is below [-(T + 2)] the scores stored are the
    decremented ones, with which the call ends. *)
Theorem checkMatch_persists typedLetter shuffled s w c :
  inputReady s = true ->
  currentWords s !! currentWordIndex s = Some w ->
  counters s !! propKey (letterOf w) = Some c ->
  let s' := checkMatch cfg course typedLetter shuffled s in
  let d := letterScoreDict s in
  let letter := letterOf w in
  (letter = Some typedLetter ->
     exists rest,
       effects s' = effects s ++ SaveProgress (addTo letter 1 d) :: rest /\
       letterScoreDict s' = clampAbove cfg letter (addTo letter 1 d)) /\
  (letter <> Some typedLetter ->
     exists stored rest,
       effects s' = effects s ++ SaveLetters stored :: rest /\
       (forall d', SaveProgress d' ∉ rest) /\
       (Js.lt (addTo letter (-1) d !! propKey letter) (- LEARNED_THRESHOLD cfg - 2) = false ->
        stored = addTo letter (-1) d /\ letterScoreDict s' = stored)).
Proof.
  intros Hready Hw Hc s' d letter. split.
  - intros Hl. subst s' d letter. unfold checkMatch. rewrite Hready. st.
    unfold checkMatchBody. rewrite stateOf_bind.
    rewrite (expected_eq _ w) by done. st.
    rewrite bool_decide_eq_true_2 by done. rewrite stateOf_bind.
    rewrite (gotCorrect_eq _ _ _ c) by done. st.
    match goal with |- context [stateOf (?comp ?x)] => set (s1 := x) end.
    pose proof (after_correct_scores cfg course shuffled (currentWordIndex s) s1) as Hs.
    destruct (after_correct_log cfg course shuffled (currentWordIndex s) s1)
      as (rest & Hlog & _).
    unfold sameScores in Hs. exists rest. st. split.
    + rewrite Hlog. subst s1. st. by rewrite <- app_assoc.
    + rewrite Hs. subst s1. st. done.
  - intros Hl. subst s' d letter.
    rewrite (checkMatch_wrong_eq typedLetter shuffled s w c) by done.
    cbn [effects letterScoreDict]. eexists _, _. split; [reflexivity|]. split.
    + intros d' Hin. pose proof (playHints_cues (letterOf w) (mistakeCount s + 1)) as Hcues.
      rewrite Forall_forall in Hcues. by apply Hcues in Hin.
    + intros Hlt. split; [done|]. unfold clampBelow. by rewrite Hlt.
Qed.

End Turn.

(** C5 on the expected letter "a" typed when its score is 4, the upper
    bound: [parent.saveProgress()] is called with the score 5, and the
    call ends with the score 4. *)
Lemma checkMatch_persists_witness :
  let s := Sample.session ["a"; "b"; "c"] ["ab"; "cab"; "ab"]
             (Sample.scores [("a", 4); ("b", 0); ("c", 0); ("d", 0)]) in
  let w := GameSpace.newWord "ab" in
  let c := {| GameSpace.wrong := 0; GameSpace.correct := 0 |} in
  let s' := GameSpace.checkMatch Sample.cfg Sample.abcCourse "a" [] s in
  let saved := GameSpace.addTo (Some "a") 1 (GameSpace.letterScoreDict s) in
  GameSpace.inputReady s = true /\
  GameSpace.currentWords s !! GameSpace.currentWordIndex s = Some w /\
  counters s !! GameSpace.propKey (GameSpace.letterOf w) = Some c /\
  (exists rest,
     GameSpace.effects s' =
       GameSpace.effects s ++ GameSpace.SaveProgress saved :: rest /\
     GameSpace.letterScoreDict s' = GameSpace.clampAbove Sample.cfg (Some "a") saved) /\
  saved !! "a" = Some (Js.Num 5) /\
  GameSpace.letterScoreDict s' !! "a" = Some (Js.Num 4).
Proof.
  intros s w c s' saved.
  assert (H1 : GameSpace.inputReady s = true) by reflexivity.
  assert (H2 : GameSpace.currentWords s !! GameSpace.currentWordIndex s = Some w)
    by reflexivity.
  assert (H3 : counters s !! GameSpace.propKey (GameSpace.letterOf w) = Some c)
    by (vm_compute; reflexivity).
  destruct (checkMatch_persists Sample.cfg Sample.abcCourse "a" [] s w c H1 H2 H3)
    as [Hright _].
  split; [exact H1|]. split; [exact H2|]. split; [exact H3|].
  split; [exact (Hright eq_refl)|]. split; vm_compute; reflexivity.
Defined.

Section TurnProps.
Import GameSpace.
Variables (cfg : Config) (course : Course).

Lemma checkMatch_shape typedLetter shuffled s :
  let s' := checkMatch cfg course typedLetter shuffled s in
  s' = s \/
  s' = set_analyticsData (Some (counters s)) s \/
  exists w c,
    inputReady s = true /\
    currentWords s !! currentWordIndex s = Some w /\
    counters s !! propKey (letterOf w) = Some c.
Proof.
  intros s'. subst s'.
  destruct (inputReady s) eqn:Hready; [|left; unfold checkMatch; by rewrite Hready].
  destruct (currentWords s !! currentWordIndex s) as [w|] eqn:Hw;
    [|left; by apply checkMatch_no_word].
  destruct (counters s !! propKey (letterOf w)) as [c|] eqn:Hc.
  - right; right. eauto.
  - right; left. by eapply checkMatch_uncounted_eq.
Qed.

Lemma chars_nil w : Js.chars w = [] -> w = "".
Proof.
  unfold Js.chars. intros H. apply fmap_nil_inv in H.
  destruct w; [done|discriminate].
Qed.

Lemma orDefault_nonempty o : Js.chars (orDefault o) <> [].
Proof.
  intros H. apply chars_nil in H. unfold orDefault in H.
  destruct o as [w|]; [|discriminate]. by case_bool_decide.
Qed.

Lemma checkMatch_cursorOk typedLetter shuffled s :
  cursorOk s -> cursorOk (checkMatch cfg course typedLetter shuffled s).
Proof.
  intros Hok.
  destruct (checkMatch_shape typedLetter shuffled s) as [->|[->|(w & c & Hready & Hw & Hc)]];
    [done|done|].
  destruct (decide (letterOf w = Some typedLetter)) as [Hl|Hl].
  - rewrite Hl in Hc. change (propKey (Some typedLetter)) with typedLetter in Hc.
    destruct (checkMatch_right_run cfg course typedLetter shuffled s w c Hready Hw Hl Hc)
      as (s1 & Hp1 & Hw1 & Hi1 & Hd1 & Hpe1 & Hmoved & _).
    set (s' := checkMatch cfg course typedLetter shuffled s) in *.
    destruct Hok as [(w0 & Hw0 & Hlt) Hlater].
    rewrite Hw in Hw0. injection Hw0 as <-.
    assert (Hi : (currentWordIndex s < length (currentWords s))%nat)
      by (apply lookup_lt_is_Some; eauto).
    unfold moved in Hmoved. rewrite Hi1, Hw1 in Hmoved.
    cbn [withLetterIndex myLetters currentLetterIndex] in Hmoved.
    rewrite length_alter in Hmoved.
    case_bool_decide as Hend.
    + destruct Hmoved as (Hi' & Hws' & _).
      assert (Hfresh : forall k w', (currentWordIndex s < k)%nat ->
                currentWords s' !! k = Some w' ->
                currentLetterIndex w' = 0%nat /\ myLetters w' <> []).
      { intros k w' Hk Hlk. rewrite Hws' in Hlk.
        apply lookup_app_Some in Hlk as [Hlk|[Hge Hlk]].
        - rewrite !list_lookup_alter_ne in Hlk by lia. by eapply Hlater.
        - destruct (_ <? _); [|by rewrite lookup_nil in Hlk].
          apply list_lookup_singleton_Some in Hlk as [_ <-].
          split; [done|]. apply orDefault_nonempty. }
      split.
      * assert (Hex : is_Some (currentWords s' !! S (currentWordIndex s))).
        { apply lookup_lt_is_Some. rewrite Hws', length_app, !length_alter.
          destruct (Z.ltb_spec (Z.of_nat (length (currentWords s)) - 2)
                      (Z.of_nat (S (currentWordIndex s)))); simpl; lia. }
        destruct Hex as [w' Hw']. exists w'. rewrite Hi'. split; [done|].
        destruct (Hfresh _ _ (Nat.lt_succ_diag_r _) Hw') as [-> Hne].
        destruct (myLetters w'); [done|simpl; lia].
      * intros k w' Hk. rewrite Hi' in Hk. apply Hfresh. lia.
    + destruct Hmoved as (Hi' & Hws' & _). split.
      * exists (withLetterIndex (S (currentLetterIndex w)) w).
        rewrite Hi', Hws', list_lookup_alter_eq, Hw. split; [done|]. simpl. lia.
      * intros k w' Hk. rewrite Hi' in Hk. rewrite Hws'.
        rewrite list_lookup_alter_ne by lia. by apply Hlater.
  - rewrite (checkMatch_wrong_eq cfg course typedLetter shuffled s w c) by done.
    exact Hok.
Qed.

End TurnProps.

Section TurnTheorems.
Import GameSpace.
Variables (cfg : Config) (course : Course).

Lemma fireAddLetters_cursor s :
  currentWords (fireAddLetters cfg course s) = currentWords s /\
  currentWordIndex (fireAddLetters cfg course s) = currentWordIndex s.
Proof.
  unfold fireAddLetters, addLettersTimeout.
  destruct (pendingAddLetters s); [done|]. by case_match.
Qed.

Lemma turn_cursorOk t s : cursorOk s -> cursorOk (turn cfg course t s).
Proof.
  destruct t as [typedLetter shuffled|]; cbn [turn].
  - apply checkMatch_cursorOk.
  - destruct (fireAddLetters_cursor s) as [Hw Hi]. unfold cursorOk.
    by rewrite Hw, Hi.
Qed.

Lemma cursorOk_same s s' :
  currentWords s' = currentWords s -> currentWordIndex s' = currentWordIndex s ->
  cursorOk s -> cursorOk s'.
Proof. unfold cursorOk. by intros -> ->. Qed.

Lemma piece_finish_store {A} (c : M A) s :
  (piece c (fun _ => finish) s).1 = set_inputReady true (stateOf (c s)).
Proof. unfold piece, finish. by destruct (c s). Qed.

Lemma hintAgain_cursor i s :
  currentWords (stateOf (hintAgain i s)) = currentWords s /\
  currentWordIndex (stateOf (hintAgain i s)) = currentWordIndex s.
Proof.
  unfold hintAgain, mbind, M_bind, wordAt, modify.
  destruct (currentWords s !! i); [|done].
  cbn [stateOf]. by rewrite emit_all_eq.
Qed.

(** A call that waits with the gate open waits for its hints: what is
    left of it does not move the cursor. *)
Lemma resume_hints_cursor shuffled t s :
  inEvaluation t = false ->
  currentWords (resume cfg course shuffled t s).1 = currentWords s /\
  currentWordIndex (resume cfg course shuffled t s).1 = currentWordIndex s.
Proof.
  destruct t as [i|i letter|j letter|i]; cbn [inEvaluation]; try discriminate; intros _;
    cbn [resume]; rewrite piece_finish_store; cbn [set_inputReady currentWords currentWordIndex].
  - pose proof (hintNext_frame cfg j letter s) as Hf. cbv zeta in Hf.
    by destruct Hf as (_ & -> & -> & _).
  - apply hintAgain_cursor.
Qed.

Lemma alone_cursor shuffled n r :
  from_option inEvaluation false r.2 = false ->
  currentWords (alone cfg course shuffled n r) = currentWords r.1 /\
  currentWordIndex (alone cfg course shuffled n r) = currentWordIndex r.1.
Proof.
  revert r. induction n as [|n IH]; intros [s [t|]] Ht; cbn [alone fst]; try done.
  cbn [snd from_option] in Ht.
  destruct (resume_hints_cursor shuffled t s Ht) as [Hw Hi].
  destruct (IH (resume cfg course shuffled t s)) as [Hw' Hi'].
  - pose proof (resume_not_evaluating cfg course shuffled t s) as Hnot.
    destruct (resume cfg course shuffled t s) as [s1 [t1|]]; [|done].
    cbn [snd from_option]. by apply Hnot.
  - by rewrite Hw', Hi'.
Qed.

(** Without speech assistance a submission leaves the cursor where the
    whole call leaves it. *)
Lemma submit_cursorOk typedLetter shuffled s :
  cursorOk s -> cursorOk (submit false cfg course typedLetter shuffled s).1.
Proof.
  intros Hok. pose proof (checkMatch_cursorOk cfg course typedLetter shuffled s Hok) as Hend.
  rewrite (checkMatch_alone cfg course false) in Hend.
  destruct (alone_cursor shuffled 2 (submit false cfg course typedLetter shuffled s))
    as [Hw Hi].
  - pose proof (submit_not_evaluating cfg course typedLetter shuffled s) as Hnot.
    destruct (submit false cfg course typedLetter shuffled s) as [s1 [t1|]]; [|done].
    cbn [snd from_option]. by apply Hnot.
  - revert Hend. apply cursorOk_same; by symmetry.
Qed.

Lemma step_cursorOk e x :
  Forall (fun t => inEvaluation t = false) (calls x) ->
  cursorOk (store x) -> cursorOk (store (step false cfg course e x)).
Proof.
  intros Hcalls Hok. destruct e as [typedLetter shuffled|k shuffled|]; cbn [step].
  - pose proof (submit_cursorOk typedLetter shuffled (store x) Hok) as Hs.
    by destruct (submit false cfg course typedLetter shuffled (store x)).
  - destruct (calls x !! k) as [t|] eqn:Hk; [|done].
    assert (Ht : inEvaluation t = false).
    { rewrite Forall_forall in Hcalls. apply Hcalls. by eapply list_elem_of_lookup_2. }
    destruct (resume_hints_cursor shuffled t (store x) Ht) as [Hw Hi].
    destruct (resume cfg course shuffled t (store x)) as [s1 t1]. cbn [store fst] in *.
    by apply (cursorOk_same (store x)).
  - cbn [store]. destruct (fireAddLetters_cursor (store x)) as [Hw Hi].
    by apply (cursorOk_same (store x)).
Qed.

(** X2.  With speech assistance off, whatever is submitted, in whatever
    order the delays of the calls under way end and the pool timers
    fire: if the cursor is on a letter of its word and every later word
    is untouched and not empty when no call is under way, this is so
    again after every event; so there always is a word at the cursor
    and a letter that the game expects. *)
Theorem cursor_stays_on_a_letter es s :
  cursorOk s ->
  let x := run false cfg course es {| store := s; calls := [] |} in
  cursorOk (store x) /\
  exists w l,
    currentWords (store x) !! currentWordIndex (store x) = Some w /\
    letterOf w = Some l.
Proof.
  intros Hok x.
  assert (Hinv : Forall (fun t => inEvaluation t = false) (calls x) /\ cursorOk (store x)).
  { subst x.
    assert (H0 : Forall (fun t => inEvaluation t = false)
                   (calls {| store := s; calls := [] |}) /\
                 cursorOk (store {| store := s; calls := [] |})) by (split; [constructor|done]).
    revert H0. generalize {| store := s; calls := [] |}.
    induction es as [|e es IH]; intros x0 [Hc H0]; [done|].
    cbn [run foldl]. apply IH. split.
    - by apply step_not_evaluating.
    - by apply step_cursorOk. }
  destruct Hinv as [_ Hok']. split; [done|]. destruct Hok' as [(w & Hw & Hlt) _].
  destruct (lookup_lt_is_Some_2 _ _ Hlt) as [l Hl]. by exists w, l.
Qed.

Lemma reseed_prefix n pool :
  pool = take n (lettersToLearn course) ->
  exists m, reseed course pool = take m (lettersToLearn course) /\
            (length pool <= length (reseed course pool))%nat.
Proof.
  intros ->. unfold reseed. destruct (Nat.ltb_spec (length (take n (lettersToLearn course))) 3).
  - exists 3%nat. split; [done|]. rewrite !length_take in *. lia.
  - by exists n.
Qed.

Lemma checkMatch_pool typedLetter shuffled s :
  let s' := checkMatch cfg course typedLetter shuffled s in
  currentLettersInPlay s' = currentLettersInPlay s \/
  currentLettersInPlay s' = reseed course (currentLettersInPlay s).
Proof.
  intros s'. subst s'.
  destruct (checkMatch_shape cfg course typedLetter shuffled s)
    as [->|[->|(w & c & Hready & Hw & Hc)]]; [by left|by left|].
  destruct (decide (letterOf w = Some typedLetter)) as [Hl|Hl].
  - rewrite Hl in Hc. change (propKey (Some typedLetter)) with typedLetter in Hc.
    destruct (checkMatch_right_run cfg course typedLetter shuffled s w c Hready Hw Hl Hc)
      as (s1 & Hp1 & Hw1 & Hi1 & Hd1 & Hpe1 & Hmoved & _).
    unfold moved in Hmoved. rewrite Hp1 in Hmoved.
    case_bool_decide.
    + destruct Hmoved as (_ & _ & -> & _). destruct (_ <? _); auto.
    + destruct Hmoved as (_ & _ & -> & _). by left.
  - rewrite (checkMatch_wrong_eq cfg course typedLetter shuffled s w c) by done.
    by left.
Qed.

Lemma turn_pool_prefix t s n :
  currentLettersInPlay s = take n (lettersToLearn course) ->
  exists m, currentLettersInPlay (turn cfg course t s) = take m (lettersToLearn course) /\
    (length (currentLettersInPlay s) <= length (currentLettersInPlay (turn cfg course t s)))%nat.
Proof.
  intros Hpool. destruct t as [typedLetter shuffled|]; cbn [turn].
  - destruct (checkMatch_pool typedLetter shuffled s) as [->| ->].
    + by exists n.
    + by eapply reseed_prefix.
  - unfold fireAddLetters. destruct (pendingAddLetters s) as [|p]; [by exists n|].
    unfold addLettersTimeout. case_match.
    + unfold set_currentLettersInPlay, set_consecutiveCorrect, set_pendingAddLetters.
      cbn [currentLettersInPlay]. rewrite decreaseTo_min. eexists. split; [done|].
      rewrite Hpool, !length_take. lia.
    + by exists n.
Qed.

(** X3.  Whatever is typed and whenever the pool timers fire: a pool
    that is the first [n] letters of the course stays a pool of the
    first letters of the course, and never gets shorter. *)
Theorem pool_stays_prefix ts s n :
  currentLettersInPlay s = take n (lettersToLearn course) ->
  let s' := turns cfg course ts s in
  exists m, currentLettersInPlay s' = take m (lettersToLearn course) /\
            (length (currentLettersInPlay s) <= length (currentLettersInPlay s'))%nat.
Proof.
  intros Hpool s'. subst s'. revert s n Hpool.
  induction ts as [|t ts IH]; intros s n Hpool; [by exists n|].
  cbn [turns foldl].
  destruct (turn_pool_prefix t s n Hpool) as (m & Hm & Hle).
  destruct (IH _ m Hm) as (m' & Hm' & Hle'). exists m'. split; [done|].
  unfold turns in Hle'. lia.
Qed.

(** X4.  A letter other than the expected one, typed while the gate
    is open and the expected letter has its analytics counter: the
    cursor and the words stay as they are, the mistake count goes up by
    one, the streak of correct answers goes back to 0, the count of
    wrong answers of the expected letter goes up by one, and a pool
    timer firing right afterwards adds no letter ([CONSECUTIVE_CORRECT]
    being positive). *)
Theorem wrong_letter_turn typedLetter shuffled s w c :
  inputReady s = true ->
  currentWords s !! currentWordIndex s = Some w ->
  letterOf w <> Some typedLetter ->
  counters s !! propKey (letterOf w) = Some c ->
  0 < CONSECUTIVE_CORRECT cfg ->
  let s' := checkMatch cfg course typedLetter shuffled s in
  currentWordIndex s' = currentWordIndex s /\
  currentWords s' = currentWords s /\
  mistakeCount s' = mistakeCount s + 1 /\
  consecutiveCorrect s' = 0 /\
  counters s' =
    <[propKey (letterOf w) := {| wrong := wrong c + 1; correct := correct c |}]>
      (counters s) /\
  currentLettersInPlay (fireAddLetters cfg course s') = currentLettersInPlay s.
Proof.
  intros Hready Hw Hl Hc Hcc s'. subst s'.
  rewrite (checkMatch_wrong_eq cfg course typedLetter shuffled s w c) by done.
  split_and!; try done.
  unfold fireAddLetters. cbn [pendingAddLetters].
  destruct (pendingAddLetters s); [done|].
  unfold addLettersTimeout, set_pendingAddLetters. cbn [consecutiveCorrect].
  destruct (Z.leb_spec (CONSECUTIVE_CORRECT cfg) 0) as [?|_]; [lia|].
  by rewrite andb_false_r.
Qed.

(** X5.  The expected letter, typed while the gate is open and the
    letter has its analytics counter: the mistake count is 0, the
    streak of correct answers goes up by one and so does the count of
    correct answers of the letter.  Within a word the cursor moves to
    the next letter of the same word.  On the last letter of a word the
    cursor moves to the next word, which exists (a word is added when
    needed), and the finished word is rewound to its first letter, the
    words there were being otherwise as they were. *)
Theorem right_letter_turn typedLetter shuffled s w c :
  inputReady s = true ->
  currentWords s !! currentWordIndex s = Some w ->
  letterOf w = Some typedLetter ->
  counters s !! typedLetter = Some c ->
  let s' := checkMatch cfg course typedLetter shuffled s in
  let i := currentWordIndex s in
  mistakeCount s' = 0 /\
  consecutiveCorrect s' = consecutiveCorrect s + 1 /\
  counters s' =
    <[typedLetter := {| wrong := wrong c; correct := correct c + 1 |}]> (counters s) /\
  ((S (currentLetterIndex w) < length (myLetters w))%nat ->
     currentWordIndex s' = i /\
     currentWords s' = alter (withLetterIndex (S (currentLetterIndex w))) i (currentWords s)) /\
  ((length (myLetters w) <= S (currentLetterIndex w))%nat ->
     currentWordIndex s' = S i /\
     (S i < length (currentWords s'))%nat /\
     take (length (currentWords s)) (currentWords s') =
       alter (withLetterIndex 0) i (currentWords s)).
Proof.
  intros Hready Hw Hl Hc s' i.
  destruct (checkMatch_right_run cfg course typedLetter shuffled s w c Hready Hw Hl Hc)
    as (s1 & Hp1 & Hw1 & Hi1 & Hd1 & Hpe1 & Hmoved & _ & Hm & Hcc & _ & Ha).
  fold s' in Hmoved, Hm, Hcc, Ha.
  assert (Hi : (i < length (currentWords s))%nat)
    by (apply lookup_lt_is_Some; eauto).
  split_and!; [done|done|unfold counters; by rewrite Ha| |].
  - intros Hlt. unfold moved in Hmoved.
    cbn [withLetterIndex myLetters currentLetterIndex] in Hmoved.
    rewrite bool_decide_eq_false_2 in Hmoved by lia.
    destruct Hmoved as (-> & -> & _). rewrite Hi1, Hw1. split; [done|].
    apply list_eq. intros k. destruct (decide (k = i)) as [->|Hk].
    + rewrite !list_lookup_alter_eq. unfold i. by rewrite Hw.
    + by rewrite !list_lookup_alter_ne.
  - intros Hend. unfold moved in Hmoved.
    cbn [withLetterIndex myLetters currentLetterIndex] in Hmoved.
    rewrite bool_decide_eq_true_2 in Hmoved by lia.
    destruct Hmoved as (-> & -> & _). rewrite Hi1, Hw1, length_alter.
    fold i. split_and!; [done| |].
    + rewrite length_app, !length_alter.
      destruct (Z.ltb_spec (Z.of_nat (length (currentWords s)) - 2) (Z.of_nat (S i)));
        simpl; lia.
    + rewrite take_app_length' by by rewrite !length_alter.
      apply list_eq. intros k. destruct (decide (k = i)) as [->|Hk].
      * rewrite !list_lookup_alter_eq. unfold i. by rewrite Hw.
      * by rewrite !list_lookup_alter_ne.
Qed.

(** X6.  When the analytics counters have no entry for the expected
    letter (the defaults hold the 26 letters, so a digit has none),
    [checkMatch] changes nothing of the game whatever was typed: reading
    the counter throws before a score, a count or the cursor is touched;
    the counters, if none were stored, are stored as the defaults, and
    the gate is open again. *)
Theorem symbol_without_counter typedLetter shuffled s w :
  inputReady s = true ->
  currentWords s !! currentWordIndex s = Some w ->
  counters s !! propKey (letterOf w) = None ->
  checkMatch cfg course typedLetter shuffled s =
    set_analyticsData (Some (counters s)) s.
Proof. apply checkMatch_uncounted_eq. Qed.

End TurnTheorems.

(** X2 on the first word of the sample session typed out, speech
    assistance off, the second letter submitted while the call for the
    first still waits for its hints. *)
Lemma cursor_stays_on_a_letter_witness :
  let s := Sample.abcStart in
  let x := GameSpace.run false Sample.cfg Sample.abcCourse
             [GameSpace.Submit "a" []; GameSpace.Submit "b" [];
              GameSpace.Resume 0 []; GameSpace.Timer; GameSpace.Resume 0 []]
             {| GameSpace.store := s; GameSpace.calls := [] |} in
  let s' := GameSpace.store x in
  cursorOk s /\
  cursorOk s' /\
  exists w l,
    GameSpace.currentWords s' !! GameSpace.currentWordIndex s' = Some w /\
    GameSpace.letterOf w = Some l.
Proof.
  intros s x s'.
  assert (Hok : cursorOk s).
  { split.
    - exists (GameSpace.newWord "ab"). split; [reflexivity|]. vm_compute. lia.
    - intros k w Hk Hw.
      destruct k as [|[|[|k]]]; [lia| | |discriminate Hw];
        injection Hw as <-; (split; [reflexivity|vm_compute; discriminate]). }
  split; [exact Hok|].
  exact (cursor_stays_on_a_letter Sample.cfg Sample.abcCourse _ s Hok).
Defined.

(** X3 on the sample session, whose pool is the first three letters of
    the course. *)
Lemma pool_stays_prefix_witness :
  let s := Sample.abcStart in
  let s' := GameSpace.turns Sample.cfg Sample.abcCourse
              [GameSpace.Typed "a" []; GameSpace.Typed "x" []; GameSpace.GrowTimer] s in
  GameSpace.currentLettersInPlay s =
    take 3 (GameSpace.lettersToLearn Sample.abcCourse) /\
  exists m,
    GameSpace.currentLettersInPlay s' =
      take m (GameSpace.lettersToLearn Sample.abcCourse) /\
    (length (GameSpace.currentLettersInPlay s) <=
     length (GameSpace.currentLettersInPlay s'))%nat.
Proof.
  intros s s'. split; [reflexivity|].
  exact (pool_stays_prefix Sample.cfg Sample.abcCourse _ s 3 (eq_refl _)).
Defined.

(** X4 on the wrong letter "x" at the start of the sample session. *)
Lemma wrong_letter_turn_witness :
  let s := Sample.abcStart in
  let w := GameSpace.newWord "ab" in
  let c := {| GameSpace.wrong := 0; GameSpace.correct := 0 |} in
  let s' := GameSpace.checkMatch Sample.cfg Sample.abcCourse "x" [] s in
  GameSpace.inputReady s = true /\
  GameSpace.currentWords s !! GameSpace.currentWordIndex s = Some w /\
  GameSpace.letterOf w <> Some "x" /\
  counters s !! GameSpace.propKey (GameSpace.letterOf w) = Some c /\
  0 < GameSpace.CONSECUTIVE_CORRECT Sample.cfg /\
  GameSpace.currentWords s' = GameSpace.currentWords s /\
  GameSpace.mistakeCount s' = GameSpace.mistakeCount s + 1 /\
  GameSpace.consecutiveCorrect s' = 0.
Proof.
  intros s w c s'.
  assert (H1 : GameSpace.inputReady s = true) by reflexivity.
  assert (H2 : GameSpace.currentWords s !! GameSpace.currentWordIndex s = Some w)
    by reflexivity.
  assert (H3 : GameSpace.letterOf w <> Some "x") by (vm_compute; discriminate).
  assert (H4 : counters s !! GameSpace.propKey (GameSpace.letterOf w) = Some c)
    by (vm_compute; reflexivity).
  assert (H5 : 0 < GameSpace.CONSECUTIVE_CORRECT Sample.cfg) by reflexivity.
  destruct (wrong_letter_turn Sample.cfg Sample.abcCourse "x" [] s w c H1 H2 H3 H4 H5)
    as (_ & Hw & Hm & Hc & _).
  split_and!; assumption.
Defined.

(** X5 on the expected letter "a" at the start of the sample session. *)
Lemma right_letter_turn_witness :
  let s := Sample.abcStart in
  let w := GameSpace.newWord "ab" in
  let c := {| GameSpace.wrong := 0; GameSpace.correct := 0 |} in
  let s' := GameSpace.checkMatch Sample.cfg Sample.abcCourse "a" [] s in
  GameSpace.inputReady s = true /\
  GameSpace.currentWords s !! GameSpace.currentWordIndex s = Some w /\
  GameSpace.letterOf w = Some "a" /\
  counters s !! "a" = Some c /\
  GameSpace.mistakeCount s' = 0 /\
  GameSpace.consecutiveCorrect s' = GameSpace.consecutiveCorrect s + 1.
Proof.
  intros s w c s'.
  assert (H1 : GameSpace.inputReady s = true) by reflexivity.
  assert (H2 : GameSpace.currentWords s !! GameSpace.currentWordIndex s = Some w)
    by reflexivity.
  assert (H3 : GameSpace.letterOf w = Some "a") by reflexivity.
  assert (H4 : counters s !! "a" = Some c) by (vm_compute; reflexivity).
  destruct (right_letter_turn Sample.cfg Sample.abcCourse "a" [] s w c H1 H2 H3 H4)
    as (Hm & Hc & _).
  split_and!; assumption.
Defined.

(** X6 on a course of digits: the digit that is expected is typed, and
    nothing but the stored counters changes. *)
Lemma symbol_without_counter_witness :
  let s := Cases.numbersStart in
  let w := GameSpace.newWord "12" in
  GameSpace.inputReady s = true /\
  GameSpace.currentWords s !! GameSpace.currentWordIndex s = Some w /\
  counters s !! GameSpace.propKey (GameSpace.letterOf w) = None /\
  GameSpace.checkMatch Sample.cfg Cases.numbersCourse "1" [] s =
    GameSpace.set_analyticsData (Some (counters s)) s.
Proof.
  intros s w.
  assert (H1 : GameSpace.inputReady s = true) by reflexivity.
  assert (H2 : GameSpace.currentWords s !! GameSpace.currentWordIndex s = Some w)
    by reflexivity.
  assert (H3 : counters s !! GameSpace.propKey (GameSpace.letterOf w) = None)
    by (vm_compute; reflexivity).
  split; [exact H1|]. split; [exact H2|]. split; [exact H3|].
  exact (symbol_without_counter Sample.cfg Cases.numbersCourse "1" [] s w H1 H2 H3).
Defined.

(** ** A practice session *)

Section PracticeSession.
Import PracticeState.

Lemma typeAll_app l1 l2 s : typeAll (l1 ++ l2) s = typeAll l2 (typeAll l1 s).
Proof. apply foldl_app. Qed.

Lemma handleInput_complete letter s : sessionComplete s = true -> handleInput letter s = s.
Proof. intros H. unfold handleInput. by rewrite H. Qed.

Lemma typeAll_complete letters s : sessionComplete s = true -> typeAll letters s = s.
Proof.
  intros H. induction letters as [|l letters IH]; [done|].
  cbn [typeAll foldl]. fold (typeAll letters (handleInput l s)).
  by rewrite handleInput_complete.
Qed.

Lemma mismatches_app l1 l2 t1 t2 :
  length l1 = length t1 ->
  mismatches (l1 ++ l2) (t1 ++ t2) = mismatches l1 t1 + mismatches l2 t2.
Proof.
  revert t1. induction l1 as [|x l1 IH]; intros [|c t1] Hlen; try done.
  cbn [app mismatches]. rewrite IH by (simpl in Hlen; lia). lia.
Qed.

Lemma mismatches_bounds letters expected :
  0 <= mismatches letters expected <= Z.of_nat (length letters).
Proof.
  revert expected. induction letters as [|x letters IH]; intros [|c expected];
    cbn [mismatches length]; try lia.
  specialize (IH expected). case_bool_decide; lia.
Qed.

(** The last letter of a phrase: what else [advancePhrase] leaves. *)
Lemma typeAll_phrase letters s :
  accepted s ->
  length letters = (length (getCurrentTarget s) - currentCharIndex s)%nat ->
  let s' := typeAll letters s in
  sessionPhrases s' = sessionPhrases s /\
  sessionComplete s' =
    bool_decide (length (sessionPhrases s) <= S (currentPhraseIndex s))%nat.
Proof.
  revert s. induction letters as [|letter letters IH]; intros s Hacc Hlen s'.
  - destruct Hacc as [_ Hlt]. simpl in Hlen. lia.
  - subst s'. cbn [typeAll foldl]. fold (typeAll letters (handleInput letter s)).
    destruct (handleInput_step letter s Hacc)
      as (expected & Hexp & Hstep & Hp & Hi & Hc & Hs & He & _).
    simpl in Hlen. destruct Hacc as [Hgo Hlt].
    destruct (Nat.leb_spec (length (getCurrentTarget s)) (S (currentCharIndex s)))
      as [Hlast|Hmore].
    + destruct letters; [|simpl in Hlen; lia].
      rewrite Hstep. cbn [typeAll foldl].
      set (s1 := moveOn (judge letter expected s)) in *.
      unfold advancePhrase. cbn [sessionPhrases currentPhraseIndex].
      rewrite Hp, Hi.
      destruct (Nat.leb_spec (length (sessionPhrases s)) (S (currentPhraseIndex s))).
      * rewrite bool_decide_eq_true_2 by done. done.
      * rewrite bool_decide_eq_false_2 by lia. done.
    + rewrite Hstep.
      set (s1 := moveOn (judge letter expected s)) in *.
      assert (Htarget : getCurrentTarget s1 = getCurrentTarget s).
      { unfold getCurrentTarget, getCurrentPhrase. by rewrite Hp, Hi. }
      assert (Hacc1 : accepted s1).
      { split; [done|]. rewrite Htarget, Hc. lia. }
      destruct (IH s1 Hacc1) as (Hp' & Hs').
      { rewrite Htarget, Hc. lia. }
      by rewrite Hp', Hs', Hp, Hi.
Qed.

Lemma session_from letters s :
  sessionComplete s = false ->
  currentCharIndex s = 0%nat ->
  (currentPhraseIndex s < length (sessionPhrases s))%nat ->
  Forall (fun target => target <> []) (sessionTargets s) ->
  let rest := concat (drop (currentPhraseIndex s) (sessionTargets s)) in
  length letters = length rest ->
  let s' := typeAll letters s in
  sessionComplete s' = true /\
  sessionPhrases s' = sessionPhrases s /\
  totalErrors s' = totalErrors s + mismatches letters rest.
Proof.
  remember (length (sessionPhrases s) - currentPhraseIndex s)%nat as todo eqn:Htodo.
  revert letters s Htodo.
  induction todo as [|todo IH]; intros letters s Htodo Hgo Hc Hk Hne rest Hlen s';
    [lia|].
  assert (Hphrase : exists phrase, sessionPhrases s !! currentPhraseIndex s = Some phrase)
    by by apply lookup_lt_is_Some_2.
  destruct Hphrase as [phrase Hphrase].
  assert (Htarget : getCurrentTarget s = normalizePhrase phrase).
  { unfold getCurrentTarget, getCurrentPhrase. by rewrite Hphrase. }
  assert (Hdrop : drop (currentPhraseIndex s) (sessionTargets s)
                  = normalizePhrase phrase
                    :: drop (S (currentPhraseIndex s)) (sessionTargets s)).
  { apply drop_S. unfold sessionTargets. by rewrite list_lookup_fmap, Hphrase. }
  assert (Hnonempty : normalizePhrase phrase <> []).
  { rewrite Forall_forall in Hne. apply Hne. unfold sessionTargets.
    apply list_elem_of_fmap. exists phrase. split; [done|].
    by eapply list_elem_of_lookup_2. }
  assert (Hacc : accepted s).
  { split; [done|]. rewrite Hc, Htarget. destruct (normalizePhrase phrase); [done|simpl; lia]. }
  subst rest. rewrite Hdrop in *. cbn [concat] in *. rewrite length_app in Hlen.
  set (n := length (normalizePhrase phrase)) in *.
  assert (Hsplit : letters = take n letters ++ drop n letters) by by rewrite take_drop.
  assert (Hn1 : length (take n letters) = n) by (rewrite length_take; lia).
  assert (Hn2 : length (drop n letters)
                = length (concat (drop (S (currentPhraseIndex s)) (sessionTargets s))))
    by (rewrite length_drop; lia).
  subst s'. rewrite Hsplit, typeAll_app, mismatches_app by done.
  set (s1 := typeAll (take n letters) s).
  destruct (typeAll_rest (take n letters) s Hacc) as (Herr & _ & Hend).
  { rewrite Hn1, Htarget, Hc. unfold n. lia. }
  rewrite Hc, drop_0, Htarget in Herr, Hend.
  destruct (Hend Hn1) as [Hi1 Hc1].
  destruct (typeAll_phrase (take n letters) s Hacc) as [Hp1 Hs1].
  { rewrite Hn1, Htarget, Hc. unfold n. lia. }
  fold s1 in Herr, Hi1, Hc1, Hp1, Hs1.
  destruct (decide (length (sessionPhrases s) <= S (currentPhraseIndex s))%nat) as [Hlast|Hmore].
  - rewrite bool_decide_eq_true_2 in Hs1 by done.
    rewrite typeAll_complete by done.
    assert (Hnil : drop (S (currentPhraseIndex s)) (sessionTargets s) = []).
    { apply drop_ge. unfold sessionTargets. rewrite length_fmap. lia. }
    rewrite Hnil in *. cbn [concat length] in Hn2.
    apply nil_length_inv in Hn2. rewrite Hn2. cbn [mismatches].
    split_and!; [done|done|lia].
  - rewrite bool_decide_eq_false_2 in Hs1 by done.
    assert (Ht1 : sessionTargets s1 = sessionTargets s)
      by (unfold sessionTargets; by rewrite Hp1).
    destruct (IH (drop n letters) s1) as (Hs2 & Hp2 & He2).
    + rewrite Hp1, Hi1. lia.
    + done.
    + done.
    + rewrite Hp1, Hi1. lia.
    + by rewrite Ht1.
    + by rewrite Ht1, Hi1.
    + rewrite Ht1, Hi1 in He2. split_and!; [done|congruence|lia].
Qed.

(** X7.  A practice session that has phrases, each with a letter or
    digit in it, and is at its start: as many inputs as the targets of
    its phrases have characters complete the session, whatever the
    inputs are; the errors counted are the inputs that differ from the
    character at their place in the targets put one after the other, so
    at most one for each input; and inputs after that change nothing. *)
Theorem session_completes letters s :
  sessionComplete s = false ->
  currentPhraseIndex s = 0%nat ->
  currentCharIndex s = 0%nat ->
  sessionPhrases s <> [] ->
  Forall (fun target => target <> []) (sessionTargets s) ->
  length letters = length (concat (sessionTargets s)) ->
  let s' := typeAll letters s in
  sessionComplete s' = true /\
  totalErrors s' = totalErrors s + mismatches letters (concat (sessionTargets s)) /\
  totalErrors s <= totalErrors s' <= totalErrors s + Z.of_nat (length letters) /\
  forall more, typeAll more s' = s'.
Proof.
  intros Hgo Hk Hc Hne Hall Hlen s'.
  destruct (session_from letters s) as (Hdone & _ & Herr); try done.
  { rewrite Hk. destruct (sessionPhrases s); [done|simpl; lia]. }
  { by rewrite Hk, drop_0. }
  rewrite Hk, drop_0 in Herr. fold s' in Hdone, Herr.
  pose proof (mismatches_bounds letters (concat (sessionTargets s))).
  split_and!; [done|done|lia|lia|].
  intros more. by apply typeAll_complete.
Qed.

End PracticeSession.

(** X7 on a session of two phrases, whose targets are "soitis" and
    "goon": ten inputs, two of them wrong, complete it. *)
Lemma session_completes_witness :
  let s := Cases.practice in
  let letters := ["s"; "o"; "i"; "t"; "x"; "s"; "g"; "o"; "o"; "m"] in
  let s' := typeAll letters s in
  PracticeState.sessionComplete s = false /\
  PracticeState.currentPhraseIndex s = 0%nat /\
  PracticeState.currentCharIndex s = 0%nat /\
  PracticeState.sessionPhrases s <> [] /\
  Forall (fun target => target <> []) (sessionTargets s) /\
  length letters = length (concat (sessionTargets s)) /\
  PracticeState.sessionComplete s' = true /\
  PracticeState.totalErrors s' =
    PracticeState.totalErrors s + mismatches letters (concat (sessionTargets s)) /\
  PracticeState.totalErrors s' = 2.
Proof.
  intros s letters s'.
  assert (H1 : PracticeState.sessionComplete s = false) by reflexivity.
  assert (H2 : PracticeState.currentPhraseIndex s = 0%nat) by reflexivity.
  assert (H3 : PracticeState.currentCharIndex s = 0%nat) by reflexivity.
  assert (H4 : PracticeState.sessionPhrases s <> []) by discriminate.
  assert (H5 : Forall (fun target => target <> []) (sessionTargets s))
    by (repeat constructor; vm_compute; discriminate).
  assert (H6 : length letters = length (concat (sessionTargets s))) by reflexivity.
  destruct (session_completes letters s H1 H2 H3 H4 H5 H6) as (Hdone & Herr & _ & _).
  split_and!; [exact H1|exact H2|exact H3|exact H4|exact H5|exact H6|exact Hdone|
               exact Herr|vm_compute; reflexivity].
Defined.

(** ** The percentages and the course metrics *)

Section PercentRange.
Import Progress Metrics.

Lemma reduceScores_ge (values : list Js.num) (t : Z) :
  Forall (fun v => exists z, v = Js.Num z /\ t <= z) values ->
  Z.of_nat (length values) * t <= reduceScores values.
Proof.
  unfold reduceScores. rewrite foldl_sum, Z.add_0_l.
  induction 1 as [|v values (z & -> & Hz) _ IH]; cbn [foldr length]; [lia|].
  cbn [Js.numberOr0]. lia.
Qed.

Lemma percent_bounds total maxScore :
  0 < maxScore ->
  0 <= Z.min 100 (Z.max 0 total * 100 / maxScore) <= 100 /\
  (Z.min 100 (Z.max 0 total * 100 / maxScore) = 100 <-> maxScore <= total).
Proof.
  intros Hpos.
  assert (0 <= Z.max 0 total * 100 / maxScore) by (apply Z.div_pos; lia).
  split; [lia|]. split.
  - intros Hmin.
    assert (Hge : 100 <= Z.max 0 total * 100 / maxScore) by lia.
    destruct (Z.le_gt_cases maxScore total) as [|Hlt]; [done|exfalso].
    assert (Z.max 0 total * 100 / maxScore < 100); [|lia].
    apply Z.div_lt_upper_bound; lia.
  - intros Hle.
    assert (100 <= Z.max 0 total * 100 / maxScore); [|lia].
    apply Z.div_le_lower_bound; lia.
Qed.

Lemma calculateCourseProgressPercent_range (progress : option (gmap string Js.num))
    (learnedThreshold : option Z) :
  0 <= default 2 learnedThreshold ->
  0 <= calculateCourseProgressPercent progress learnedThreshold <= 100.
Proof.
  intros Ht. unfold calculateCourseProgressPercent.
  case_bool_decide; [lia|].
  destruct (Z.eqb_spec (Z.of_nat (length (entries progress).*1) * default 2 learnedThreshold) 0);
    [lia|].
  apply percent_bounds. unfold entries in *. rewrite entries_length in *.
  assert (size (default ∅ progress) <> 0%nat); [|lia].
  apply map_size_non_empty_iff. intros E. rewrite E in *. done.
Qed.

(** X8.  For every progress map whose scores double arithmetic adds
    without rounding (at most 2^20 entries, each an integer of absolute
    value at most 2^20 or not a number; [null] and [undefined]
    included), and every threshold that is an integer from 0 to 2^20,
    the percentage of [buildCourseMetric] and the percentage of the
    server lie between 0 and 100, and the metric says [completed]
    exactly when the threshold times the number of keys is positive and
    the sum of the scores has reached it. *)
Theorem progress_percent_range (progress : option (gmap string Js.num))
    (learnedThreshold : option Z) :
  exactScores (default ∅ progress) ->
  0 <= default 2 learnedThreshold <= 2 ^ 20 ->
  let m := buildCourseMetric progress learnedThreshold in
  let n := Z.of_nat (size (default ∅ progress)) in
  0 <= progress_percent m <= 100 /\
  0 <= calculateProgressPercent progress <= 100 /\
  (completed m = true <->
     0 < n * default 2 learnedThreshold <= sumOfScores (default ∅ progress)).
Proof.
  intros _ [Ht _] m n. subst m n. unfold buildCourseMetric.
  cbn [progress_percent completed].
  unfold calculateCourseProgressPercent, calculateProgressPercent, entries.
  set (d := default ∅ progress). set (t := default 2 learnedThreshold) in *.
  rewrite entries_length, reduceScores_sum.
  destruct (decide (d = ∅)) as [Hd|Hd].
  - assert (Hsz : size d = 0%nat) by by apply map_size_empty_iff.
    rewrite !bool_decide_eq_true_2 by done. rewrite Hsz.
    split; [lia|]. split; [lia|]. rewrite Z.leb_le. lia.
  - assert (Hsz : size d <> 0%nat) by by apply map_size_non_empty_iff.
    rewrite !bool_decide_eq_false_2 by done.
    destruct (percent_bounds (sumOfScores d) (Z.of_nat (size d) * 2)) as [Hb2 _]; [lia|].
    split; [|split; [done|]].
    + destruct (Z.eqb_spec (Z.of_nat (size d) * t) 0) as [Hz|Hz]; [lia|].
      apply percent_bounds; lia.
    + destruct (Z.eqb_spec (Z.of_nat (size d) * t) 0) as [Hz|Hz].
      * rewrite Z.leb_le. lia.
      * destruct (percent_bounds (sumOfScores d) (Z.of_nat (size d) * t)) as [Hb He];
          [lia|].
        rewrite Z.leb_le. split.
        -- intros H100. split; [lia|]. apply He. lia.
        -- intros [_ Hle]. apply He in Hle. lia.
Qed.

End PercentRange.

(** X8 on the scores of a course that is learned, with the default
    threshold. *)
Lemma progress_percent_range_witness :
  let progress := Some Cases.learnedScores in
  let m := Metrics.buildCourseMetric progress None in
  Progress.exactScores (default ∅ progress) /\
  0 <= default 2 (@None Z) <= 2 ^ 20 /\
  0 <= Metrics.progress_percent m <= 100 /\
  0 <= Progress.calculateProgressPercent progress <= 100.
Proof.
  intros progress m.
  assert (Hm : Progress.exactScores (default ∅ progress)).
  { split; [vm_compute; discriminate|].
    apply map_Forall_to_list. by_evaluation. }
  assert (H : 0 <= default 2 (@None Z) <= 2 ^ 20)
    by (split; vm_compute; discriminate).
  destruct (progress_percent_range progress None Hm H) as (H1 & H2 & _).
  split; [exact Hm|]. split; [exact H|]. split; assumption.
Defined.

Section Congratulated.
Import GameSpace Progress Metrics.
Variables (cfg : Config) (course : Course).

(** X9.  When the keys of the scores are the letters of a course that
    has letters, the threshold is at least 2 and
    [checkAllLettersLearned] answers true (the congratulations are
    shown), then the metric built from these scores is 100 percent and
    completed, and the server computes 100 percent as well. *)
Theorem congratulated_course_is_complete s :
  keysAreCourse course (letterScoreDict s) ->
  lettersToLearn course <> [] ->
  2 <= LEARNED_THRESHOLD cfg ->
  (checkAllLettersLearned cfg course s).1 = true ->
  let m := buildCourseMetric (Some (letterScoreDict s)) None in
  progress_percent m = 100 /\ completed m = true /\
  calculateProgressPercent (Some (letterScoreDict s)) = 100.
Proof.
  intros Hkeys Hne HT Hall m. subst m.
  pose proof (proj1 (checkAllLettersLearned_all cfg course s Hkeys) Hall) as Hlearned.
  clear Hall. rename Hlearned into Hall.
  set (d := letterScoreDict s) in *.
  assert (Hvals : Forall (fun v => exists z, v = Js.Num z /\ 2 <= z) (map_to_list d).*2).
  { apply Forall_forall. intros v Hv. apply list_elem_of_fmap in Hv as ([k v'] & -> & Hin).
    apply elem_of_map_to_list in Hin. cbn [snd].
    destruct Hkeys as [_ Hkeys].
    destruct (Hall k) as (z & Hz & Hle); [apply Hkeys; eauto|].
    rewrite Hz in Hin. injection Hin as <-. exists z. split; [done|lia]. }
  apply reduceScores_ge in Hvals. rewrite length_fmap, length_map_to_list in Hvals.
  assert (Hsz : size d <> 0%nat).
  { apply map_size_non_empty_iff. intros Hd. destruct (lettersToLearn course) as [|l ?] eqn:E;
      [done|].
    destruct Hkeys as [_ Hkeys]. destruct (proj1 (Hkeys l)) as [v Hv].
    - rewrite E. apply list_elem_of_here.
    - rewrite Hd in Hv. by rewrite lookup_empty in Hv. }
  assert (Hp : calculateProgressPercent (Some d) = 100).
  { unfold calculateProgressPercent, entries. cbn [default from_option id].
    rewrite entries_length, bool_decide_eq_false_2 by done.
    apply percent_bounds; lia. }
  assert (Hc : calculateCourseProgressPercent (Some d) None = 100).
  { unfold calculateCourseProgressPercent, entries. cbn [default from_option id].
    rewrite entries_length, bool_decide_eq_false_2 by done.
    destruct (Z.eqb_spec (Z.of_nat (size d) * 2) 0); [lia|].
    apply percent_bounds; lia. }
  unfold buildCourseMetric. cbn [progress_percent completed]. by rewrite Hc.
Qed.

End Congratulated.

(** X9 on a session in which every letter of the course is learned. *)
Lemma congratulated_course_is_complete_witness :
  let s := Cases.learned in
  let m := Metrics.buildCourseMetric (Some (GameSpace.letterScoreDict s)) None in
  keysAreCourse Sample.abcCourse (GameSpace.letterScoreDict s) /\
  GameSpace.lettersToLearn Sample.abcCourse <> [] /\
  2 <= GameSpace.LEARNED_THRESHOLD Sample.cfg /\
  (GameSpace.checkAllLettersLearned Sample.cfg Sample.abcCourse s).1 = true /\
  Metrics.progress_percent m = 100 /\ Metrics.completed m = true /\
  Progress.calculateProgressPercent (Some (GameSpace.letterScoreDict s)) = 100.
Proof.
  intros s m.
  assert (H1 : keysAreCourse Sample.abcCourse (GameSpace.letterScoreDict s)).
  { split; [by_evaluation|]. intros l. split.
    - intros Hl. repeat (apply elem_of_cons in Hl as [->|Hl]; [by eexists|]).
      by apply elem_of_nil in Hl.
    - intros [v Hv].
      destruct (decide (l = "a")) as [->|Ha]; [by_evaluation|].
      destruct (decide (l = "b")) as [->|Hb]; [by_evaluation|].
      destruct (decide (l = "c")) as [->|Hc]; [by_evaluation|].
      destruct (decide (l = "d")) as [->|Hd]; [by_evaluation|].
      exfalso. revert Hv.
      change (GameSpace.letterScoreDict s)
        with (<["a" := Js.Num 2]> (<["b" := Js.Num 3]> (<["c" := Js.Num 2]>
                (<["d" := Js.Num 4]> (∅ : gmap string Js.num))))).
      rewrite !lookup_insert_ne by done. by rewrite lookup_empty. }
  assert (H2 : GameSpace.lettersToLearn Sample.abcCourse <> []) by discriminate.
  assert (H3 : 2 <= GameSpace.LEARNED_THRESHOLD Sample.cfg) by (vm_compute; discriminate).
  assert (H4 : (GameSpace.checkAllLettersLearned Sample.cfg Sample.abcCourse s).1 = true)
    by (vm_compute; reflexivity).
  destruct (congratulated_course_is_complete Sample.cfg Sample.abcCourse s H1 H2 H3 H4)
    as (Hp & Hc & Hs).
  split_and!; assumption.
Defined.

(** ** The API service *)

Section ServerProps.
Import Server.

(** *** requireDataExportPassword *)

(** X10.  A request passes the password check of the export routes
    exactly when a password is configured that is not empty and the
    request gives that very password, as the query parameter, or in the
    header when the query parameter is missing or empty.  So nothing
    passes when no password is configured, and a query parameter that
    is wrong is not made good by the header. *)
Theorem password_gate required query header :
  requireDataExportPassword required query header = Next <->
  exists r, required = Some r /\ r <> "" /\
    (query = QString r \/
     ((query = QMissing \/ query = QString "") /\ header = Some r)).
Proof.
  unfold requireDataExportPassword, providedPassword. split.
  - destruct required as [r|]; [|done].
    destruct (decide (r = "")) as [->|Hr]; [done|].
    intros H. exists r. split; [done|]. split; [done|].
    assert (Hkeep : forall (v : Verdict), match r with "" => NotConfigured | _ => v end = v)
      by (intros v; destruct r; [done|done]).
    rewrite Hkeep in H.
    destruct query as [|q|].
    + destruct header as [h|]; [|done]. destruct h; [done|].
      case_bool_decide; [|done]. subst. right. auto.
    + destruct q.
      * destruct header as [h|]; [|done]. destruct h; [done|].
        case_bool_decide; [|done]. subst. right. auto.
      * case_bool_decide; [|done]. subst. by left.
    + done.
  - intros (r & -> & Hr & H). destruct r as [|a r]; [done|].
    destruct H as [->|[[->| ->] ->]]; by rewrite bool_decide_eq_true_2.
Qed.


Lemma clampPercent_range x : 0 <= clampPercent x <= 100.
Proof. unfold clampPercent. lia. Qed.

Lemma clampPercent_Z p : 0 <= p <= 100 -> clampPercent (inject_Z p) = p.
Proof. intros Hp. unfold clampPercent. rewrite Qfloor_Z. lia. Qed.

Lemma normalizeSingleCourseMetric_wellFormed metric :
  wellFormed (normalizeSingleCourseMetric metric).
Proof.
  unfold normalizeSingleCourseMetric, wellFormed.
  destruct metric as [[[x|]]|]; cbn [percent completed]; try done.
  pose proof (clampPercent_range x). rewrite Z.leb_le. lia.
Qed.

(** X11.  Whatever the course metrics of the payload hold, and for
    every progress dump whose scores double arithmetic adds without
    rounding (at most 2^20 entries, each an integer of absolute value at
    most 2^20 or not a number; a missing dump included): each of the
    three normalized course metrics has a percentage between 0 and 100
    with [completed] saying that it is 100, or no percentage and
    [completed] false; the alphabet has a percentage; and
    [getNumericProgress] reads from the stored metric the percentage
    that was stored. *)
Theorem normalized_metrics_well_formed courseMetrics alphabetProgressDump :
  Progress.exactScores (default ∅ alphabetProgressDump) ->
  let n := normalizeCourseMetrics courseMetrics alphabetProgressDump in
  wellFormed (n_alphabet n) /\ is_Some (percent (n_alphabet n)) /\
  wellFormed (n_numbers n) /\ wellFormed (n_keyboard n) /\
  getNumericProgress (stored (n_alphabet n)) = percent (n_alphabet n) /\
  getNumericProgress (stored (n_numbers n)) = percent (n_numbers n) /\
  getNumericProgress (stored (n_keyboard n)) = percent (n_keyboard n).
Proof.
  intros _ n. subst n. unfold normalizeCourseMetrics.
  cbn [n_alphabet n_numbers n_keyboard].
  assert (Hread : forall r, wellFormed r -> getNumericProgress (stored r) = percent r).
  { intros [[p|] c]; unfold wellFormed, stored, getNumericProgress; cbn [percent completed];
      [|done].
    intros [Hp _]. by rewrite clampPercent_Z. }
  set (a := match courseMetrics ≫= alphabet with
            | Some {| progress_percent := Finite x |} => clampPercent x
            | _ => Progress.calculateProgressPercent alphabetProgressDump
            end).
  assert (Ha : 0 <= a <= 100).
  { subst a. destruct (courseMetrics ≫= alphabet) as [[[x|]]|];
      [apply clampPercent_range| |].
    all: unfold Progress.calculateProgressPercent; case_bool_decide; [lia|];
      match goal with |- context [Z.min 100 ?q] =>
        assert (0 <= q) by (apply Z.div_pos; lia) end; lia. }
  assert (Hwa : wellFormed {| percent := Some a; completed := 100 <=? a |}).
  { unfold wellFormed. cbn [percent completed]. rewrite Z.leb_le. lia. }
  pose proof (normalizeSingleCourseMetric_wellFormed (courseMetrics ≫= numbers)).
  pose proof (normalizeSingleCourseMetric_wellFormed (courseMetrics ≫= keyboard)).
  split_and!; try done; by apply Hread.
Qed.

(** *** dedupeLatestSnapshots *)

Lemma dedupeFrom_spec seen rows :
  let out := dedupeFrom seen rows in
  out `sublist_of` rows /\
  NoDup (user_identifier <$> out) /\
  (forall row, row ∈ out -> user_identifier row ∉ seen) /\
  (forall row, row ∈ rows -> user_identifier row ∉ seen ->
     user_identifier row ∈ user_identifier <$> out) /\
  (forall row, row ∈ out ->
     exists before after,
       rows = before ++ row :: after /\
       user_identifier row ∉ user_identifier <$> before).
Proof.
  revert seen. induction rows as [|r rows IH]; intros seen out; subst out.
  - cbn [dedupeFrom]. split_and!; [done|constructor| | |]; by intros ? ?%elem_of_nil.
  - cbn [dedupeFrom]. case_bool_decide as Hseen.
    + destruct (IH seen) as (Hsub & Hnd & Hout & Hin & Hfirst).
      split_and!; [by apply sublist_cons|done|done| |].
      * intros row [->|Hrow]%elem_of_cons Hn; [done|]. by apply Hin.
      * intros row Hrow. destruct (Hfirst row Hrow) as (before & after & -> & Hnb).
        exists (r :: before), after. split; [done|]. rewrite fmap_cons, not_elem_of_cons.
        split; [|done]. intros E. apply (Hout row Hrow). by rewrite E.
    + destruct (IH ({[user_identifier r]} ∪ seen)) as (Hsub & Hnd & Hout & Hin & Hfirst).
      split_and!.
      * by apply sublist_skip.
      * rewrite fmap_cons. apply NoDup_cons. split; [|done].
        intros ([row] & E & Hrow)%list_elem_of_fmap. apply (Hout _ Hrow).
        apply elem_of_union_l, elem_of_singleton. by cbn in E.
      * intros row [->|Hrow]%elem_of_cons; [done|]. apply Hout in Hrow.
        intros ?. by apply Hrow, elem_of_union_r.
      * intros row [->|Hrow]%elem_of_cons Hn; [rewrite fmap_cons; apply list_elem_of_here|].
        rewrite fmap_cons. destruct (decide (user_identifier row = user_identifier r)) as [E|E].
        -- rewrite E. apply list_elem_of_here.
        -- apply list_elem_of_further, Hin; [done|].
           intros [?%elem_of_singleton|?]%elem_of_union; done.
      * intros row [->|Hrow]%elem_of_cons.
        -- exists [], rows. split; [done|]. cbn. apply not_elem_of_nil.
        -- destruct (Hfirst row Hrow) as (before & after & -> & Hnb).
           exists (r :: before), after. split; [done|]. rewrite fmap_cons, not_elem_of_cons.
           split; [|done]. intros E. apply Hout in Hrow.
           by apply Hrow, elem_of_union_l, elem_of_singleton.
Qed.

(** X12.  [dedupeLatestSnapshots] keeps, in their order, some of the
    rows it is given: one row for every user that has one, namely the
    first row of that user; and applied to its own result it changes
    nothing. *)
Theorem dedupeLatestSnapshots_first_per_user rows :
  let out := dedupeLatestSnapshots rows in
  out `sublist_of` rows /\
  NoDup (user_identifier <$> out) /\
  (forall u, u ∈ user_identifier <$> rows <-> u ∈ user_identifier <$> out) /\
  (forall row, row ∈ out ->
     exists before after,
       rows = before ++ row :: after /\
       user_identifier row ∉ user_identifier <$> before) /\
  dedupeLatestSnapshots out = out.
Proof.
  intros out. subst out. unfold dedupeLatestSnapshots.
  destruct (dedupeFrom_spec ∅ rows) as (Hsub & Hnd & _ & Hin & Hfirst).
  split_and!; [done|done| |done|].
  - intros u. split.
    + intros (row & -> & Hrow)%list_elem_of_fmap. apply Hin; [done|apply not_elem_of_empty].
    + intros (row & -> & Hrow)%list_elem_of_fmap. apply list_elem_of_fmap.
      exists row. split; [done|]. by eapply elem_of_sublist.
  - revert Hnd. generalize (dedupeFrom ∅ rows). intros l.
    assert (Hgen : forall seen, NoDup (user_identifier <$> l) ->
              (forall row, row ∈ l -> user_identifier row ∉ seen) ->
              dedupeFrom seen l = l); [|intros ?; apply Hgen; [done|intros ? _; apply not_elem_of_empty]].
    induction l as [|r l IH]; intros seen Hnd Hseen; [done|].
    cbn [dedupeFrom]. rewrite bool_decide_eq_false_2 by (apply Hseen, list_elem_of_here).
    f_equal. rewrite fmap_cons in Hnd. apply NoDup_cons in Hnd as [Hr Hnd].
    apply IH; [done|]. intros row Hrow.
    assert (user_identifier row <> user_identifier r).
    { intros E. apply Hr. rewrite <- E. apply list_elem_of_fmap. eauto. }
    assert (user_identifier row ∉ seen) by (apply Hseen; by apply list_elem_of_further).
    intros [?%elem_of_singleton|?]%elem_of_union; done.
Qed.


(** *** The payload of an honest client *)

(** X13.  The course metrics that [sendProgress] builds from the three
    saved dictionaries pass the normalization of the server unchanged:
    each percentage stored is the one that the server itself computes
    from that dictionary.  A payload without course metrics gets the
    same alphabet metric from the alphabet dictionary, and no
    percentage for the numbers and the keyboard. *)
Theorem client_metrics_kept alphabetProgress numbersProgress keyboardProgress :
  let n := normalizeCourseMetrics
             (sentCourseMetrics alphabetProgress numbersProgress keyboardProgress)
             alphabetProgress in
  let legacy := normalizeCourseMetrics None alphabetProgress in
  percent (n_alphabet n) = Some (Progress.calculateProgressPercent alphabetProgress) /\
  percent (n_numbers n) = Some (Progress.calculateProgressPercent numbersProgress) /\
  percent (n_keyboard n) = Some (Progress.calculateProgressPercent keyboardProgress) /\
  n_alphabet legacy = n_alphabet n /\
  percent (n_numbers legacy) = None /\ percent (n_keyboard legacy) = None.
Proof.
  intros n legacy. subst n legacy.
  unfold normalizeCourseMetrics, sentCourseMetrics, sentMetric, normalizeSingleCourseMetric.
  cbn [mbind option_bind alphabet numbers keyboard n_alphabet n_numbers n_keyboard
       percent progress_percent].
  assert (Hsame : forall progress,
            clampPercent (inject_Z (Metrics.progress_percent
                                      (Metrics.buildCourseMetric progress None)))
            = Progress.calculateProgressPercent progress).
  { intros progress.
    pose proof (calculateCourseProgressPercent_range progress None ltac:(done)) as Hr.
    rewrite clampPercent_Z by done. cbn [Metrics.buildCourseMetric Metrics.progress_percent].
    unfold Progress.calculateCourseProgressPercent, Progress.calculateProgressPercent.
    cbn [default from_option id]. case_bool_decide; [done|].
    destruct (Z.eqb_spec (Z.of_nat (length (Progress.entries progress).*1) * 2) 0); [lia|done]. }
  rewrite !Hsame. done.
Qed.

(** *** The pages of the export *)

Lemma chunks {A} (l : list A) (n k : nat) :
  (length l <= k * n)%nat ->
  concat ((fun i => take n (drop (i * n) l)) <$> seq 0 k) = l.
Proof.
  revert l. induction k as [|k IH]; intros l Hlen.
  - destruct l; [done|simpl in Hlen; lia].
  - cbn [seq fmap list_fmap concat]. rewrite Nat.mul_0_l, drop_0.
    rewrite <- fmap_S_seq, <- list_fmap_compose.
    rewrite <- (take_drop n l) at 2. f_equal.
    rewrite <- (IH (drop n l)) by (rewrite length_drop; lia).
    f_equal. apply list_fmap_ext. intros _ i _. cbn [compose].
    rewrite drop_drop. do 2 f_equal; lia.
Qed.

Lemma ceilDiv_spec a b : 0 < b -> 0 <= a -> a <= ceilDiv a b * b < a + b.
Proof.
  intros Hb Ha. unfold ceilDiv.
  pose proof (Z.div_mod (- a) b ltac:(lia)) as Hdm.
  pose proof (Z.mod_pos_bound (- a) b Hb). nia.
Qed.


(** *** A field of the CSV export *)

(** X15.  A text field of the CSV export can be read back: when two
    values, each written as a field and followed by text that does not
    begin with a double quote (a comma, a line end, or nothing), give
    the same text, the values are the same and so is what follows.  So
    a comma, a line end or a double quote inside a value cannot be
    taken for the end of its field. *)
Theorem csvField_self_delimiting (s1 s2 r1 r2 : list ascii) :
  head r1 <> Some quote -> head r2 <> Some quote ->
  csvField s1 ++ r1 = csvField s2 ++ r2 ->
  s1 = s2 /\ r1 = r2.
Proof.
  unfold csvField. intros Hr1 Hr2 H. rewrite <- !app_assoc in H.
  apply (inj (app [quote])) in H.
  revert s2 H. unfold doubleQuotes.
  induction s1 as [|c1 s1 IH]; intros [|c2 s2] H.
  - cbn [mbind list_bind app] in H. by injection H as ->.
  - rewrite bind_cons in H. cbn [mbind list_bind app] in H.
    case_bool_decide as Hc; cbn [app] in H.
    + injection H as ->. by destruct Hr1.
    + injection H as E _. by destruct Hc.
  - rewrite bind_cons in H. cbn [mbind list_bind app] in H.
    case_bool_decide as Hc; cbn [app] in H.
    + injection H as <-. by destruct Hr2.
    + injection H as E _. by destruct Hc.
  - rewrite !bind_cons, <- !app_assoc in H.
    destruct (decide (c1 = quote)) as [->|H1], (decide (c2 = quote)) as [->|H2].
    + rewrite !bool_decide_eq_true_2 in H by done. cbn [app] in H.
      injection H as H. destruct (IH s2) as [-> ->]; done.
    + rewrite bool_decide_eq_true_2, bool_decide_eq_false_2 in H by done.
      cbn [app] in H. injection H as E H. by subst c2.
    + rewrite bool_decide_eq_false_2, bool_decide_eq_true_2 in H by done.
      cbn [app] in H. injection H as E H. by subst c1.
    + rewrite !bool_decide_eq_false_2 in H by done. cbn [app] in H.
      injection H as -> H. destruct (IH s2) as [-> ->]; done.
Qed.

End ServerProps.

(** X11 on a payload that gives 250.5 percent for the numbers, nothing
    finite for the keyboard and nothing for the alphabet, whose dump has
    the scores a: 2, b: -1, c: 3: the alphabet gets the 66 percent of
    the dump, the numbers 100 percent and completed, the keyboard no
    percentage. *)
Lemma normalized_metrics_well_formed_witness :
  let courseMetrics :=
    Some {| Server.alphabet := None;
            Server.numbers :=
              Some {| Server.progress_percent := Server.Finite (501 # 2) |};
            Server.keyboard :=
              Some {| Server.progress_percent := Server.NotFinite |} |} in
  let dump := Some (Sample.scores [("a", 2); ("b", -1); ("c", 3)]) in
  let n := Server.normalizeCourseMetrics courseMetrics dump in
  Progress.exactScores (default ∅ dump) /\
  wellFormed (Server.n_alphabet n) /\
  wellFormed (Server.n_numbers n) /\
  wellFormed (Server.n_keyboard n) /\
  Server.percent (Server.n_alphabet n) = Some 66 /\
  Server.n_numbers n = {| Server.percent := Some 100; Server.completed := true |} /\
  Server.n_keyboard n = {| Server.percent := None; Server.completed := false |}.
Proof.
  intros courseMetrics dump n.
  assert (H : Progress.exactScores (default ∅ dump)).
  { split; [vm_compute; discriminate|].
    apply map_Forall_to_list. by_evaluation. }
  destruct (normalized_metrics_well_formed courseMetrics dump H)
    as (Ha & _ & Hn & Hk & _).
  split; [exact H|]. split; [exact Ha|]. split; [exact Hn|]. split; [exact Hk|].
  split_and!; vm_compute; reflexivity.
Defined.


(** X15 on a value that holds a double quote and a comma, followed by
    the next column. *)
Lemma csvField_self_delimiting_witness :
  let value := [ascii_of_nat 97; Server.quote; ascii_of_nat 44; ascii_of_nat 98] in
  let rest := [ascii_of_nat 44; ascii_of_nat 49] in
  head rest <> Some Server.quote /\
  Server.csvField value ++ rest = Server.csvField value ++ rest /\
  value = value /\ rest = rest.
Proof.
  intros value rest.
  assert (H : head rest <> Some Server.quote) by (vm_compute; discriminate).
  split; [exact H|]. split; [reflexivity|].
  exact (csvField_self_delimiting value value rest rest H H (eq_refl _)).
Defined.

(** ** The Morse board *)

Section BoardProps.
Import MorseBoard.
Variable morseDictionary : gmap string string.

Ltac bs :=
  cbn [config output timeout outputStyleTimeout outputStyleHideTimeout
       oneSwitchKeyPressed switchPressStartTime pending nextTimer commits
       set_output set_pending set_handles set_switch setTimeout
       fst snd].

Lemma append_cons (a : ascii) (v w : string) : String a v +:+ w = String a (v +:+ w).
Proof. reflexivity. Qed.

Lemma append_empty_r (v : string) : v +:+ "" = v.
Proof. induction v as [|a v IH]; [done|]. by rewrite append_cons, IH. Qed.

Lemma dropLast_snoc (v : string) (a : ascii) :
  dropLast (v +:+ String a "") = v.
Proof.
  unfold dropLast. induction v as [|c v IH]; [done|].
  rewrite append_cons. cbn [String.length Nat.sub]. rewrite Nat.sub_0_r.
  destruct (String.length (v +:+ String a "")) as [|n] eqn:E.
  - destruct v; discriminate E.
  - cbn [String.substring]. f_equal. cbn [Nat.sub] in IH. by rewrite Nat.sub_0_r in IH.
Qed.

Lemma NoDup_fst_filter (P : nat * Timer -> Prop) `{!forall x, Decision (P x)} l :
  NoDup l.*1 -> NoDup (filter P l).*1.
Proof.
  induction l as [|[i t] l IH]; [done|].
  rewrite fmap_cons. intros [Hi Hnd]%NoDup_cons.
  rewrite filter_cons. case_decide; [|by apply IH].
  rewrite fmap_cons. apply NoDup_cons. split; [|by apply IH].
  intros ([i' t'] & E & Hin)%list_elem_of_fmap. cbn in E. subst i'.
  apply list_elem_of_filter in Hin as [_ Hin]. apply Hi.
  apply list_elem_of_fmap. by exists (i, t').
Qed.

Lemma NoDup_fst_agree (l : list (nat * Timer)) i t1 t2 :
  NoDup l.*1 -> (i, t1) ∈ l -> (i, t2) ∈ l -> t1 = t2.
Proof.
  induction l as [|[j t] l IH]; intros Hnd H1 H2; [by apply not_elem_of_nil in H1|].
  rewrite fmap_cons in Hnd. apply NoDup_cons in Hnd as [Hj Hnd].
  apply elem_of_cons in H1 as [H1|H1]; apply elem_of_cons in H2 as [H2|H2].
  - congruence.
  - injection H1 as -> ->. exfalso. apply Hj, list_elem_of_fmap. by exists (j, t2).
  - injection H2 as -> ->. exfalso. apply Hj, list_elem_of_fmap. by exists (j, t1).
  - by apply IH.
Qed.

Lemma tidy_clearTimeout h s : tidy s -> tidy (clearTimeout h s).
Proof.
  intros (Hnd & Hlt & Hdeb). destruct h as [id|]; [|done].
  unfold clearTimeout, tidy. bs. split_and!.
  - by apply NoDup_fst_filter.
  - intros i t [_ Hin]%list_elem_of_filter. by eapply Hlt.
  - intros i [_ Hin]%list_elem_of_filter. by apply Hdeb.
Qed.

Lemma tidy_same s s' :
  pending s' = pending s -> nextTimer s' = nextTimer s -> timeout s' = timeout s ->
  tidy s -> tidy s'.
Proof. unfold tidy. intros -> -> ->. done. Qed.

Lemma tidy_add t s s' :
  t <> Debounce ->
  pending s' = pending s ++ [(nextTimer s, t)] -> nextTimer s' = S (nextTimer s) ->
  timeout s' = timeout s ->
  tidy s -> tidy s'.
Proof.
  unfold tidy. intros Ht -> -> -> (Hnd & Hlt & Hdeb). split_and!.
  - rewrite fmap_app. apply NoDup_app. split_and!; [done| |apply NoDup_singleton].
    intros i ([i' t'] & -> & Hin)%list_elem_of_fmap Hi.
    apply list_elem_of_singleton in Hi. cbn in Hi. apply Hlt in Hin. lia.
  - intros i t' [Hin|Hin%list_elem_of_singleton]%elem_of_app.
    + apply Hlt in Hin. lia.
    + injection Hin as -> _. lia.
  - intros i [Hin|Hin%list_elem_of_singleton]%elem_of_app; [by apply Hdeb|].
    injection Hin as _ <-. done.
Qed.

Lemma debouncing_nil s : debouncing s = [] <-> forall id, (id, Debounce) ∉ pending s.
Proof.
  unfold debouncing. split.
  - intros H%fmap_nil_inv id Hin.
    eapply (filter_nil_not_elem_of _ _ (id, Debounce)); [exact H|done|done].
  - intros H. destruct (filter _ _) as [|[i t] l] eqn:E; [done|exfalso].
    assert (Hin : (i, t) ∈ filter (fun t => t.2 = Debounce) (pending s))
      by (rewrite E; apply list_elem_of_here).
    apply list_elem_of_filter in Hin as [Ht Hin]. cbn in Ht. subst t. by eapply H.
Qed.

Lemma debouncing_same s s' : pending s' = pending s -> debouncing s' = debouncing s.
Proof. unfold debouncing. by intros ->. Qed.

Lemma debouncing_add t s s' :
  t <> Debounce -> pending s' = pending s ++ [(nextTimer s, t)] ->
  debouncing s' = debouncing s.
Proof.
  unfold debouncing. intros Ht ->. rewrite filter_app, filter_cons_False by done.
  by rewrite filter_nil, app_nil_r.
Qed.

Lemma clearTimeout_no_debounce s :
  tidy s -> debouncing (clearTimeout (timeout s) s) = [].
Proof.
  intros (Hnd & Hlt & Hdeb). apply debouncing_nil. intros id Hin.
  destruct (timeout s) as [h|] eqn:E; cbn [clearTimeout] in Hin.
  - unfold set_pending in Hin. cbn [pending] in Hin.
    apply list_elem_of_filter in Hin as [Hne Hin]. cbn in Hne.
    apply Hdeb in Hin. congruence.
  - apply Hdeb in Hin. congruence.
Qed.

Lemma showNotification_spec text s :
  let s' := showNotification text s in
  (tidy s -> tidy s') /\ debouncing s' = debouncing s /\
  output s' = output s /\ commits s' = commits s /\ config s' = config s /\
  timeout s' = timeout s.
Proof.
  unfold showNotification. case_bool_decide; [|done]. bs.
  split_and!; try done.
  - by apply (tidy_add (ShowNotification text)).
  - by apply (debouncing_add (ShowNotification text)).
Qed.

Lemma commit_spec detail s :
  let s' := commit detail s in
  (tidy s -> tidy s') /\ debouncing s' = debouncing s /\
  output s' = "" /\ commits s' = commits s ++ [detail] /\ config s' = config s /\
  timeout s' = timeout s.
Proof.
  unfold commit.
  set (s1 := if notification (config s) then _ else s).
  assert (H1 : (tidy s -> tidy s1) /\ debouncing s1 = debouncing s /\
               output s1 = output s /\ commits s1 = commits s /\ config s1 = config s /\
               timeout s1 = timeout s).
  { subst s1. destruct (notification (config s)); [|done].
    destruct (letter detail) as [l|]; [case_bool_decide|]; apply showNotification_spec. }
  destruct H1 as (Ht & Hd & Ho & Hc & Hcfg & Htm). bs.
  split_and!.
  - intros H. by apply (tidy_same s1), Ht.
  - by rewrite <- Hd.
  - done.
  - by rewrite Hc.
  - done.
  - done.
Qed.

Lemma dispatchOutput_spec s :
  let s' := dispatchOutput morseDictionary s in
  (tidy s -> tidy s') /\ debouncing s' = debouncing s /\ config s' = config s /\
  timeout s' = timeout s /\
  if bool_decide (output s = "") || negb (autoCommit (config s))
  then output s' = output s /\ commits s' = commits s
  else output s' = "" /\
       commits s' = commits s ++
         [{| symbol := output s; letter := morseDictionary !! output s |}].
Proof.
  unfold dispatchOutput. case_bool_decide; [done|].
  destruct (autoCommit (config s)); [|done]. cbn [orb negb].
  set (d := {| symbol := _ |}).
  destruct (commit_spec d s) as (Ht & Hd & Ho & Hc & Hcfg & Htm). done.
Qed.

Lemma commitCurrentSequence_spec s :
  tidy s ->
  let s' := commitCurrentSequence morseDictionary s in
  tidy s' /\ debouncing s' = [] /\ config s' = config s /\
  if bool_decide (output s = "") || negb (autoCommit (config s))
  then output s' = output s /\ commits s' = commits s
  else output s' = "" /\
       commits s' = commits s ++
         [{| symbol := output s; letter := morseDictionary !! output s |}].
Proof.
  intros Ht. unfold commitCurrentSequence.
  set (s1 := clearTimeout (timeout s) s).
  assert (H1 : output s1 = output s /\ commits s1 = commits s /\ config s1 = config s)
    by (subst s1; by destruct (timeout s)).
  destruct H1 as (Ho & Hc & Hcfg).
  destruct (dispatchOutput_spec s1) as (Ht' & Hd & Hcfg' & _ & Hres).
  rewrite Ho, Hc, Hcfg in Hres. split_and!.
  - by apply Ht', tidy_clearTimeout.
  - rewrite Hd. by apply clearTimeout_no_debounce.
  - congruence.
  - done.
Qed.

Lemma startDebounce_spec s :
  tidy s ->
  let s' := startDebounce s in
  tidy s' /\ debouncing s' = [nextTimer s] /\ timeout s' = Some (nextTimer s) /\
  output s' = output s /\ commits s' = commits s /\ config s' = config s /\
  outputStyleTimeout s' = outputStyleTimeout s /\
  oneSwitchKeyPressed s' = oneSwitchKeyPressed s /\
  switchPressStartTime s' = switchPressStartTime s.
Proof.
  intros Ht. unfold startDebounce.
  pose proof (clearTimeout_no_debounce s Ht) as Hnone.
  pose proof (tidy_clearTimeout (timeout s) s Ht) as Ht1.
  set (s1 := clearTimeout (timeout s) s) in *.
  assert (H1 : output s1 = output s /\ commits s1 = commits s /\ config s1 = config s /\
               outputStyleTimeout s1 = outputStyleTimeout s /\ nextTimer s1 = nextTimer s /\
               oneSwitchKeyPressed s1 = oneSwitchKeyPressed s /\
               switchPressStartTime s1 = switchPressStartTime s)
    by (subst s1; by destruct (timeout s)).
  destruct H1 as (Ho & Hc & Hcfg & Hst & Hn & Hk & Hp). bs. rewrite Hn.
  split_and!; try done.
  - destruct Ht1 as (Hnd & Hlt & Hdeb). unfold tidy. bs. rewrite Hn in *. split_and!.
    + rewrite fmap_app. apply NoDup_app. split_and!; [done| |apply NoDup_singleton].
      intros i ([i' t'] & -> & Hin)%list_elem_of_fmap Hi.
      apply list_elem_of_singleton in Hi. cbn in Hi. apply Hlt in Hin. lia.
    + intros i t' [Hin|Hin%list_elem_of_singleton]%elem_of_app.
      * apply Hlt in Hin. lia.
      * injection Hin as -> _. lia.
    + intros i [Hin|Hin%list_elem_of_singleton]%elem_of_app.
      * exfalso. by eapply (proj1 (debouncing_nil s1)).
      * by injection Hin as ->.
  - unfold debouncing in *. bs. rewrite filter_app, fmap_app, Hnone.
    by rewrite filter_cons_True, filter_nil by done.
Qed.

Lemma onClick_spec target s :
  tidy s ->
  let s' := onClick target s in
  tidy s' /\ (exists id, debouncing s' = [id]) /\ quiet s' /\
  output s' = entered s +:+ from_option symbolOf "" target /\
  commits s' = commits s /\ config s' = config s /\
  oneSwitchKeyPressed s' = oneSwitchKeyPressed s /\
  switchPressStartTime s' = switchPressStartTime s.
Proof.
  intros Ht. unfold onClick.
  set (s1 := if bool_decide _ then _ else s).
  assert (H1 : tidy s1 /\ quiet s1 /\ output s1 = entered s /\ commits s1 = commits s /\
               config s1 = config s /\
               oneSwitchKeyPressed s1 = oneSwitchKeyPressed s /\
               switchPressStartTime s1 = switchPressStartTime s).
  { subst s1. unfold entered, quiet. case_bool_decide as Hstyle; [|done].
    destruct (outputStyleTimeout s) as [st|] eqn:Est; [|done].
    set (s1 := clearTimeout (Some st) s).
    assert (Hs1 : tidy s1) by by apply tidy_clearTimeout.
    set (s2 := clearTimeout (outputStyleHideTimeout s1) s1).
    assert (Hs2 : tidy s2) by by apply tidy_clearTimeout.
    assert (H2 : commits s2 = commits s /\ config s2 = config s /\ timeout s2 = timeout s2 /\
                 oneSwitchKeyPressed s2 = oneSwitchKeyPressed s /\
                 switchPressStartTime s2 = switchPressStartTime s)
      by (subst s2 s1; cbn [clearTimeout]; by destruct (outputStyleHideTimeout _)).
    destruct H2 as (? & ? & ? & ? & ?). bs. split_and!; try done; by apply (tidy_same s2). }
  destruct H1 as (Ht1 & Hq & Ho & Hc & Hcfg & Hk & Hp).
  set (s2 := match target with Some b => _ | None => s1 end).
  assert (H2 : tidy s2 /\ quiet s2 /\
               output s2 = entered s +:+ from_option symbolOf "" target /\
               commits s2 = commits s /\ config s2 = config s /\
               oneSwitchKeyPressed s2 = oneSwitchKeyPressed s /\
               switchPressStartTime s2 = switchPressStartTime s).
  { subst s2. destruct target as [b|]; cbn [from_option].
    - bs. rewrite Ho. done.
    - by rewrite Ho, append_empty_r. }
  destruct H2 as (Ht2 & Hq2 & Ho2 & Hc2 & Hcfg2 & Hk2 & Hp2).
  destruct (startDebounce_spec s2 Ht2) as (Ht3 & Hd3 & Htm3 & Ho3 & Hc3 & Hcfg3 & Hst3 & Hk3 & Hp3).
  split_and!; try congruence; [by eexists|].
  unfold quiet. rewrite Hcfg3, Hst3. exact Hq2.
Qed.

Lemma tidy_fire id s : tidy s -> tidy (fire morseDictionary id s).
Proof.
  intros Ht. unfold fire.
  destruct (list_find _ _) as [[k [i t]]|] eqn:E; [|done].
  pose proof (tidy_clearTimeout (Some id) s Ht) as Ht1. cbn [clearTimeout] in Ht1.
  set (s1 := set_pending _ s) in *.
  destruct t as [|text|].
  - destruct (dispatchOutput_spec s1) as (Ht2 & _). by apply tidy_clearTimeout, Ht2.
  - bs. by apply (tidy_add HideNotification s1).
  - by apply (tidy_same s1).
Qed.

Lemma tidy_step e s : tidy s -> tidy (step morseDictionary e s).
Proof.
  intros Ht. destruct e as [target|code editable now|code now|id|enable]; cbn [step].
  - by apply onClick_spec.
  - unfold onKeydown. destruct editable; [done|].
    destruct (_ && _); [by destruct (oneSwitchKeyPressed s)|].
    destruct (mapped (dotKeyMap _) _); [by apply onClick_spec|].
    destruct (mapped (dashKeyMap _) _); [by apply onClick_spec|].
    destruct (mapped (commitKeyMap _) _); [by apply commitCurrentSequence_spec|].
    destruct (mapped (deleteKeyMap _) _); [|done].
    unfold deleteLastSymbol. by case_bool_decide.
  - unfold onKeyup. destruct (_ && _); [|done].
    destruct (oneSwitchKeyPressed s); [|done].
    destruct (_ <? _).
    + destruct (onClick_spec (Some Dot) s Ht) as [H _]. by apply (tidy_same (onClick (Some Dot) s)).
    + destruct (onClick_spec (Some Dash) s Ht) as [H _]. by apply (tidy_same (onClick (Some Dash) s)).
  - by apply tidy_fire.
  - done.
Qed.

Lemma tidy_run es s : tidy s -> tidy (run morseDictionary es s).
Proof.
  revert s. induction es as [|e es IH]; intros s Ht; [done|].
  cbn [run foldl]. apply IH. by apply tidy_step.
Qed.

Lemma tidy_create options : tidy (create options).
Proof.
  unfold tidy, create. bs. split_and!; [constructor| |]; intros; by apply not_elem_of_nil in H.
Qed.

Lemma tidy_debouncing s : tidy s -> (length (debouncing s) <= 1)%nat.
Proof.
  intros (Hnd & Hlt & Hdeb).
  assert (Hnd' : NoDup (debouncing s)) by by apply NoDup_fst_filter.
  assert (Hall : forall id, id ∈ debouncing s -> timeout s = Some id).
  { intros id ([i t] & -> & [Ht Hin]%list_elem_of_filter)%list_elem_of_fmap.
    cbn in Ht. subst t. by apply Hdeb. }
  destruct (debouncing s) as [|a [|b l]]; [simpl; lia|simpl; lia|exfalso].
  assert (Some a = Some b) as [= ->].
  { rewrite <- !Hall; [done|apply list_elem_of_further, list_elem_of_here|apply list_elem_of_here]. }
  apply NoDup_cons in Hnd' as [Hnot _]. apply Hnot, list_elem_of_here.
Qed.

(** X16.  Whatever clicks, keys and timers follow the creation of the
    board: at most one debounce timer is pending, it is the one that
    [this.timeout] holds, and no two pending timers have the same
    number. *)
Theorem at_most_one_debounce_timer (options : Options) (es : list Event) :
  let s := run morseDictionary es (create options) in
  (length (debouncing s) <= 1)%nat /\
  (forall id, id ∈ debouncing s -> timeout s = Some id) /\
  NoDup (pending s).*1.
Proof.
  intros s. assert (Ht : tidy s) by apply tidy_run, tidy_create.
  split; [by apply tidy_debouncing|]. destruct Ht as (Hnd & _ & Hdeb). split; [|done].
  intros id ([i t] & -> & [Ht Hin]%list_elem_of_filter)%list_elem_of_fmap.
  cbn in Ht. subst t. by apply Hdeb.
Qed.

Lemma append_assoc (u v w : string) : (u +:+ v) +:+ w = u +:+ (v +:+ w).
Proof. induction u as [|a u IH]; [done|]. by rewrite !append_cons, IH. Qed.

Lemma typed_from (acc : string) buttons :
  foldl (fun v b => v +:+ symbolOf b) acc buttons = acc +:+ typed buttons.
Proof.
  unfold typed. revert acc. induction buttons as [|b buttons IH]; intros acc.
  - by rewrite append_empty_r.
  - cbn [foldl]. rewrite IH, (IH ("" +:+ symbolOf b)), append_assoc. done.
Qed.

Lemma typed_nonempty buttons (v : string) : buttons <> [] -> v +:+ typed buttons <> "".
Proof.
  intros Hne. destruct buttons as [|b buttons]; [done|].
  unfold typed. cbn [foldl]. rewrite typed_from.
  destruct v; [|done]. by destruct b.
Qed.

Lemma entered_quiet s : quiet s -> entered s = output s.
Proof.
  unfold quiet, entered. intros Hq. case_bool_decide; [|done]. by rewrite Hq.
Qed.

Lemma clicks_spec buttons s :
  tidy s -> buttons <> [] ->
  let s' := run morseDictionary (Click ∘ Some <$> buttons) s in
  tidy s' /\ (exists id, debouncing s' = [id]) /\ quiet s' /\
  output s' = entered s +:+ typed buttons /\
  commits s' = commits s /\ config s' = config s.
Proof.
  intros Ht Hne. destruct buttons as [|b buttons]; [done|]. clear Hne.
  cbn [fmap list_fmap run foldl compose step].
  destruct (onClick_spec (Some b) s Ht) as (Ht1 & Hd1 & Hq1 & Ho1 & Hc1 & Hcfg1 & _).
  cbn [from_option] in Ho1.
  unfold typed. cbn [foldl]. rewrite typed_from. change ("" +:+ symbolOf b) with (symbolOf b).
  rewrite <- append_assoc, <- Ho1, <- Hc1, <- Hcfg1. clear Ho1 Hc1 Hcfg1.
  generalize dependent (onClick (Some b) s). clear s Ht. intros s Ht Hd Hq.
  revert s Ht Hd Hq. induction buttons as [|b' buttons IH]; intros s Ht Hd Hq.
  - cbn [fmap list_fmap foldl]. by rewrite append_empty_r.
  - cbn [fmap list_fmap foldl compose step].
    destruct (onClick_spec (Some b') s Ht) as (Ht1 & Hd1 & Hq1 & Ho1 & Hc1 & Hcfg1 & _).
    cbn [from_option] in Ho1. rewrite entered_quiet in Ho1 by done.
    destruct (IH _ Ht1 Hd1 Hq1) as (? & ? & ? & Ho & Hc & Hcfg).
    split_and!; try done; try congruence.
    unfold typed. cbn [foldl]. rewrite typed_from.
    change ("" +:+ symbolOf b') with (symbolOf b').
    fold (run morseDictionary (Click ∘ Some <$> buttons) (onClick (Some b') s)) in Ho |- *.
    rewrite <- append_assoc, <- Ho1. exact Ho.
Qed.

Lemma fire_debounce_spec id s :
  tidy s -> id ∈ debouncing s ->
  let s' := fire morseDictionary id s in
  tidy s' /\ debouncing s' = [] /\ config s' = config s /\
  if bool_decide (output s = "") || negb (autoCommit (config s))
  then output s' = output s /\ commits s' = commits s
  else output s' = "" /\
       commits s' = commits s ++
         [{| symbol := output s; letter := morseDictionary !! output s |}].
Proof.
  intros Ht Hin s'. pose proof (tidy_fire id s Ht) as Ht'. fold s' in Ht'.
  split; [done|]. subst s'.
  apply list_elem_of_fmap in Hin as ([i t] & -> & [Hdeb Hin]%list_elem_of_filter).
  cbn in Hdeb. subst t. cbn [fst] in *.
  unfold fire in *.
  destruct (list_find _ _) as [[k [i' t]]|] eqn:E.
  - apply list_find_Some in E as (Hk & Hi' & _). cbn in Hi'. subst i'.
    assert (t = Debounce) as ->.
    { destruct Ht as (Hnd & _). apply list_elem_of_lookup_2 in Hk.
      by eapply NoDup_fst_agree. }
    set (s1 := set_pending _ s) in *.
    assert (Hd1 : debouncing s1 = []).
    { apply debouncing_nil. intros j [Hne Hj]%list_elem_of_filter. cbn in Hne.
      destruct Ht as (_ & _ & Hdeb). pose proof (Hdeb _ Hin).
      apply Hdeb in Hj. congruence. }
    destruct (dispatchOutput_spec s1) as (_ & Hd2 & Hcfg2 & _ & Hres).
    set (s2 := dispatchOutput morseDictionary s1) in *.
    assert (H3 : output (clearTimeout (timeout s2) s2) = output s2 /\
                 commits (clearTimeout (timeout s2) s2) = commits s2 /\
                 config (clearTimeout (timeout s2) s2) = config s2)
      by by destruct (timeout s2).
    destruct H3 as (-> & -> & ->). split_and!; [|done|done].
    apply debouncing_nil. intros j Hj.
    destruct (timeout s2); cbn [clearTimeout set_pending pending] in Hj.
    + apply list_elem_of_filter in Hj as [_ Hj].
      revert Hj. apply debouncing_nil. congruence.
    + revert Hj. apply debouncing_nil. congruence.
  - exfalso. apply list_find_None in E. rewrite Forall_forall in E.
    by apply (E _ Hin).
Qed.

(** X17.  Dots and dashes clicked one after the other on a board
    whose timers are in order, [autoCommit] being on: the output shows
    what was entered before followed by the symbols clicked (a
    notification on show is wiped by the first click), and nothing is
    committed yet.  Then the commit key, or else the one debounce timer
    that is pending, commits that sequence once, with the letter that
    the dictionary gives for it, and leaves the output empty and no
    debounce timer pending; the commit key pressed again commits
    nothing more. *)
Theorem typed_sequence_is_committed_once (buttons : list Button) (s : State) :
  tidy s -> buttons <> [] -> autoCommit (config s) = true ->
  let s1 := run morseDictionary (Click ∘ Some <$> buttons) s in
  let sequence := entered s +:+ typed buttons in
  let detail := {| symbol := sequence; letter := morseDictionary !! sequence |} in
  output s1 = sequence /\ commits s1 = commits s /\
  exists id, debouncing s1 = [id] /\
    forall s2, s2 = commitCurrentSequence morseDictionary s1 \/
               s2 = fire morseDictionary id s1 ->
      output s2 = "" /\ commits s2 = commits s ++ [detail] /\ debouncing s2 = [] /\
      commits (commitCurrentSequence morseDictionary s2) = commits s2.
Proof.
  intros Ht Hne Hauto s1 sequence detail.
  destruct (clicks_spec buttons s Ht Hne) as (Ht1 & [id Hd1] & Hq1 & Ho1 & Hc1 & Hcfg1).
  fold s1 in Ht1, Hd1, Hq1, Ho1, Hc1, Hcfg1. fold sequence in Ho1.
  split; [done|]. split; [done|]. exists id. split; [done|].
  assert (Hseq : sequence <> "") by by apply typed_nonempty.
  intros s2 Hs2.
  assert (H2 : tidy s2 /\ debouncing s2 = [] /\ config s2 = config s1 /\
               output s2 = "" /\ commits s2 = commits s1 ++ [detail]).
  { destruct Hs2 as [-> | ->].
    - destruct (commitCurrentSequence_spec s1 Ht1) as (? & ? & ? & Hres).
      rewrite Hcfg1, Hauto, Ho1, bool_decide_eq_false_2 in Hres by done.
      cbn [orb negb] in Hres. by destruct Hres.
    - destruct (fire_debounce_spec id s1 Ht1) as (? & ? & ? & Hres).
      { rewrite Hd1. apply list_elem_of_here. }
      rewrite Hcfg1, Hauto, Ho1, bool_decide_eq_false_2 in Hres by done.
      cbn [orb negb] in Hres. by destruct Hres. }
  destruct H2 as (Ht2 & Hd2 & Hcfg2 & Ho2 & Hc2).
  split_and!; [done|by rewrite Hc2, Hc1|done|].
  destruct (commitCurrentSequence_spec s2 Ht2) as (_ & _ & _ & Hres).
  rewrite Ho2, bool_decide_eq_true_2 in Hres by done. by destruct Hres.
Qed.

Lemma onClick_set_switch target pressed start s :
  onClick target (set_switch pressed start s) = set_switch pressed start (onClick target s).
Proof.
  destruct s as [cfg out tm st sh kp ks pend next cms].
  unfold onClick. bs.
  case_bool_decide.
  - destruct st as [st|]; destruct target as [b|]; destruct tm as [tm|];
      try destruct sh as [sh|]; reflexivity.
  - destruct target as [b|]; destruct tm as [tm|]; reflexivity.
Qed.

Lemma repeats_ignored code (repeats : list Z) s :
  (oneSwitchMode (config s) && mapped (oneSwitchKeyMap (config s)) code) = true ->
  oneSwitchKeyPressed s = true ->
  run morseDictionary (KeyDown code false <$> repeats) s = s.
Proof.
  intros Hone Hk. induction repeats as [|now repeats IH]; [done|].
  cbn [fmap list_fmap run foldl step].
  replace (onKeydown morseDictionary code false now s) with s; [exact IH|].
  unfold onKeydown. by rewrite Hone, Hk.
Qed.

(** X18.  In one-switch mode, the switch key pressed at [t0], repeating
    while it is held, and released at [t1] does what one click does,
    and nothing else but to record the press: a click on the dot when
    [t1 - t0] is below [oneSwitchTimeout], a click on the dash
    otherwise. *)
Theorem one_switch_press (code t0 t1 : Z) (repeats : list Z) (s : State) :
  oneSwitchMode (config s) = true ->
  code ∈ oneSwitchKeyMap (config s) ->
  oneSwitchKeyPressed s = false ->
  let b := if t1 - t0 <? oneSwitchTimeout (config s) then Dot else Dash in
  run morseDictionary
      (KeyDown code false t0 :: (KeyDown code false <$> repeats) ++ [KeyUp code t1]) s
  = set_switch false t0 (onClick (Some b) s).
Proof.
  intros Hmode Hcode Hk b.
  assert (Hone : (oneSwitchMode (config s) && mapped (oneSwitchKeyMap (config s)) code) = true).
  { rewrite Hmode. unfold mapped. by rewrite bool_decide_eq_true_2. }
  unfold run. cbn [foldl step]. rewrite foldl_app.
  replace (onKeydown morseDictionary code false t0 s) with (set_switch true t0 s)
    by (unfold onKeydown; by rewrite Hone, Hk).
  fold (run morseDictionary (KeyDown code false <$> repeats) (set_switch true t0 s)).
  rewrite repeats_ignored by done.
  cbn [foldl step]. unfold onKeyup. bs. rewrite Hone. fold b.
  destruct (t1 - t0 <? oneSwitchTimeout (config s)); subst b;
    rewrite onClick_set_switch; reflexivity.
Qed.

Lemma typed_snoc buttons b : typed (buttons ++ [b]) = typed buttons +:+ symbolOf b.
Proof. unfold typed. by rewrite foldl_app. Qed.

Lemma deleteLastSymbol_snoc (v : string) b s :
  output s = v +:+ symbolOf b -> deleteLastSymbol s = set_output v s.
Proof.
  intros Ho. unfold deleteLastSymbol. rewrite Ho.
  rewrite bool_decide_eq_false_2.
  - f_equal. destruct b; apply dropLast_snoc.
  - destruct v; [by destruct b|done].
Qed.

Lemma delete_all (v : string) buttons s :
  output s = v +:+ typed buttons ->
  Nat.iter (length buttons) deleteLastSymbol s = set_output v s.
Proof.
  revert s. induction buttons as [|b buttons IH] using rev_ind; intros s Ho.
  - cbn [length Nat.iter nat_rect]. rewrite append_empty_r in Ho.
    destruct s. cbn in Ho. by subst.
  - rewrite length_app, Nat.add_comm. cbn [length Nat.add].
    rewrite Nat.iter_succ_r. rewrite typed_snoc, <- append_assoc in Ho.
    rewrite (deleteLastSymbol_snoc _ _ _ Ho). rewrite IH by done. done.
Qed.

Lemma fire_empty id s : output s = "" -> commits (fire morseDictionary id s) = commits s.
Proof.
  intros Ho. unfold fire. destruct (list_find _ _) as [[k [i t]]|]; [|done].
  destruct t as [|text|]; [|done|done].
  set (s1 := set_pending _ s).
  destruct (dispatchOutput_spec s1) as (_ & _ & _ & _ & Hres).
  change (output s1) with (output s) in Hres. rewrite Ho in Hres.
  rewrite bool_decide_eq_true_2 in Hres by done. destruct Hres as [_ Hc].
  by destruct (timeout (dispatchOutput morseDictionary s1)).
Qed.

(** X19.  Symbols that are clicked and then deleted one by one, as
    many as were clicked, leave in the output what was entered before
    them; deleting changes no timer and commits nothing.  When nothing
    was entered before, one more deletion changes nothing, and neither
    the commit key nor any timer that fires commits anything. *)
Theorem deleted_symbols_are_not_committed (buttons : list Button) (s : State) :
  tidy s -> buttons <> [] ->
  let s1 := run morseDictionary (Click ∘ Some <$> buttons) s in
  let s2 := Nat.iter (length buttons) deleteLastSymbol s1 in
  output s2 = entered s /\ pending s2 = pending s1 /\ commits s2 = commits s /\
  (entered s = "" ->
   deleteLastSymbol s2 = s2 /\
   commits (commitCurrentSequence morseDictionary s2) = commits s /\
   forall id, commits (fire morseDictionary id s2) = commits s).
Proof.
  intros Ht Hne s1 s2.
  destruct (clicks_spec buttons s Ht Hne) as (Ht1 & _ & _ & Ho1 & Hc1 & _).
  fold s1 in Ht1, Ho1, Hc1.
  assert (Hs2 : s2 = set_output (entered s) s1) by by apply delete_all.
  rewrite Hs2. bs. split_and!; [done|done|done|]. intros He. rewrite He.
  assert (Ht2 : tidy (set_output "" s1)) by by apply (tidy_same s1).
  split_and!.
  - unfold deleteLastSymbol. bs. by rewrite bool_decide_eq_true_2.
  - destruct (commitCurrentSequence_spec _ Ht2) as (_ & _ & _ & Hres).
    cbn [set_output output] in Hres. rewrite bool_decide_eq_true_2 in Hres by done.
    destruct Hres as [_ ->]. done.
  - intros id. rewrite fire_empty by done. done.
Qed.

Lemma fire_found id t s :
  tidy s -> (id, t) ∈ pending s ->
  exists k, list_find (fun t => t.1 = id) (pending s) = Some (k, (id, t)).
Proof.
  intros (Hnd & _) Hin.
  destruct (list_find (fun t => t.1 = id) (pending s)) as [[k [i t']]|] eqn:E.
  - apply list_find_Some in E as (Hk & Hi & _). cbn in Hi. subst i.
    apply list_elem_of_lookup_2 in Hk.
    rewrite (NoDup_fst_agree _ _ _ _ Hnd Hin Hk). by eexists.
  - exfalso. apply list_find_None in E. rewrite Forall_forall in E. by apply (E _ Hin).
Qed.

(** X20.  With notifications shown in the output: after a commit with
    a letter, the timer that the commit has set shows that letter in
    the output; the commit key pressed while it is shown commits the
    text on show as if it were a sequence that had been entered, with
    whatever the dictionary gives for that text. *)
Theorem shown_letter_can_be_committed (detail : Detail) (l : string) (s : State) :
  tidy s ->
  notification (config s) = true ->
  notificationStyle (config s) = "output" ->
  autoCommit (config s) = true ->
  letter detail = Some l -> l <> "" ->
  let s1 := commit detail s in
  exists id, outputStyleTimeout s1 = Some id /\
    let s2 := fire morseDictionary id s1 in
    output s2 = l /\
    commits (commitCurrentSequence morseDictionary s2) =
      commits s ++ [detail; {| symbol := l; letter := morseDictionary !! l |}].
Proof.
  intros Ht Hn Hstyle Hauto Hl Hne s1.
  destruct (commit_spec detail s) as (Ht1 & _ & _ & Hc1 & Hcfg1 & _). fold s1 in Ht1, Hc1, Hcfg1.
  specialize (Ht1 Ht).
  assert (H1 : outputStyleTimeout s1 = Some (nextTimer s) /\
               (nextTimer s, ShowNotification l) ∈ pending s1).
  { subst s1. unfold commit. rewrite Hn, Hl, bool_decide_eq_false_2 by done.
    unfold showNotification. rewrite bool_decide_eq_true_2 by done. bs.
    split; [done|]. apply elem_of_app. right. apply list_elem_of_here. }
  destruct H1 as [Hst Hin]. exists (nextTimer s). split; [done|].
  pose proof (tidy_fire (nextTimer s) s1 Ht1) as Ht2.
  destruct (fire_found _ _ _ Ht1 Hin) as [k Hfind].
  set (s2 := fire morseDictionary (nextTimer s) s1) in *.
  assert (H2 : output s2 = l /\ config s2 = config s1 /\ commits s2 = commits s1)
    by (subst s2; unfold fire; by rewrite Hfind).
  destruct H2 as (Ho2 & Hcfg2 & Hc2). cbn zeta. split; [done|].
  destruct (commitCurrentSequence_spec s2 Ht2) as (_ & _ & _ & Hres).
  rewrite Ho2, Hcfg2, Hcfg1, Hauto, bool_decide_eq_false_2 in Hres by done.
  cbn [orb negb] in Hres. destruct Hres as [_ ->].
  by rewrite Hc2, Hc1, <- app_assoc.
Qed.

End BoardProps.

(** X17 on dot, dash typed on the board of the game: the sequence is
    committed with the letter that the dictionary gives for it. *)
Lemma typed_sequence_is_committed_once_witness :
  let s := Cases.board in
  let buttons := [MorseBoard.Dot; MorseBoard.Dash] in
  let s1 := MorseBoard.run Cases.dictionary (MorseBoard.Click ∘ Some <$> buttons) s in
  tidy s /\ buttons <> [] /\
  MorseBoard.autoCommit (MorseBoard.config s) = true /\
  MorseBoard.output s1 = ".-" /\
  MorseBoard.commits (MorseBoard.commitCurrentSequence Cases.dictionary s1) =
    [{| MorseBoard.symbol := ".-"; MorseBoard.letter := Some "a" |}].
Proof.
  intros s buttons s1.
  assert (H1 : tidy s).
  { unfold tidy. change (MorseBoard.pending s) with (@nil (nat * MorseBoard.Timer)).
    split; [constructor|]. split.
    - intros id t Hin. by apply elem_of_nil in Hin.
    - intros id Hin. by apply elem_of_nil in Hin. }
  assert (H2 : buttons <> []) by discriminate.
  assert (H3 : MorseBoard.autoCommit (MorseBoard.config s) = true) by reflexivity.
  destruct (typed_sequence_is_committed_once Cases.dictionary buttons s H1 H2 H3)
    as (Ho & _ & id & _ & Hend).
  destruct (Hend _ (or_introl eq_refl)) as (_ & Hc & _).
  split_and!; [exact H1|exact H2|exact H3|exact Ho|exact Hc].
Defined.

(** X18 on the key x held for 200 ms on the board in one-switch mode,
    the key repeating twice meanwhile: one dot. *)
Lemma one_switch_press_witness :
  let s := Cases.oneSwitchBoard in
  let events :=
    MorseBoard.KeyDown 88 false 1000
      :: (MorseBoard.KeyDown 88 false <$> [1030; 1060]) ++ [MorseBoard.KeyUp 88 1200] in
  MorseBoard.oneSwitchMode (MorseBoard.config s) = true /\
  88 ∈ MorseBoard.oneSwitchKeyMap (MorseBoard.config s) /\
  MorseBoard.oneSwitchKeyPressed s = false /\
  MorseBoard.run Cases.dictionary events s =
    MorseBoard.set_switch false 1000 (MorseBoard.onClick (Some MorseBoard.Dot) s).
Proof.
  intros s events.
  assert (H1 : MorseBoard.oneSwitchMode (MorseBoard.config s) = true) by reflexivity.
  assert (H2 : 88 ∈ MorseBoard.oneSwitchKeyMap (MorseBoard.config s))
    by apply list_elem_of_here.
  assert (H3 : MorseBoard.oneSwitchKeyPressed s = false) by reflexivity.
  split_and!; [exact H1|exact H2|exact H3|].
  exact (one_switch_press Cases.dictionary 88 1000 1200 [1030; 1060] s H1 H2 H3).
Defined.

(** X19 on dot, dash typed and deleted again on the board of the game. *)
Lemma deleted_symbols_are_not_committed_witness :
  let s := Cases.board in
  let buttons := [MorseBoard.Dot; MorseBoard.Dash] in
  let s1 := MorseBoard.run Cases.dictionary (MorseBoard.Click ∘ Some <$> buttons) s in
  let s2 := Nat.iter (length buttons) MorseBoard.deleteLastSymbol s1 in
  tidy s /\ buttons <> [] /\
  MorseBoard.output s2 = "" /\
  MorseBoard.pending s2 = MorseBoard.pending s1 /\
  MorseBoard.commits s2 = [].
Proof.
  intros s buttons s1 s2.
  assert (H1 : tidy s).
  { unfold tidy. change (MorseBoard.pending s) with (@nil (nat * MorseBoard.Timer)).
    split; [constructor|]. split.
    - intros id t Hin. by apply elem_of_nil in Hin.
    - intros id Hin. by apply elem_of_nil in Hin. }
  assert (H2 : buttons <> []) by discriminate.
  destruct (deleted_symbols_are_not_committed Cases.dictionary buttons s H1 H2)
    as (Ho & Hp & Hc & _).
  split_and!; [exact H1|exact H2|exact Ho|exact Hp|exact Hc].
Defined.

(** X20 on the letter "a" committed on the board of the game: once it
    is shown, the commit key commits the text "a". *)
Lemma shown_letter_can_be_committed_witness :
  let s := Cases.board in
  let detail := {| MorseBoard.symbol := ".-"; MorseBoard.letter := Some "a" |} in
  let s1 := MorseBoard.commit detail s in
  tidy s /\
  MorseBoard.notification (MorseBoard.config s) = true /\
  MorseBoard.notificationStyle (MorseBoard.config s) = "output" /\
  MorseBoard.autoCommit (MorseBoard.config s) = true /\
  MorseBoard.letter detail = Some "a" /\ "a" <> "" /\
  exists id,
    MorseBoard.outputStyleTimeout s1 = Some id /\
    MorseBoard.commits
      (MorseBoard.commitCurrentSequence Cases.dictionary
         (MorseBoard.fire Cases.dictionary id s1)) =
      [detail; {| MorseBoard.symbol := "a"; MorseBoard.letter := None |}].
Proof.
  intros s detail s1.
  assert (H1 : tidy s).
  { unfold tidy. change (MorseBoard.pending s) with (@nil (nat * MorseBoard.Timer)).
    split; [constructor|]. split.
    - intros id t Hin. by apply elem_of_nil in Hin.
    - intros id Hin. by apply elem_of_nil in Hin. }
  assert (H2 : MorseBoard.notification (MorseBoard.config s) = true) by reflexivity.
  assert (H3 : MorseBoard.notificationStyle (MorseBoard.config s) = "output")
    by reflexivity.
  assert (H4 : MorseBoard.autoCommit (MorseBoard.config s) = true) by reflexivity.
  assert (H5 : MorseBoard.letter detail = Some "a") by reflexivity.
  assert (H6 : "a" <> "") by discriminate.
  destruct (shown_letter_can_be_committed Cases.dictionary detail "a" s H1 H2 H3 H4 H5 H6)
    as (id & Hid & _ & Hc).
  split_and!; [exact H1|exact H2|exact H3|exact H4|exact H5|exact H6|].
  exists id. split; [exact Hid|exact Hc].
Defined.

(** ** The settings drawn at random *)

Section RandomSettings.
Import TitleState.

(** X21.  Whatever the three draws are, the settings that are stored
    never have speech without sound and never have sound, speech and
    visual cues all off; the draw of the visual cues is kept, and draws
    that are valid already are stored as they are. *)
Theorem randomised_settings_are_valid (a s v : bool) :
  let r := randomiseSettings a s v in
  (speechAssistive r = true -> audio r = true) /\
  (audio r = true \/ visualCues r = true) /\
  visualCues r = v /\
  ((s = true -> a = true) -> (a = true \/ v = true) ->
   r = {| audio := a; speechAssistive := s; visualCues := v |}).
Proof.
  destruct a, s, v; cbn; split_and!; try done; auto.
  all: intros H1 H2; try (by specialize (H1 eq_refl)); by destruct H2.
Qed.

End RandomSettings.
